(** * Fraction Racer: the simulation core of [src/App.tsx]

    A shallow embedding of the game's state machine: the level catalog, the
    per-frame [update] (spawning, movement, collisions, numerator
    accumulation), the two verification sub-games ([handleMathSubmit],
    [handleChargeSubmit]), the level transitions ([startGame], [nextLevel])
    and the keyboard handler with the Pulsar power-up.

    Conventions.
    - Integer-valued JS numbers (numerators, counters, indices) are [Z] or
      [nat]; real-valued ones (positions, speeds, timers, time stamps) are
      exact rationals [Q]: rounding of doubles is not modelled.
    - [NaN] and [undefined] arising in arithmetic are [None] of an [option].
    - A thrown [TypeError] (reading a field of [LEVELS[i]] out of range) is
      the [None] of the handler's [option World].
    - [Math.random], [performance.now] and [window.innerWidth/innerHeight]
      are inputs: a stream of draws with a cursor, an argument of the event,
      and two fields of the world.
    - Audio cues and canvas drawing read the state and never write it; they
      are left out. *)

From Stdlib Require Import ZArith QArith Qround String Ascii List Lia Lqa.
From Stdlib Require DecimalString DecimalPos.
From stdpp Require Import gmap strings list.

Local Open Scope Z_scope.

(** ** Numbers *)

Definition Qltb (a b : Q) : bool := negb (Qle_bool b a).
Definition Qgtb (a b : Q) : bool := Qltb b a.
Definition Qmax (a b : Q) : Q := if Qle_bool a b then b else a.
Definition ofZ (z : Z) : Q := inject_Z z.

(** [Math.floor] *)
Definition Math_floor (q : Q) : Z := Qfloor q.

(** [array.reduce((a, b) => a + b, 0)] *)
Definition sum (l : list Z) : Z := fold_left Z.add l 0.

(** JS [===] on numbers, [None] standing for [NaN]. *)
Definition strictEq (a b : option Z) : bool :=
  match a, b with
  | Some x, Some y => x =? y
  | _, _ => false
  end.

(** ** Types of the source *)

Inductive GameState :=
| start | playing | math_challenge | level_complete | game_complete | charge_up.

Global Instance GameState_eq_dec : EqDecision GameState.
Proof. solve_decision. Defined.

Module Level.
Record t := mk {
    id : Z;
    denominator : Z;
    targetNumerator : Z;
    numShips : Z;
    speedMultiplier : Q;
}.
End Level.

Definition LEVELS : list Level.t := [
  Level.mk 1 3 3 1 (8 # 10);
  Level.mk 2 4 4 1 (9 # 10);
  Level.mk 3 5 5 1 1;
  Level.mk 4 6 6 1 (11 # 10);
  Level.mk 5 7 7 1 (12 # 10);
  Level.mk 6 8 8 1 (13 # 10);
  Level.mk 7 4 8 2 (14 # 10);
  Level.mk 8 5 10 2 (15 # 10);
  Level.mk 9 6 12 2 (16 # 10);
  Level.mk 10 8 24 3 (17 # 10);
  Level.mk 11 3 12 4 (18 # 10)
].

Inductive Op := Plus | Minus.

Module ChargeQuestion.
Record t := mk { n1 : Z; n2 : Z; op : Op; d : Z }.
End ChargeQuestion.

Module Gem.
Record t := mk {
    id : Q; x : Q; y : Q; numerator : Z; speed : Q; radius : Q;
}.
End Gem.

Module Obstacle.
Record t := mk {
    id : Q; x : Q; y : Q; speed : Q; radius : Q; rotation : Q; rotSpeed : Q;
}.
End Obstacle.

Module Star.
Record t := mk { x : Q; y : Q; speed : Q; size : Q }.
End Star.

Module Shockwave.
Record t := mk { x : Q; y : Q; radius : Q; maxRadius : Q; alpha : Q }.
End Shockwave.

(** The record held by [stateRef.current]. *)
Record State := mkState {
  shipX : Q;
  shipY : Q;
  currentNumerator : Z;
  gems : list Gem.t;
  obstacles : list Obstacle.t;
  stars : list Star.t;
  shockwaves : list Shockwave.t;
  collectedHistory : list Z;
  keys : gmap string bool;
  lastTime : Q;
  gemSpawnTimer : Q;
  obstacleSpawnTimer : Q;
  flashTimer : Q;
  bgmTimer : Q;
  bgmStep : nat;
  powerUps : Z;
}.

(** The component: its React state, the simulation record behind
    [stateRef], the canvas ([None] while not mounted, else its width and
    height), and the environment it reads. [gameStateRef] and [levelIdxRef]
    mirror [gameState] and [levelIdx] and are identified with them. *)
Record World := mkWorld {
  gameState : GameState;
  levelIdx : nat;
  mathStep : nat;
  mathInput : string;
  mathError : bool;
  chargeProgress : nat;
  chargeQuestion : ChargeQuestion.t;
  stateRef : State;
  canvas : option (Q * Q);
  innerWidth : Q;
  innerHeight : Q;
  randoms : nat -> Q;
  drawn : nat;
}.

(** *** Field updates *)

Definition set_shipX v s := mkState v (shipY s) (currentNumerator s) (gems s) (obstacles s) (stars s) (shockwaves s) (collectedHistory s) (keys s) (lastTime s) (gemSpawnTimer s) (obstacleSpawnTimer s) (flashTimer s) (bgmTimer s) (bgmStep s) (powerUps s).
Definition set_shipY v s := mkState (shipX s) v (currentNumerator s) (gems s) (obstacles s) (stars s) (shockwaves s) (collectedHistory s) (keys s) (lastTime s) (gemSpawnTimer s) (obstacleSpawnTimer s) (flashTimer s) (bgmTimer s) (bgmStep s) (powerUps s).
Definition set_currentNumerator v s := mkState (shipX s) (shipY s) v (gems s) (obstacles s) (stars s) (shockwaves s) (collectedHistory s) (keys s) (lastTime s) (gemSpawnTimer s) (obstacleSpawnTimer s) (flashTimer s) (bgmTimer s) (bgmStep s) (powerUps s).
Definition set_gems v s := mkState (shipX s) (shipY s) (currentNumerator s) v (obstacles s) (stars s) (shockwaves s) (collectedHistory s) (keys s) (lastTime s) (gemSpawnTimer s) (obstacleSpawnTimer s) (flashTimer s) (bgmTimer s) (bgmStep s) (powerUps s).
Definition set_obstacles v s := mkState (shipX s) (shipY s) (currentNumerator s) (gems s) v (stars s) (shockwaves s) (collectedHistory s) (keys s) (lastTime s) (gemSpawnTimer s) (obstacleSpawnTimer s) (flashTimer s) (bgmTimer s) (bgmStep s) (powerUps s).
Definition set_stars v s := mkState (shipX s) (shipY s) (currentNumerator s) (gems s) (obstacles s) v (shockwaves s) (collectedHistory s) (keys s) (lastTime s) (gemSpawnTimer s) (obstacleSpawnTimer s) (flashTimer s) (bgmTimer s) (bgmStep s) (powerUps s).
Definition set_shockwaves v s := mkState (shipX s) (shipY s) (currentNumerator s) (gems s) (obstacles s) (stars s) v (collectedHistory s) (keys s) (lastTime s) (gemSpawnTimer s) (obstacleSpawnTimer s) (flashTimer s) (bgmTimer s) (bgmStep s) (powerUps s).
Definition set_collectedHistory v s := mkState (shipX s) (shipY s) (currentNumerator s) (gems s) (obstacles s) (stars s) (shockwaves s) v (keys s) (lastTime s) (gemSpawnTimer s) (obstacleSpawnTimer s) (flashTimer s) (bgmTimer s) (bgmStep s) (powerUps s).
Definition set_keys v s := mkState (shipX s) (shipY s) (currentNumerator s) (gems s) (obstacles s) (stars s) (shockwaves s) (collectedHistory s) v (lastTime s) (gemSpawnTimer s) (obstacleSpawnTimer s) (flashTimer s) (bgmTimer s) (bgmStep s) (powerUps s).
Definition set_lastTime v s := mkState (shipX s) (shipY s) (currentNumerator s) (gems s) (obstacles s) (stars s) (shockwaves s) (collectedHistory s) (keys s) v (gemSpawnTimer s) (obstacleSpawnTimer s) (flashTimer s) (bgmTimer s) (bgmStep s) (powerUps s).
Definition set_gemSpawnTimer v s := mkState (shipX s) (shipY s) (currentNumerator s) (gems s) (obstacles s) (stars s) (shockwaves s) (collectedHistory s) (keys s) (lastTime s) v (obstacleSpawnTimer s) (flashTimer s) (bgmTimer s) (bgmStep s) (powerUps s).
Definition set_obstacleSpawnTimer v s := mkState (shipX s) (shipY s) (currentNumerator s) (gems s) (obstacles s) (stars s) (shockwaves s) (collectedHistory s) (keys s) (lastTime s) (gemSpawnTimer s) v (flashTimer s) (bgmTimer s) (bgmStep s) (powerUps s).
Definition set_flashTimer v s := mkState (shipX s) (shipY s) (currentNumerator s) (gems s) (obstacles s) (stars s) (shockwaves s) (collectedHistory s) (keys s) (lastTime s) (gemSpawnTimer s) (obstacleSpawnTimer s) v (bgmTimer s) (bgmStep s) (powerUps s).
Definition set_bgmTimer v s := mkState (shipX s) (shipY s) (currentNumerator s) (gems s) (obstacles s) (stars s) (shockwaves s) (collectedHistory s) (keys s) (lastTime s) (gemSpawnTimer s) (obstacleSpawnTimer s) (flashTimer s) v (bgmStep s) (powerUps s).
Definition set_bgmStep v s := mkState (shipX s) (shipY s) (currentNumerator s) (gems s) (obstacles s) (stars s) (shockwaves s) (collectedHistory s) (keys s) (lastTime s) (gemSpawnTimer s) (obstacleSpawnTimer s) (flashTimer s) (bgmTimer s) v (powerUps s).
Definition set_powerUps v s := mkState (shipX s) (shipY s) (currentNumerator s) (gems s) (obstacles s) (stars s) (shockwaves s) (collectedHistory s) (keys s) (lastTime s) (gemSpawnTimer s) (obstacleSpawnTimer s) (flashTimer s) (bgmTimer s) (bgmStep s) v.

Definition setGameState v w := mkWorld v (levelIdx w) (mathStep w) (mathInput w) (mathError w) (chargeProgress w) (chargeQuestion w) (stateRef w) (canvas w) (innerWidth w) (innerHeight w) (randoms w) (drawn w).
Definition setLevelIdx v w := mkWorld (gameState w) v (mathStep w) (mathInput w) (mathError w) (chargeProgress w) (chargeQuestion w) (stateRef w) (canvas w) (innerWidth w) (innerHeight w) (randoms w) (drawn w).
Definition setMathStep v w := mkWorld (gameState w) (levelIdx w) v (mathInput w) (mathError w) (chargeProgress w) (chargeQuestion w) (stateRef w) (canvas w) (innerWidth w) (innerHeight w) (randoms w) (drawn w).
Definition setMathInput v w := mkWorld (gameState w) (levelIdx w) (mathStep w) v (mathError w) (chargeProgress w) (chargeQuestion w) (stateRef w) (canvas w) (innerWidth w) (innerHeight w) (randoms w) (drawn w).
Definition setMathError v w := mkWorld (gameState w) (levelIdx w) (mathStep w) (mathInput w) v (chargeProgress w) (chargeQuestion w) (stateRef w) (canvas w) (innerWidth w) (innerHeight w) (randoms w) (drawn w).
Definition setChargeProgress v w := mkWorld (gameState w) (levelIdx w) (mathStep w) (mathInput w) (mathError w) v (chargeQuestion w) (stateRef w) (canvas w) (innerWidth w) (innerHeight w) (randoms w) (drawn w).
Definition setChargeQuestion v w := mkWorld (gameState w) (levelIdx w) (mathStep w) (mathInput w) (mathError w) (chargeProgress w) v (stateRef w) (canvas w) (innerWidth w) (innerHeight w) (randoms w) (drawn w).
Definition set_stateRef v w := mkWorld (gameState w) (levelIdx w) (mathStep w) (mathInput w) (mathError w) (chargeProgress w) (chargeQuestion w) v (canvas w) (innerWidth w) (innerHeight w) (randoms w) (drawn w).
Definition set_canvas v w := mkWorld (gameState w) (levelIdx w) (mathStep w) (mathInput w) (mathError w) (chargeProgress w) (chargeQuestion w) (stateRef w) v (innerWidth w) (innerHeight w) (randoms w) (drawn w).
Definition set_window iw ih w := mkWorld (gameState w) (levelIdx w) (mathStep w) (mathInput w) (mathError w) (chargeProgress w) (chargeQuestion w) (stateRef w) (canvas w) iw ih (randoms w) (drawn w).
Definition set_drawn v w := mkWorld (gameState w) (levelIdx w) (mathStep w) (mathInput w) (mathError w) (chargeProgress w) (chargeQuestion w) (stateRef w) (canvas w) (innerWidth w) (innerHeight w) (randoms w) v.

(** Apply a mutation of [stateRef.current]. *)
Definition onState (f : State -> State) (w : World) : World := set_stateRef (f (stateRef w)) w.

(** [Math.random()]: the next draw of the stream. *)
Definition Math_random (w : World) : Q * World :=
  (randoms w (drawn w), set_drawn (S (drawn w)) w).

(** ** Keyboard *)

Definition lowerChar (c : ascii) : ascii :=
  let n := nat_of_ascii c in
  if ((65 <=? n) && (n <=? 90))%nat then ascii_of_nat (n + 32) else c.

(** [String.prototype.toLowerCase], on the ASCII letters: the builtin for a
    string of ASCII characters (the names of the keys that the game reads
    are such strings). *)
Fixpoint toLowerCase (s : string) : string :=
  match s with
  | EmptyString => EmptyString
  | String c s' => String (lowerChar c) (toLowerCase s')
  end.

(** Truthiness of [state.keys[k]]: a missing entry is [undefined]. *)
Definition pressed (k : string) (s : State) : bool := default false (keys s !! k).

Definition handleKeyDown (key : string) (w : World) : World :=
  let w := onState (fun s => set_keys (<[toLowerCase key := true]> (keys s)) s) w in
  if (String.eqb key " " && bool_decide (gameState w = playing))%bool then
    let state := stateRef w in
    if 0 <? powerUps state then
      let state := set_powerUps (powerUps state - 1) state in
      let state := set_shockwaves
        (shockwaves state ++
           [Shockwave.mk (shipX state) (shipY state) 0
              (Qmax (innerWidth w) (innerHeight w)) 1]) state in
      let state := set_obstacles [] state in
      set_stateRef state w
    else w
  else w.

Definition handleKeyUp (key : string) (w : World) : World :=
  onState (fun s => set_keys (<[toLowerCase key := false]> (keys s)) s) w.

(** ** Spawner *)

Definition spawnGem (level : Level.t) (canvasWidth : Q) (w : World) : Gem.t * World :=
  let '(r, w) := Math_random w in
  let isNegative := Qltb r (3 # 10) in
  let '(r, w) := Math_random w in
  let num := Math_floor (r * ofZ (Level.denominator level - 1)) + 1 in
  let num := if isNegative then - num else num in
  let '(rid, w) := Math_random w in
  let '(rx, w) := Math_random w in
  let '(rs, w) := Math_random w in
  (Gem.mk rid (rx * (canvasWidth - 80) + 40)%Q (-40)%Q num
     ((rs * (15 # 10) + (15 # 10)) * Level.speedMultiplier level)%Q 32%Q,
   w).

(** The obstacle literal pushed inside [update] (lines 288-296). *)
Definition spawnObstacle (level : Level.t) (canvasWidth : Q) (w : World) : Obstacle.t * World :=
  let '(rid, w) := Math_random w in
  let '(rx, w) := Math_random w in
  let '(rs, w) := Math_random w in
  let '(rr, w) := Math_random w in
  let '(rrot, w) := Math_random w in
  (Obstacle.mk rid (rx * (canvasWidth - 60) + 30)%Q (-30)%Q
     ((rs * 2 + 2) * Level.speedMultiplier level)%Q
     (20 + rr * 15)%Q 0%Q ((rrot - (1 # 2)) * (1 # 10))%Q,
   w).

(** ** The physics and collision step: [update] *)

Definition radius : Q := 35%Q.
Definition playerWidth (level : Level.t) : Q := (ofZ (Level.numShips level) * radius * (25 # 10))%Q.
Definition playerHeight : Q := (radius * 2)%Q.

(** The bounding-box test of the two loops, for an entity at [(x, y)] with
    radius [r]. *)
Definition overlapsShip (level : Level.t) (x y r : Q) (s : State) : bool :=
  (Qgtb (y + r) (shipY s - radius) &&
   Qltb (y - r) (shipY s + radius) &&
   Qgtb (x + r) (shipX s - playerWidth level / 2) &&
   Qltb (x - r) (shipX s + playerWidth level / 2))%bool.

(** Background beat: only the timer and the step counter are state. *)
Definition updateBgm (level : Level.t) (dt : Q) (s : State) : State :=
  let s := set_bgmTimer (bgmTimer s - dt)%Q s in
  if Qle_bool (bgmTimer s) 0 then
    let speed := Qmax 120 (250 - ofZ (Level.id level) * 10)%Q in
    let s := set_bgmStep (S (bgmStep s)) s in
    set_bgmTimer speed s
  else s.

(** A block of statements on [state], run in order. *)
Definition block (stmts : list (State -> State)) (s : State) : State :=
  fold_left (fun s stmt => stmt s) stmts s.

Definition updateMovement (level : Level.t) (cw ch : Q) (dt : Q) : State -> State :=
  let moveSpeed := ((6 # 10) * dt)%Q in
  block [
    (fun s => if (pressed "arrowup" s || pressed "w" s)%bool then set_shipY (shipY s - moveSpeed)%Q s else s);
    (fun s => if (pressed "arrowdown" s || pressed "s" s)%bool then set_shipY (shipY s + moveSpeed)%Q s else s);
    (fun s => if (pressed "arrowleft" s || pressed "a" s)%bool then set_shipX (shipX s - moveSpeed)%Q s else s);
    (fun s => if (pressed "arrowright" s || pressed "d" s)%bool then set_shipX (shipX s + moveSpeed)%Q s else s);
    (fun s => if Qltb (shipX s) (playerWidth level / 2) then set_shipX (playerWidth level / 2)%Q s else s);
    (fun s => if Qgtb (shipX s) (cw - playerWidth level / 2) then set_shipX (cw - playerWidth level / 2)%Q s else s);
    (fun s => if Qltb (shipY s) (100 + playerHeight / 2) then set_shipY (100 + playerHeight / 2)%Q s else s);
    (fun s => if Qgtb (shipY s) (ch - playerHeight / 2) then set_shipY (ch - playerHeight / 2)%Q s else s)
  ].

(** [state.stars.forEach]: first to last, drawing a fresh [x] on wrap. *)
Fixpoint updateStars (cw ch dt : Q) (l : list Star.t) (w : World) : list Star.t * World :=
  match l with
  | [] => ([], w)
  | star :: rest =>
      let y := (Star.y star + Star.speed star * (dt / 16))%Q in
      let '(star, w) :=
        if Qgtb y ch then
          let '(r, w) := Math_random w in
          (Star.mk (r * cw)%Q 0%Q (Star.speed star) (Star.size star), w)
        else (Star.mk (Star.x star) y (Star.speed star) (Star.size star), w) in
      let '(rest, w) := updateStars cw ch dt rest w in
      (star :: rest, w)
  end.

Definition updateFlash (dt : Q) (s : State) : State :=
  if Qgtb (flashTimer s) 0 then set_flashTimer (flashTimer s - dt)%Q s else s.

(** The shockwave loop runs from the last index down and splices dead
    entries out; the survivors keep their order. *)
Fixpoint updateShockwaves (dt : Q) (l : list Shockwave.t) : list Shockwave.t :=
  match l with
  | [] => []
  | sw :: rest =>
      let rest := updateShockwaves dt rest in
      let r := (Shockwave.radius sw + dt * (25 # 10))%Q in
      let a := (1 - r / Shockwave.maxRadius sw)%Q in
      let sw := Shockwave.mk (Shockwave.x sw) (Shockwave.y sw) r (Shockwave.maxRadius sw) a in
      if Qle_bool a 0 then rest else sw :: rest
  end.

(** What an obstacle hit does to the run (lines 312-314). *)
Definition obstacleHit (s : State) : State :=
  let s := set_currentNumerator 0 s in
  let s := set_collectedHistory [] s in
  set_flashTimer 300%Q s.

(** The obstacle loop, from the last index down: the tail of the list is
    processed before its head. Returns the obstacles that stay. *)
Fixpoint updateObstacles (level : Level.t) (ch dt : Q) (l : list Obstacle.t) (s : State)
  : list Obstacle.t * State :=
  match l with
  | [] => ([], s)
  | obs :: rest =>
      let '(rest, s) := updateObstacles level ch dt rest s in
      let obs := Obstacle.mk (Obstacle.id obs) (Obstacle.x obs)
                   (Obstacle.y obs + Obstacle.speed obs * (dt / 16))%Q
                   (Obstacle.speed obs) (Obstacle.radius obs)
                   (Obstacle.rotation obs + Obstacle.rotSpeed obs * (dt / 16))%Q
                   (Obstacle.rotSpeed obs) in
      if overlapsShip level (Obstacle.x obs) (Obstacle.y obs) (Obstacle.radius obs) s then
        (rest, obstacleHit s)
      else if Qgtb (Obstacle.y obs) (ch + 50) then (rest, s)
      else (obs :: rest, s)
  end.

(** *** Collecting a gem (lines 336-369) *)

(** Lines 336-337: add the numerator, append to the history. *)
Definition accumulate (n : Z) (s : State) : State :=
  let s := set_currentNumerator (currentNumerator s + n) s in
  set_collectedHistory (collectedHistory s ++ [n]) s.

(** Lines 345-348: the clamp at zero. *)
Definition clampNegative (s : State) : State :=
  if currentNumerator s <? 0 then
    let s := set_currentNumerator 0 s in
    set_collectedHistory [] s
  else s.

(** Lines 350-369: the outcome of the collection. *)
Definition evaluate (level : Level.t) (w : World) : World :=
  let state := stateRef w in
  if currentNumerator state =? Level.targetNumerator level then
    if (length (collectedHistory state) <=? 1)%nat then
      if (levelIdx w =? length LEVELS - 1)%nat then setGameState game_complete w
      else setGameState level_complete w
    else
      let w := setMathStep 1%nat w in
      let w := setMathInput "" w in
      let w := setMathError false w in
      setGameState math_challenge w
  else if Level.targetNumerator level <? currentNumerator state then
    let state := set_currentNumerator 0 state in
    let state := set_collectedHistory [] state in
    let state := set_flashTimer 300%Q state in
    set_stateRef state w
  else w.

Definition collectGem (level : Level.t) (n : Z) (w : World) : World :=
  let w := onState (accumulate n) w in
  let w := onState clampNegative w in
  evaluate level w.

(** The gem loop, from the last index down. It does not look at the game
    state: gems later in the same pass are still collected after one of
    them has completed the level. *)
Fixpoint updateGems (level : Level.t) (ch dt : Q) (l : list Gem.t) (w : World)
  : list Gem.t * World :=
  match l with
  | [] => ([], w)
  | gem :: rest =>
      let '(rest, w) := updateGems level ch dt rest w in
      let gem := Gem.mk (Gem.id gem) (Gem.x gem)
                   (Gem.y gem + Gem.speed gem * (dt / 16))%Q
                   (Gem.numerator gem) (Gem.speed gem) (Gem.radius gem) in
      if overlapsShip level (Gem.x gem) (Gem.y gem) (Gem.radius gem) (stateRef w) then
        (rest, collectGem level (Gem.numerator gem) w)
      else if Qgtb (Gem.y gem) (ch + 50) then (rest, w)
      else (gem :: rest, w)
  end.

Definition update (dt : Q) (w : World) : option World :=
  match canvas w with
  | None => Some w
  | Some (cw, ch) =>
      match LEVELS !! levelIdx w with
      | None => None
      | Some level =>
          let w := onState (updateBgm level dt) w in
          let w := onState (updateMovement level cw ch dt) w in
          let '(ss, w) := updateStars cw ch dt (stars (stateRef w)) w in
          let w := onState (set_stars ss) w in
          let w := onState (updateFlash dt) w in
          let w := onState (fun s => set_shockwaves (updateShockwaves dt (shockwaves s)) s) w in
          (* Gems *)
          let w := onState (fun s => set_gemSpawnTimer (gemSpawnTimer s - dt)%Q s) w in
          let w :=
            if Qle_bool (gemSpawnTimer (stateRef w)) 0 then
              let '(g, w) := spawnGem level cw w in
              let w := onState (fun s => set_gems (gems s ++ [g]) s) w in
              onState (set_gemSpawnTimer (1500 / Level.speedMultiplier level)%Q) w
            else w in
          (* Obstacles *)
          let w := onState (fun s => set_obstacleSpawnTimer (obstacleSpawnTimer s - dt)%Q s) w in
          let w :=
            if Qle_bool (obstacleSpawnTimer (stateRef w)) 0 then
              let '(o, w) := spawnObstacle level cw w in
              let w := onState (fun s => set_obstacles (obstacles s ++ [o]) s) w in
              onState (set_obstacleSpawnTimer (2500 / Level.speedMultiplier level)%Q) w
            else w in
          let '(os, s) := updateObstacles level ch dt (obstacles (stateRef w)) (stateRef w) in
          let w := set_stateRef (set_obstacles os s) w in
          let '(gs, w) := updateGems level ch dt (gems (stateRef w)) w in
          Some (onState (set_gems gs) w)
      end
  end.

(** The frame callback, up to its call of [draw] (line 543), which paints
    the canvas and writes no state. *)
Definition loop (time : Q) (w : World) : option World :=
  if bool_decide (gameState w = playing) then
    let dt := (time - lastTime (stateRef w))%Q in
    let dt := if Qgtb dt 50 then 50%Q else dt in
    let w := onState (set_lastTime time) w in
    update dt w
  else Some w.

(** ** Level transitions *)

Definition startGame (now : Q) (w : World) : World :=
  let w := setLevelIdx 0%nat w in
  let w := onState (set_currentNumerator 0) w in
  let w := onState (set_gems []) w in
  let w := onState (set_obstacles []) w in
  let w := onState (set_shockwaves []) w in
  let w := onState (set_collectedHistory []) w in
  let w := onState (set_shipX (innerWidth w / 2)%Q) w in
  let w := onState (set_shipY (innerHeight w - 80)%Q) w in
  let w := onState (set_lastTime now) w in
  let w := onState (set_bgmTimer 0%Q) w in
  let w := onState (set_powerUps 0) w in
  setGameState playing w.

Definition nextLevel (now : Q) (w : World) : World :=
  let w := setLevelIdx (levelIdx w + 1)%nat w in
  let w := onState (set_currentNumerator 0) w in
  let w := onState (set_gems []) w in
  let w := onState (set_obstacles []) w in
  let w := onState (set_shockwaves []) w in
  let w := onState (set_collectedHistory []) w in
  let w := onState (set_shipX (innerWidth w / 2)%Q) w in
  let w := onState (set_shipY (innerHeight w - 80)%Q) w in
  let w := onState (set_lastTime now) w in
  let w := onState (set_bgmTimer 0%Q) w in
  setGameState playing w.

(** ** Reading an answer: [parseInt] with no radix argument

    Leading white space is skipped, a sign is read, a [0x]/[0X] prefix
    selects base 16, and the longest run of digits is the value; no digit
    at all is [NaN]. White space is the ASCII part of the JS set, and the
    value is exact. *)

Definition isWhiteSpace (c : ascii) : bool :=
  let n := nat_of_ascii c in
  ((n =? 32) || ((9 <=? n) && (n <=? 13)))%nat.

Fixpoint trimStart (s : string) : string :=
  match s with
  | String c s' => if isWhiteSpace c then trimStart s' else s
  | EmptyString => s
  end.

Definition digitValue (c : ascii) : option Z :=
  let n := nat_of_ascii c in
  if ((48 <=? n) && (n <=? 57))%nat then Some (Z.of_nat (n - 48))
  else if ((97 <=? n) && (n <=? 122))%nat then Some (Z.of_nat (n - 87))
  else if ((65 <=? n) && (n <=? 90))%nat then Some (Z.of_nat (n - 55))
  else None.

(** The longest prefix of radix-[R] digits; [acc] is the value read so far,
    [None] before the first digit. *)
Fixpoint parseDigits (R : Z) (s : string) (acc : option Z) : option Z :=
  match s with
  | EmptyString => acc
  | String c s' =>
      match digitValue c with
      | Some v => if v <? R then parseDigits R s' (Some (default 0 acc * R + v)) else acc
      | None => acc
      end
  end.

Definition parseInt (s : string) : option Z :=
  let s := trimStart s in
  let '(sign, s) :=
    match s with
    | String "-" r => (-1, r)
    | String "+" r => (1, r)
    | _ => (1, s)
    end in
  let '(R, s) :=
    match s with
    | String "0" (String "x" r) => (16, r)
    | String "0" (String "X" r) => (16, r)
    | _ => (10, s)
    end in
  Z.mul sign <$> parseDigits R s None.

(** ** Showing a number

    [String(n)], as a template literal applies it to an integer-valued
    number: the decimal digits, after a minus sign when negative. *)
Definition toString (z : Z) : string :=
  DecimalString.NilZero.string_of_int (Z.to_int z).


(** ** What [draw] computes for the fleet (lines 432-440) and [drawShip]
    for the segments of one ship (lines 184-199) *)

(** The centre of ship [s]. *)
Definition shipXOffset (level : Level.t) (x : Q) (s : nat) : Q :=
  (x + (ofZ (Z.of_nat s) - (ofZ (Level.numShips level) - 1) / 2) * (radius * (25 # 10)))%Q.

(** The part of the numerator shown on ship [s]. *)
Definition shipNumerator (level : Level.t) (numerator : Z) (s : nat) : Z :=
  Z.max 0 (Z.min (Level.denominator level)
             (numerator - Z.of_nat s * Level.denominator level)).

(** The segments of one ship, in drawing order: lit when [i < currentNumerator]. *)
Definition segments (denominator currentNumerator : Z) : list bool :=
  map (fun i => Z.of_nat i <? currentNumerator) (seq 0 (Z.to_nat denominator)).

(** The ships drawn by one call of [draw]: centre and segments of each. *)
Definition drawnFleet (level : Level.t) (s : State) : list (Q * list bool) :=
  map (fun i => (shipXOffset level (shipX s) i,
                 segments (Level.denominator level)
                   (shipNumerator level (currentNumerator s) i)))
      (seq 0 (Z.to_nat (Level.numShips level))).

(** ** Math challenge *)

(** [history.slice(0, mathStep).reduce(...) + history[mathStep]]; reading
    past the end gives [undefined], and the sum is then [NaN]. *)
Definition mathExpected (history : list Z) (step : nat) : option Z :=
  let currentGem := history !! step in
  let previousSum := sum (take step history) in
  Z.add previousSum <$> currentGem.

Definition handleMathSubmit (w : World) : World :=
  let history := collectedHistory (stateRef w) in
  let expected := mathExpected history (mathStep w) in
  if strictEq (parseInt (mathInput w)) expected then
    if (length history <=? mathStep w + 1)%nat then
      if (levelIdx w =? length LEVELS - 1)%nat then setGameState game_complete w
      else setGameState level_complete w
    else
      let w := setMathStep (mathStep w + 1)%nat w in
      let w := setMathInput "" w in
      setMathError false w
  else setMathError true w.

(** ** Charge-up *)

Definition makeChargeQuestion (lvlIdx : nat) (w : World) : option (ChargeQuestion.t * World) :=
  match LEVELS !! lvlIdx with
  | None => None
  | Some level =>
      let d := Level.denominator level in
      let '(r, w) := Math_random w in
      let n1 := Math_floor (r * ofZ d * 2) + 1 in
      let '(r, w) := Math_random w in
      let n2 := Math_floor (r * ofZ d) + 1 in
      let '(r, w) := Math_random w in
      let op := if Qgtb r (1 # 2) then Plus else Minus in
      match op with
      | Minus =>
          if n1 <? n2 then Some (ChargeQuestion.mk n2 n1 op d, w)
          else Some (ChargeQuestion.mk n1 n2 op d, w)
      | Plus => Some (ChargeQuestion.mk n1 n2 op d, w)
      end
  end.

Definition startChargeUp (w : World) : option World :=
  match makeChargeQuestion (levelIdx w) w with
  | None => None
  | Some (q, w) =>
      let w := setChargeQuestion q w in
      let w := setChargeProgress 0%nat w in
      let w := setMathInput "" w in
      let w := setMathError false w in
      Some (setGameState charge_up w)
  end.

Definition chargeExpected (q : ChargeQuestion.t) : Z :=
  match ChargeQuestion.op q with
  | Plus => ChargeQuestion.n1 q + ChargeQuestion.n2 q
  | Minus => ChargeQuestion.n1 q - ChargeQuestion.n2 q
  end.

Definition handleChargeSubmit (now : Q) (w : World) : option World :=
  let expected := chargeExpected (chargeQuestion w) in
  if strictEq (parseInt (mathInput w)) (Some expected) then
    let newProgress := (chargeProgress w + 1)%nat in
    if (3 <=? newProgress)%nat then
      let w := onState (fun s => set_powerUps (powerUps s + 1) s) w in
      Some (nextLevel now w)
    else
      let w := setChargeProgress newProgress w in
      let w := setMathInput "" w in
      let w := setMathError false w in
      match makeChargeQuestion (levelIdx w) w with
      | None => None
      | Some (q, w) => Some (setChargeQuestion q w)
      end
  else Some (setMathError true w).

(** ** The component as a transition system *)

(** [onChange] of the answer box, shared by the two sub-games. *)
Definition handleInputChange (text : string) (w : World) : World :=
  setMathError false (setMathInput text w).

Definition handleResize (iw ih : Q) (w : World) : World :=
  let w := set_window iw ih w in
  match canvas w with
  | Some _ => set_canvas (Some (iw, ih)) w
  | None => w
  end.

(** What can happen to the mounted component: an animation frame, a key
    event, a window resize, and the controls of the overlays. *)
Inductive Event :=
| Frame (time : Q)
| KeyDown (key : string)
| KeyUp (key : string)
| Resize (iw ih : Q)
| ClickStartEngine (now : Q)
| ClickPlayAgain (now : Q)
| ClickContinue (now : Q)
| ClickChargeUp
| ChangeInput (text : string)
| ConfirmMath
| ConfirmCharge (now : Q).

(** A control acts only while the overlay that carries it is rendered; in
    any other state it does not exist and the world stays as it is. *)
Definition step (e : Event) (w : World) : option World :=
  match e with
  | Frame time => loop time w
  | KeyDown key => Some (handleKeyDown key w)
  | KeyUp key => Some (handleKeyUp key w)
  | Resize iw ih => Some (handleResize iw ih w)
  | ClickStartEngine now =>
      if bool_decide (gameState w = start) then Some (startGame now w) else Some w
  | ClickPlayAgain now =>
      if bool_decide (gameState w = game_complete) then Some (startGame now w) else Some w
  | ClickContinue now =>
      if bool_decide (gameState w = level_complete) then Some (nextLevel now w) else Some w
  | ClickChargeUp =>
      if bool_decide (gameState w = level_complete) then startChargeUp w else Some w
  | ChangeInput text =>
      if bool_decide (gameState w = math_challenge \/ gameState w = charge_up)
      then Some (handleInputChange text w) else Some w
  | ConfirmMath =>
      if bool_decide (gameState w = math_challenge) then Some (handleMathSubmit w) else Some w
  | ConfirmCharge now =>
      if bool_decide (gameState w = charge_up) then handleChargeSubmit now w else Some w
  end.

Fixpoint run (es : list Event) (w : World) : option World :=
  match es with
  | [] => Some w
  | e :: es =>
      match step e w with
      | Some w => run es w
      | None => None
      end
  end.

(** [Array.from({ length: n }, ...)] of the star field. *)
Fixpoint initStars (n : nat) (w : World) : list Star.t * World :=
  match n with
  | O => ([], w)
  | S n =>
      let '(rx, w) := Math_random w in
      let '(ry, w) := Math_random w in
      let '(rs, w) := Math_random w in
      let '(rz, w) := Math_random w in
      let star := Star.mk (rx * innerWidth w)%Q (ry * innerHeight w)%Q (rs * 2 + 1)%Q (rz * 2 + 1)%Q in
      let '(rest, w) := initStars n w in
      (star :: rest, w)
  end.

(** The component after mounting, in a window of the given size. *)
Definition initial (iw ih : Q) (rs : nat -> Q) : World :=
  let state :=
    mkState (iw / 2)%Q (ih - 80)%Q 0 [] [] [] [] [] ∅ 0%Q 0%Q 0%Q 0%Q 0%Q 0%nat 0 in
  let w :=
    mkWorld start 0%nat 0%nat "" false 0%nat (ChargeQuestion.mk 1 1 Plus 3)
      state (Some (iw, ih)) iw ih rs 0%nat in
  let '(ss, w) := initStars 100 w in
  onState (set_stars ss) w.

Inductive reachable : World -> Prop :=
| reachable_initial iw ih rs : reachable (initial iw ih rs)
| reachable_step e w w' : reachable w -> step e w = Some w' -> reachable w'.

(** * Vocabulary of the statements *)

(** The numerator is the sum of the history. *)
Definition consistent (s : State) : Prop :=
  currentNumerator s = sum (collectedHistory s).

(** The run has been reset. *)
Definition cleared (s : State) : Prop :=
  currentNumerator s = 0 /\ collectedHistory s = [].

(** [s'] has the run progress and the power-up count of [s]. *)
Definition sameCore (s s' : State) : Prop :=
  currentNumerator s' = currentNumerator s /\
  collectedHistory s' = collectedHistory s /\
  powerUps s' = powerUps s.

(** A mutation of the simulation record that touches neither the run
    progress nor the power-up count. *)
Definition keepsCore (f : State -> State) : Prop := forall s, sameCore s (f s).

(** [steady w w']: [w'] is at the same level and holds the same power-ups
    as [w], its run progress is consistent if it was in [w], and its game
    state is the one of [w] or one that a completed collection sets. *)
Record steady (w w' : World) : Prop := {
  steady_levelIdx : levelIdx w' = levelIdx w;
  steady_powerUps : powerUps (stateRef w') = powerUps (stateRef w);
  steady_consistent : consistent (stateRef w) -> consistent (stateRef w');
  steady_gameState :
    gameState w' = gameState w \/ gameState w' = game_complete \/
    gameState w' = math_challenge \/
    (gameState w' = level_complete /\ levelIdx w <> (length LEVELS - 1)%nat);
}.

(** The run progress is consistent, the power-up count is not negative, the
    level index is in the catalog, and the overlays that lead to the next
    level are shown only when there is one. *)
Record wellFormed (w : World) : Prop := {
  wf_consistent : consistent (stateRef w);
  wf_powerUps : 0 <= powerUps (stateRef w);
  wf_levelIdx : (levelIdx w < length LEVELS)%nat;
  wf_next : gameState w = level_complete \/ gameState w = charge_up ->
            (levelIdx w + 1 < length LEVELS)%nat;
}.

(** How one event can change the power-up count. *)
Inductive powerUpChange (e : Event) (w w' : World) : Prop :=
| pu_same :
    powerUps (stateRef w') = powerUps (stateRef w) -> powerUpChange e w w'
| pu_pulsar :
    e = KeyDown " " -> gameState w = playing -> 0 < powerUps (stateRef w) ->
    powerUps (stateRef w') = powerUps (stateRef w) - 1 -> obstacles (stateRef w') = [] ->
    powerUpChange e w w'
| pu_restart now :
    e = ClickStartEngine now /\ gameState w = start \/
    e = ClickPlayAgain now /\ gameState w = game_complete ->
    w' = startGame now w -> powerUps (stateRef w') = 0 ->
    powerUpChange e w w'
| pu_charged now :
    e = ConfirmCharge now -> gameState w = charge_up ->
    parseInt (mathInput w) = Some (chargeExpected (chargeQuestion w)) ->
    (3 <= chargeProgress w + 1)%nat ->
    powerUps (stateRef w') = powerUps (stateRef w) + 1 -> gameState w' = playing ->
    powerUpChange e w w'.

(** A sequence of collections within one level, in order. *)
Definition collectAll (level : Level.t) (ns : list Z) (w : World) : World :=
  fold_left (fun w n => collectGem level n w) ns w.

(** A world in free play at level index [i], used for the examples: a
    window of 800 by 600 and every random draw equal to one half. *)
Definition playingAt (i : nat) : World :=
  setLevelIdx i (startGame 0 (initial 800 600 (fun _ => (1 # 2)%Q))).

(** The player types each text into the answer box and confirms it. *)
Fixpoint answerMath (texts : list string) : list Event :=
  match texts with
  | [] => []
  | t :: ts => ChangeInput t :: ConfirmMath :: answerMath ts
  end.

(** [text] is a correct answer at step [s] of the challenge over [history]. *)
Definition correctAt (history : list Z) (text : string) (s : nat) : Prop :=
  strictEq (parseInt text) (mathExpected history s) = true.

(** One round of the drill: type [text], confirm. *)
Definition answerCharge (text : string) (now : Q) : list Event :=
  [ChangeInput text; ConfirmCharge now].

(** [text] is the correct answer to the question shown in [w]. *)
Definition correctCharge (text : string) (w : World) : Prop :=
  parseInt text = Some (chargeExpected (chargeQuestion w)).

(** A text whose first character is not a decimal digit ends a number. *)
Definition endsNumber (tail : string) : Prop :=
  match tail with
  | EmptyString => True
  | String c _ =>
      match digitValue c with
      | Some v => 10 <= v
      | None => True
      end
  end.

(** The texts that answer the steps [s], [s+1], ..., [s+n-1] of the
    challenge over [history]: the running sums, written out. *)
Definition mathAnswers (history : list Z) (s n : nat) : list string :=
  map (fun i => toString (sum (take (S i) history))) (seq s n).

(** Wrong attempts in the charge-up, one after the other. *)
Definition chargeAttempts (texts : list string) (now : Q) : list Event :=
  concat (map (fun t => answerCharge t now) texts).

(** The part of [update] that comes before the two collision loops
    (lines 223-298): beat, movement, stars, flash, shockwaves and the two
    spawn timers. *)
Definition beforeCollisions (level : Level.t) (cw ch dt : Q) (w : World) : World :=
  let w := onState (updateBgm level dt) w in
  let w := onState (updateMovement level cw ch dt) w in
  let '(ss, w) := updateStars cw ch dt (stars (stateRef w)) w in
  let w := onState (set_stars ss) w in
  let w := onState (updateFlash dt) w in
  let w := onState (fun s => set_shockwaves (updateShockwaves dt (shockwaves s)) s) w in
  let w := onState (fun s => set_gemSpawnTimer (gemSpawnTimer s - dt)%Q s) w in
  let w :=
    if Qle_bool (gemSpawnTimer (stateRef w)) 0 then
      let '(g, w) := spawnGem level cw w in
      let w := onState (fun s => set_gems (gems s ++ [g]) s) w in
      onState (set_gemSpawnTimer (1500 / Level.speedMultiplier level)%Q) w
    else w in
  let w := onState (fun s => set_obstacleSpawnTimer (obstacleSpawnTimer s - dt)%Q s) w in
  if Qle_bool (obstacleSpawnTimer (stateRef w)) 0 then
    let '(o, w) := spawnObstacle level cw w in
    let w := onState (fun s => set_obstacles (obstacles s ++ [o]) s) w in
    onState (set_obstacleSpawnTimer (2500 / Level.speedMultiplier level)%Q) w
  else w.

(** The simulation record after the first half of [beforeCollisions]
    (beat, movement, stars, flash, shockwaves), with [ss] the stars as
    [updateStars] leaves them. *)
Definition settledState (level : Level.t) (cw ch dt : Q) (ss : list Star.t) (s : State) : State :=
  let s := updateBgm level dt s in
  let s := updateMovement level cw ch dt s in
  let s := set_stars ss s in
  let s := updateFlash dt s in
  set_shockwaves (updateShockwaves dt (shockwaves s)) s.

(** The second half: the two spawn timers, with [g] and [o] the gem and
    the obstacle spawned if a timer runs out. *)
Definition spawnTimers (level : Level.t) (dt : Q) (g : Gem.t) (o : Obstacle.t) (s : State) : State :=
  let s := set_gemSpawnTimer (gemSpawnTimer s - dt)%Q s in
  let s :=
    if Qle_bool (gemSpawnTimer s) 0 then
      set_gemSpawnTimer (1500 / Level.speedMultiplier level)%Q (set_gems (gems s ++ [g]) s)
    else s in
  let s := set_obstacleSpawnTimer (obstacleSpawnTimer s - dt)%Q s in
  if Qle_bool (obstacleSpawnTimer s) 0 then
    set_obstacleSpawnTimer (2500 / Level.speedMultiplier level)%Q
      (set_obstacles (obstacles s ++ [o]) s)
  else s.

(** What the two collision loops can do to a world: obstacle hits and gem
    collections, in some order, and replacing the two entity lists. *)
Inductive afterHits (level : Level.t) (w : World) : World -> Prop :=
| hits_none : afterHits level w w
| hits_obstacle w' : afterHits level w w' -> afterHits level w (onState obstacleHit w')
| hits_gem w' n : afterHits level w w' -> afterHits level w (collectGem level n w')
| hits_obstacles w' os :
    afterHits level w w' -> afterHits level w (onState (set_obstacles os) w')
| hits_gems w' gs :
    afterHits level w w' -> afterHits level w (onState (set_gems gs) w').

(** The ship of [s'] is where the ship of [s] is. *)
Definition sameShip (s s' : State) : Prop :=
  shipX s' = shipX s /\ shipY s' = shipY s.

(** Every running sum of the history lies between 0 and [t]. *)
Definition sumsWithin (t : Z) (history : list Z) : Prop :=
  forall i : nat, 0 <= sum (take i history) <= t.

(** An entity at [(x, y)] with radius [r] is in the field and clear of
    the ship: its box does not meet the ship's and it is not more than 50
    below a canvas of height [ch]. *)
Definition clearOfShip (level : Level.t) (ch : Q) (s : State) (x y r : Q) : Prop :=
  overlapsShip level x y r s = false /\ (y <= ch + 50)%Q.

Definition gemClear (level : Level.t) (ch : Q) (s : State) (g : Gem.t) : Prop :=
  clearOfShip level ch s (Gem.x g) (Gem.y g) (Gem.radius g).

Definition obstacleClear (level : Level.t) (ch : Q) (s : State) (o : Obstacle.t) : Prop :=
  clearOfShip level ch s (Obstacle.x o) (Obstacle.y o) (Obstacle.radius o).

(** The run of [s] is consistent and all its running sums lie between 0
    and [t]. *)
Definition runWithin (t : Z) (s : State) : Prop :=
  consistent s /\ sumsWithin t (collectedHistory s).

(** The run of [w] stays within the target of its level. *)
Definition inRange (w : World) : Prop :=
  forall level, LEVELS !! levelIdx w = Some level ->
                runWithin (Level.targetNumerator level) (stateRef w).

(** A stream of draws for the runs below, every draw in [0, 1). The first
    400 draws place the stars; from then on each spawn takes five. In a
    window of 800 by 408 and with frames 50 ms apart the spawns are, in
    order: a gem of +2, an obstacle at the left edge, a slow gem of +1,
    another obstacle at the left edge, a fast gem of +1; every later draw
    is one half. *)
Definition playDraws (n : nat) : Q :=
  if (n <? 400)%nat then 0%Q
  else nth (n - 400)
         [1 # 2; 1 # 2; 0; 1 # 2; 9 # 10;
          0; 0; 0; 0; 0;
          1 # 2; 0; 0; 1 # 2; 0;
          0; 0; 0; 0; 0;
          1 # 2; 0; 0; 1 # 2; 9 # 10]%Q (1 # 2)%Q.

(** [n] animation frames, 50 ms apart. *)
Definition frames (n : nat) : list Event :=
  map (fun i => Frame (ofZ (Z.of_nat (50 * S i)))) (seq 0 n).

(** The number of lit segments over a drawn fleet. *)
Definition litCount (fleet : list (Q * list bool)) : Z :=
  sum (map (fun p => Z.of_nat (length (List.filter (fun b : bool => b) p.2))) fleet).

(** Half the gap that the spacing of [radius * 2.5] leaves between the
    circles of two neighbouring saucers. *)
Definition saucerMargin : Q := (radius * (25 # 10) / 2 - radius)%Q.

(** [drawShip] builds a saucer on the circle of radius [radius] around its
    centre (the arcs of lines 176 and 187). [circleInField cw ch x y]: that
    circle, around [(x, y)], lies on a canvas of width [cw] and height [ch],
    below the strip of height 100 at the top, with [saucerMargin] to spare
    on the left and on the right. What the strokes of width 2 along the
    circle paint outside it is not part of this. *)
Definition circleInField (cw ch x y : Q) : Prop :=
  (saucerMargin <= x - radius /\ x + radius <= cw - saucerMargin)%Q /\
  (100 <= y - radius /\ y + radius <= ch)%Q.




(** Every draw of the stream lies in [0, 1), as [Math.random] promises. *)
Definition unitDraws (w : World) : Prop :=
  forall n, (0 <= randoms w n)%Q /\ (randoms w n < 1)%Q.

(** The numerator of the gem is one that [spawnGem] gives on [level]. *)
Definition validGem (level : Level.t) (g : Gem.t) : Prop :=
  1 <= Z.abs (Gem.numerator g) <= Level.denominator level - 1.

(** Every gem in the field is valid for the level being played. *)
Definition gemsValid (w : World) : Prop :=
  forall level, LEVELS !! levelIdx w = Some level ->
                Forall (validGem level) (gems (stateRef w)).

(** The victory screen is up only on the last level of the catalog. *)
Definition wonAtLast (w : World) : Prop :=
  gameState w = game_complete -> levelIdx w = (length LEVELS - 1)%nat.

(** * Properties *)

(** ** Sums and comparisons *)

Lemma sum_nil : sum [] = 0.
Proof. reflexivity. Qed.

Lemma sum_snoc (l : list Z) (n : Z) : sum (l ++ [n]) = sum l + n.
Proof. unfold sum. rewrite fold_left_app. reflexivity. Qed.

Lemma sum_take_S (l : list Z) (i : nat) (g : Z) :
  l !! i = Some g -> sum (take (S i) l) = sum (take i l) + g.
Proof.
  intros H. rewrite (take_S_r l i g H). apply sum_snoc.
Qed.

Lemma strictEq_true (a b : option Z) :
  strictEq a b = true <-> exists x, a = Some x /\ b = Some x.
Proof.
  destruct a as [x|], b as [y|]; cbn; split;
    try discriminate; try (intros (z & ? & ?); discriminate).
  - intros H. apply Z.eqb_eq in H. subst. eauto.
  - intros (z & ? & ?). simplify_eq. apply Z.eqb_refl.
Qed.

Lemma strictEq_false (a b : option Z) :
  a = None \/ a <> b -> strictEq a b = false.
Proof.
  intros H. destruct (strictEq a b) eqn:E; [|reflexivity].
  apply strictEq_true in E as (x & -> & ->). destruct H; congruence.
Qed.

Lemma Qgtb_true (a b : Q) : Qgtb a b = true <-> (b < a)%Q.
Proof.
  unfold Qgtb, Qltb. rewrite negb_true_iff.
  split.
  - intros H. apply Qnot_le_lt. intros Hle. apply Qle_bool_iff in Hle. congruence.
  - intros H. destruct (Qle_bool a b) eqn:E; [|reflexivity].
    apply Qle_bool_iff in E. exfalso. exact (Qlt_not_le _ _ H E).
Qed.

Lemma Qgtb_false (a b : Q) : Qgtb a b = false <-> (a <= b)%Q.
Proof.
  unfold Qgtb, Qltb. rewrite negb_false_iff. apply Qle_bool_iff.
Qed.

(** ** The catalog *)

Lemma LEVELS_length : length LEVELS = 11%nat.
Proof. reflexivity. Qed.

Lemma LEVELS_lookup (i : nat) :
  (i < length LEVELS)%nat -> exists level, LEVELS !! i = Some level.
Proof. intros H. apply lookup_lt_is_Some_2 in H as [l Hl]. eauto. Qed.

Lemma LEVELS_target_pos (i : nat) (level : Level.t) :
  LEVELS !! i = Some level -> 0 < Level.targetNumerator level.
Proof.
  intros H.
  do 11 (destruct i as [|i]; [cbn in H; simplify_eq; reflexivity|]).
  discriminate.
Qed.

(** ** What a frame leaves alone *)

Lemma cleared_consistent (s : State) : cleared s -> consistent s.
Proof. intros [H1 H2]. unfold consistent. rewrite H1, H2. reflexivity. Qed.

Lemma sameCore_refl s : sameCore s s.
Proof. repeat split. Qed.

Lemma sameCore_trans s1 s2 s3 : sameCore s1 s2 -> sameCore s2 s3 -> sameCore s1 s3.
Proof. intros (H1 & H2 & H3) (H4 & H5 & H6). repeat split; congruence. Qed.

Lemma keepsCore_block (stmts : list (State -> State)) :
  Forall keepsCore stmts -> keepsCore (block stmts).
Proof.
  unfold block. induction 1 as [|f l Hf _ IH]; intros s; cbn.
  - apply sameCore_refl.
  - eapply sameCore_trans; [apply Hf | apply IH].
Qed.

Lemma steady_refl (w : World) : steady w w.
Proof. split; auto. Qed.

Lemma steady_trans (w1 w2 w3 : World) : steady w1 w2 -> steady w2 w3 -> steady w1 w3.
Proof.
  intros [L1 P1 C1 G1] [L2 P2 C2 G2]. split.
  - congruence.
  - congruence.
  - auto.
  - rewrite L1 in G2. destruct G2 as [G2|G2]; [rewrite G2; exact G1|].
    right. destruct G2 as [G2|[G2|G2]]; auto.
Qed.

Lemma steady_onState (f : State -> State) (w : World) :
  keepsCore f -> steady w (onState f w).
Proof.
  intros H. destruct (H (stateRef w)) as (Hc & Hh & Hp).
  split; cbn; auto. unfold consistent. rewrite Hc, Hh. auto.
Qed.

Lemma steady_set_drawn (n : nat) (w : World) : steady w (set_drawn n w).
Proof. split; cbn; auto. Qed.

Lemma keepsCore_updateBgm level dt : keepsCore (updateBgm level dt).
Proof. intros s. unfold updateBgm. cbn. case_match; repeat split. Qed.

Lemma keepsCore_updateMovement level cw ch dt : keepsCore (updateMovement level cw ch dt).
Proof.
  unfold updateMovement. apply keepsCore_block.
  repeat match goal with
         | |- Forall _ (_ :: _) => constructor; [intros s; case_match; repeat split|]
         end.
  constructor.
Qed.

Lemma keepsCore_updateFlash dt : keepsCore (updateFlash dt).
Proof. intros s. unfold updateFlash. case_match; repeat split. Qed.

Lemma spawnGem_world level cw w :
  (spawnGem level cw w).2 = set_drawn (5 + drawn w) w.
Proof. reflexivity. Qed.

Lemma spawnObstacle_world level cw w :
  (spawnObstacle level cw w).2 = set_drawn (5 + drawn w) w.
Proof. reflexivity. Qed.

Lemma updateStars_world cw ch dt l w :
  exists n, (updateStars cw ch dt l w).2 = set_drawn n w.
Proof.
  revert w. induction l as [|star rest IH]; intros w; cbn.
  - exists (drawn w). destruct w; reflexivity.
  - destruct (Qgtb _ ch); cbn.
    + destruct (IH (set_drawn (S (drawn w)) w)) as [n Hn].
      destruct (updateStars cw ch dt rest _) as [r w']. cbn in *. subst.
      exists n. reflexivity.
    + destruct (IH w) as [n Hn].
      destruct (updateStars cw ch dt rest _) as [r w']. cbn in *. subst.
      exists n. reflexivity.
Qed.

Lemma updateObstacles_core level ch dt l s :
  let s' := (updateObstacles level ch dt l s).2 in
  powerUps s' = powerUps s /\ (consistent s -> consistent s').
Proof.
  induction l as [|obs rest IH]; cbn; [auto|].
  destruct (updateObstacles level ch dt rest s) as [r s1]. cbn in *.
  destruct IH as [IHp IHc].
  repeat case_match; cbn; auto.
  split; [assumption|]. intros _. reflexivity.
Qed.

(** ** One collection *)

Lemma accumulate_consistent (n : Z) (s : State) :
  consistent s -> consistent (accumulate n s).
Proof.
  unfold consistent, accumulate. cbn. intros ->. symmetry. apply sum_snoc.
Qed.

Lemma clampNegative_consistent (s : State) :
  consistent s -> consistent (clampNegative s).
Proof. unfold clampNegative. case_match; [reflexivity | auto]. Qed.

Lemma clampNegative_core (s : State) :
  powerUps (clampNegative s) = powerUps s /\
  (cleared (clampNegative s) /\ currentNumerator s < 0 \/
   clampNegative s = s /\ 0 <= currentNumerator s).
Proof.
  unfold clampNegative. destruct (Z.ltb_spec (currentNumerator s) 0); cbn.
  - split; [reflexivity|]. left. repeat split. assumption.
  - split; [reflexivity|]. right. split; [reflexivity | assumption].
Qed.

(** The three outcomes of [evaluate]: the target is met and the game state
    changes; the target is exceeded and the run is cleared; or nothing
    happens. *)
Lemma evaluate_cases (level : Level.t) (w : World) :
  let c := currentNumerator (stateRef w) in
  let t := Level.targetNumerator level in
  (c = t /\ (length (collectedHistory (stateRef w)) <= 1)%nat /\
   evaluate level w =
     setGameState (if (levelIdx w =? length LEVELS - 1)%nat
                   then game_complete else level_complete) w) \/
  (c = t /\ (1 < length (collectedHistory (stateRef w)))%nat /\
   evaluate level w =
     setGameState math_challenge
       (setMathError false (setMathInput "" (setMathStep 1%nat w)))) \/
  (t < c /\
   evaluate level w =
     set_stateRef (set_flashTimer 300%Q
               (set_collectedHistory [] (set_currentNumerator 0 (stateRef w)))) w) \/
  (c < t /\ evaluate level w = w).
Proof.
  cbv zeta. unfold evaluate.
  destruct (Z.eqb_spec (currentNumerator (stateRef w)) (Level.targetNumerator level)) as [He|Hne].
  - destruct (Nat.leb_spec (length (collectedHistory (stateRef w))) 1).
    + left. repeat split; try assumption. case_match; reflexivity.
    + right; left. repeat split; assumption.
  - destruct (Z.ltb_spec (Level.targetNumerator level) (currentNumerator (stateRef w))).
    + right; right; left. split; [assumption | reflexivity].
    + right; right; right. split; [lia | reflexivity].
Qed.

Lemma steady_evaluate (level : Level.t) (w : World) : steady w (evaluate level w).
Proof.
  destruct (evaluate_cases level w) as [(_ & _ & ->)|[(_ & _ & ->)|[(_ & ->)|(_ & ->)]]].
  - split; cbn [levelIdx stateRef gameState setGameState]; auto.
    destruct (Nat.eqb_spec (levelIdx w) (length LEVELS - 1)); auto.
  - split; cbn; auto.
  - split; cbn; auto. intros _. reflexivity.
  - apply steady_refl.
Qed.

Lemma steady_collectGem (level : Level.t) (n : Z) (w : World) :
  steady w (collectGem level n w).
Proof.
  unfold collectGem.
  eapply steady_trans; [|apply steady_evaluate].
  split; cbn; auto.
  - apply (clampNegative_core (accumulate n (stateRef w))).
  - intros H. apply clampNegative_consistent, accumulate_consistent, H.
Qed.

Lemma steady_updateGems level ch dt l w :
  steady w (updateGems level ch dt l w).2.
Proof.
  induction l as [|gem rest IH]; cbn; [apply steady_refl|].
  destruct (updateGems level ch dt rest w) as [r w1]. cbn in *.
  repeat case_match; cbn; auto.
  eapply steady_trans; [exact IH | apply steady_collectGem].
Qed.

Lemma steady_update (dt : Q) (w w' : World) :
  update dt w = Some w' -> steady w w'.
Proof.
  unfold update. intros H.
  destruct (canvas w) as [[cw ch]|]; [|simplify_eq; apply steady_refl].
  destruct (LEVELS !! levelIdx w) as [level|]; [|discriminate].
  cbv zeta in H.
  set (w1 := onState (updateMovement level cw ch dt) (onState (updateBgm level dt) w)) in H.
  assert (S1 : steady w w1).
  { eapply steady_trans; apply steady_onState;
      [apply keepsCore_updateBgm | apply keepsCore_updateMovement]. }
  clearbody w1.
  destruct (updateStars_world cw ch dt (stars (stateRef w1)) w1) as [k Hk].
  destruct (updateStars cw ch dt (stars (stateRef w1)) w1) as [ss w2]. cbn in Hk. subst w2.
  assert (S2 : forall w0, steady w w0 ->
                 steady w (onState (fun s => set_gemSpawnTimer (gemSpawnTimer s - dt)%Q s) w0)).
  { intros w0 H0. eapply steady_trans; [exact H0|]. apply steady_onState. repeat split. }
  set (w3 := onState (fun s => set_gemSpawnTimer (gemSpawnTimer s - dt)%Q s) _) in H.
  assert (S3 : steady w w3).
  { apply S2. repeat (eapply steady_trans; [|apply steady_onState; try apply keepsCore_updateFlash; repeat split]).
    eapply steady_trans; [exact S1 | apply steady_set_drawn]. }
  clearbody w3. clear S1 S2 w1.
  set (w4 := if Qle_bool (gemSpawnTimer (stateRef w3)) 0 then _ else w3) in H.
  assert (S4 : steady w w4).
  { subst w4. destruct (Qle_bool (gemSpawnTimer (stateRef w3)) 0); [|assumption].
    pose proof (spawnGem_world level cw w3) as Hs.
    destruct (spawnGem level cw w3) as [g w5]. cbn in Hs. subst w5.
    repeat (eapply steady_trans; [|apply steady_onState; repeat split]).
    eapply steady_trans; [exact S3 | apply steady_set_drawn]. }
  clearbody w4. clear S3 w3.
  set (w5 := onState (fun s => set_obstacleSpawnTimer (obstacleSpawnTimer s - dt)%Q s) w4) in H.
  assert (S5 : steady w w5).
  { eapply steady_trans; [exact S4|]. apply steady_onState. repeat split. }
  clearbody w5. clear S4 w4.
  set (w6 := if Qle_bool (obstacleSpawnTimer (stateRef w5)) 0 then _ else w5) in H.
  assert (S6 : steady w w6).
  { subst w6. destruct (Qle_bool (obstacleSpawnTimer (stateRef w5)) 0); [|assumption].
    pose proof (spawnObstacle_world level cw w5) as Hs.
    destruct (spawnObstacle level cw w5) as [o w7]. cbn in Hs. subst w7.
    repeat (eapply steady_trans; [|apply steady_onState; repeat split]).
    eapply steady_trans; [exact S5 | apply steady_set_drawn]. }
  clearbody w6. clear S5 w5.
  pose proof (updateObstacles_core level ch dt (obstacles (stateRef w6)) (stateRef w6)) as Ho.
  destruct (updateObstacles level ch dt (obstacles (stateRef w6)) (stateRef w6)) as [os s]. cbn in Ho.
  set (w7 := set_stateRef (set_obstacles os s) w6) in H.
  assert (S7 : steady w w7).
  { eapply steady_trans; [exact S6|]. destruct Ho as [Hp Hc]. split; cbn; auto. }
  clearbody w7. clear S6 Ho.
  pose proof (steady_updateGems level ch dt (gems (stateRef w7)) w7) as Hg.
  destruct (updateGems level ch dt (gems (stateRef w7)) w7) as [gs w8]. cbn in Hg.
  simplify_eq.
  eapply steady_trans; [exact S7|]. eapply steady_trans; [exact Hg|].
  apply steady_onState. repeat split.
Qed.

(** Two frames on a concrete field (window 800 by 600, ship at (400, 520)):
    a gem that reaches the ship is collected and removed, and an obstacle
    that reaches it clears the run. In both a new gem and a new obstacle are
    spawned above the field. *)
Example frame_collects_gem :
  let w := onState (set_gems [Gem.mk 0 400 500 3 2 32]) (playingAt 1) in
  exists w', step (Frame 16) w = Some w' /\
             currentNumerator (stateRef w') = 3 /\ collectedHistory (stateRef w') = [3] /\
             length (gems (stateRef w')) = 1%nat /\ gameState w' = playing.
Proof. cbv zeta. eexists. split; [vm_compute; reflexivity|]. repeat split. Qed.

Example frame_obstacle_clears_run :
  let w := onState (set_obstacles [Obstacle.mk 0 400 500 2 20 0 0])
             (collectGem (Level.mk 2 4 4 1 (9 # 10)) 3 (playingAt 1)) in
  currentNumerator (stateRef w) = 3 /\
  exists w', step (Frame 16) w = Some w' /\
             currentNumerator (stateRef w') = 0 /\ collectedHistory (stateRef w') = [] /\
             length (obstacles (stateRef w')) = 1%nat /\ gameState w' = playing.
Proof.
  cbv zeta. split; [reflexivity|].
  eexists. split; [vm_compute; reflexivity|]. repeat split.
Qed.

(** The gem loop runs to the end of the list whatever the outcome of a
    collection. Here the numerator is 3 of 4 and two gems reach the ship in
    the same frame: the one at the higher index (+1) meets the target and
    opens the math challenge, the other (+2) is then collected as well and
    overshoots, which clears the run. The challenge opens over an empty
    history, for which no answer is expected. *)
Example frame_collects_after_completion :
  let w := onState (set_gems [Gem.mk 0 400 500 2 2 32; Gem.mk 0 410 500 1 2 32])
             (collectGem (Level.mk 2 4 4 1 (9 # 10)) 3 (playingAt 1)) in
  exists w', step (Frame 16) w = Some w' /\
             gameState w' = math_challenge /\ mathStep w' = 1%nat /\
             currentNumerator (stateRef w') = 0 /\ collectedHistory (stateRef w') = [] /\
             mathExpected (collectedHistory (stateRef w')) (mathStep w') = None.
Proof. cbv zeta. eexists. split; [vm_compute; reflexivity|]. repeat split. Qed.

(** ** Invariants of the reachable worlds *)

Lemma steady_wellFormed (w w' : World) : steady w w' -> wellFormed w -> wellFormed w'.
Proof.
  intros [L P C G] [Hc Hp Hl Hn]. split.
  - auto.
  - rewrite P. assumption.
  - rewrite L. assumption.
  - rewrite L. intros Hs.
    destruct G as [G|[G|[G|[G Hlast]]]].
    + apply Hn. rewrite <- G. assumption.
    + rewrite G in Hs. destruct Hs; discriminate.
    + rewrite G in Hs. destruct Hs; discriminate.
    + lia.
Qed.

Lemma makeChargeQuestion_world (i : nat) (w : World) :
  (i < length LEVELS)%nat ->
  exists q, makeChargeQuestion i w = Some (q, set_drawn (3 + drawn w) w).
Proof.
  intros H. apply LEVELS_lookup in H as [level Hl].
  unfold makeChargeQuestion. rewrite Hl. cbn.
  repeat case_match; eauto.
Qed.

Lemma makeChargeQuestion_Some (i : nat) (w w' : World) (q : ChargeQuestion.t) :
  makeChargeQuestion i w = Some (q, w') -> w' = set_drawn (3 + drawn w) w.
Proof.
  unfold makeChargeQuestion. destruct (LEVELS !! i); [|discriminate].
  cbn. repeat case_match; intros; simplify_eq; reflexivity.
Qed.

Lemma update_total (dt : Q) (w : World) :
  (levelIdx w < length LEVELS)%nat -> exists w', update dt w = Some w'.
Proof.
  intros H. apply LEVELS_lookup in H as [level Hl].
  unfold update. destruct (canvas w) as [[cw ch]|]; [|eauto].
  rewrite Hl. cbv zeta.
  repeat match goal with
         | |- context [let '(_, _) := ?p in _] => destruct p
         end.
  eauto.
Qed.

Lemma handleMathSubmit_cases (w : World) :
  let expected := mathExpected (collectedHistory (stateRef w)) (mathStep w) in
  (strictEq (parseInt (mathInput w)) expected = false /\
   handleMathSubmit w = setMathError true w) \/
  (strictEq (parseInt (mathInput w)) expected = true /\
   (length (collectedHistory (stateRef w)) <= mathStep w + 1)%nat /\
   handleMathSubmit w =
     setGameState (if (levelIdx w =? length LEVELS - 1)%nat
                   then game_complete else level_complete) w) \/
  (strictEq (parseInt (mathInput w)) expected = true /\
   (mathStep w + 1 < length (collectedHistory (stateRef w)))%nat /\
   handleMathSubmit w =
     setMathError false (setMathInput "" (setMathStep (mathStep w + 1)%nat w))).
Proof.
  cbv zeta. unfold handleMathSubmit.
  destruct (strictEq _ _); [|left; split; reflexivity].
  right.
  destruct (Nat.leb_spec (length (collectedHistory (stateRef w))) (mathStep w + 1)).
  - left. repeat split; try assumption. case_match; reflexivity.
  - right. repeat split; assumption.
Qed.

Lemma handleChargeSubmit_cases (now : Q) (w : World) :
  let correct := strictEq (parseInt (mathInput w)) (Some (chargeExpected (chargeQuestion w))) in
  (correct = false /\ handleChargeSubmit now w = Some (setMathError true w)) \/
  (correct = true /\ (3 <= chargeProgress w + 1)%nat /\
   handleChargeSubmit now w =
     Some (nextLevel now (onState (fun s => set_powerUps (powerUps s + 1) s) w))) \/
  (correct = true /\ (chargeProgress w + 1 < 3)%nat /\
   handleChargeSubmit now w =
     match makeChargeQuestion (levelIdx w)
             (setMathError false (setMathInput "" (setChargeProgress (chargeProgress w + 1)%nat w))) with
     | Some (q, w') => Some (setChargeQuestion q w')
     | None => None
     end).
Proof.
  cbv zeta. unfold handleChargeSubmit.
  destruct (strictEq _ _); [|left; split; reflexivity].
  right.
  destruct (Nat.leb_spec 3 (chargeProgress w + 1)).
  - left. repeat split; assumption.
  - right. repeat split; try assumption.
Qed.

Lemma handleKeyDown_cases (key : string) (w : World) :
  let w1 := onState (fun s => set_keys (<[toLowerCase key := true]> (keys s)) s) w in
  (key = " " /\ gameState w = playing /\ 0 < powerUps (stateRef w) /\
   handleKeyDown key w =
     set_stateRef (set_obstacles []
               (set_shockwaves
                  (shockwaves (stateRef w1) ++
                     [Shockwave.mk (shipX (stateRef w1)) (shipY (stateRef w1)) 0
                        (Qmax (innerWidth w) (innerHeight w)) 1])
                  (set_powerUps (powerUps (stateRef w) - 1) (stateRef w1)))) w1) \/
  ((key <> " " \/ gameState w <> playing \/ powerUps (stateRef w) <= 0) /\
   handleKeyDown key w = w1).
Proof.
  cbv zeta. unfold handleKeyDown.
  destruct (String.eqb_spec key " ") as [->|Hk]; cbn [andb].
  - destruct (decide (gameState w = playing)) as [Hp|Hp].
    + rewrite bool_decide_eq_true_2 by exact Hp.
      destruct (Z.ltb_spec 0 (powerUps (stateRef w))); cbn.
      * left. repeat split; try assumption.
        destruct (Z.ltb_spec 0 (powerUps (stateRef w))); [reflexivity | lia].
      * right. split; [auto|].
        destruct (Z.ltb_spec 0 (powerUps (stateRef w))); [lia | reflexivity].
    + rewrite bool_decide_eq_false_2 by exact Hp. right. auto.
  - right. auto.
Qed.

Lemma step_powerUps (e : Event) (w w' : World) :
  step e w = Some w' -> powerUpChange e w w'.
Proof.
  destruct e as [time|key|key|iw ih|now|now|now| |text| |now]; cbn [step]; intros H.
  - unfold loop in H. case_bool_decide; [|simplify_eq; apply pu_same; reflexivity].
    apply steady_update in H. apply pu_same. rewrite (steady_powerUps _ _ H). reflexivity.
  - simplify_eq.
    destruct (handleKeyDown_cases key w) as [(-> & Hp & Hpos & ->)|(_ & ->)].
    + apply pu_pulsar; auto.
    + apply pu_same. reflexivity.
  - simplify_eq. apply pu_same. reflexivity.
  - simplify_eq. apply pu_same. unfold handleResize. case_match; reflexivity.
  - case_bool_decide; simplify_eq; [|apply pu_same; reflexivity].
    apply (pu_restart _ _ _ now); auto.
  - case_bool_decide; simplify_eq; [|apply pu_same; reflexivity].
    apply (pu_restart _ _ _ now); auto.
  - case_bool_decide; simplify_eq; apply pu_same; reflexivity.
  - case_bool_decide; simplify_eq; [|apply pu_same; reflexivity].
    unfold startChargeUp in H.
    destruct (makeChargeQuestion (levelIdx w) w) as [[q w1]|] eqn:E; [|discriminate].
    apply makeChargeQuestion_Some in E. simplify_eq. apply pu_same. reflexivity.
  - case_bool_decide; simplify_eq; apply pu_same; reflexivity.
  - case_bool_decide; simplify_eq; [|apply pu_same; reflexivity].
    destruct (handleMathSubmit_cases w) as [(_ & ->)|[(_ & _ & ->)|(_ & _ & ->)]];
      apply pu_same; reflexivity.
  - case_bool_decide as Hs; simplify_eq; [|apply pu_same; reflexivity].
    destruct (handleChargeSubmit_cases now w) as [(_ & E)|[(Hc & Hn & E)|(_ & _ & E)]];
      rewrite E in H; clear E.
    + simplify_eq. apply pu_same. reflexivity.
    + simplify_eq. apply strictEq_true in Hc as (x & Hx & ?). simplify_eq.
      apply (pu_charged _ _ _ now); auto.
    + destruct (makeChargeQuestion _ _) as [[q w1]|] eqn:E; [|discriminate].
      apply makeChargeQuestion_Some in E. simplify_eq. apply pu_same. reflexivity.
Qed.

Lemma step_wellFormed (e : Event) (w w' : World) :
  wellFormed w -> step e w = Some w' -> wellFormed w'.
Proof.
  intros Hw. pose proof Hw as [Hc Hp Hl Hn].
  destruct e as [time|key|key|iw ih|now|now|now| |text| |now]; cbn [step]; intros H.
  - unfold loop in H. case_bool_decide; [|simplify_eq; assumption].
    apply steady_update in H. eapply steady_wellFormed; [exact H|].
    split; assumption.
  - simplify_eq.
    destruct (handleKeyDown_cases key w) as [(-> & Hg & Hpos & ->)|(_ & ->)].
    + split; cbn; auto. lia.
    + split; assumption.
  - simplify_eq. split; assumption.
  - simplify_eq. unfold handleResize. case_match; split; assumption.
  - case_bool_decide; simplify_eq; [|assumption].
    split; cbn; [reflexivity | lia | lia | intros [?|?]; discriminate].
  - case_bool_decide; simplify_eq; [|assumption].
    split; cbn; [reflexivity | lia | lia | intros [?|?]; discriminate].
  - case_bool_decide; simplify_eq; [|assumption].
    split; cbn; [reflexivity | assumption | | intros [?|?]; discriminate].
    cbn in Hn. apply Hn. auto.
  - case_bool_decide; simplify_eq; [|assumption].
    unfold startChargeUp in H.
    destruct (makeChargeQuestion (levelIdx w) w) as [[q w1]|] eqn:E; [|discriminate].
    apply makeChargeQuestion_Some in E. simplify_eq.
    split; cbn; auto.
  - case_bool_decide; simplify_eq; [|assumption]. split; assumption.
  - case_bool_decide as Hs; simplify_eq; [|assumption].
    destruct (handleMathSubmit_cases w) as [(_ & ->)|[(_ & _ & ->)|(_ & _ & ->)]].
    + split; assumption.
    + split; cbn [stateRef levelIdx gameState setGameState]; auto.
      destruct (Nat.eqb_spec (levelIdx w) (length LEVELS - 1)).
      * intros [?|?]; discriminate.
      * intros _. lia.
    + split; assumption.
  - case_bool_decide as Hs; simplify_eq; [|assumption].
    destruct (handleChargeSubmit_cases now w) as [(_ & E)|[(_ & _ & E)|(_ & _ & E)]];
      rewrite E in H; clear E.
    + simplify_eq. split; assumption.
    + simplify_eq.
      split; cbn; [reflexivity | lia | | intros [?|?]; discriminate].
      cbn in Hn. apply Hn. auto.
    + destruct (makeChargeQuestion _ _) as [[q w1]|] eqn:E; [|discriminate].
      apply makeChargeQuestion_Some in E. simplify_eq. split; assumption.
Qed.

(** No event throws in a well-formed world. *)
Lemma step_total (e : Event) (w : World) :
  wellFormed w -> exists w', step e w = Some w'.
Proof.
  intros [Hc Hp Hl Hn].
  destruct e as [time|key|key|iw ih|now|now|now| |text| |now]; cbn [step];
    try (case_bool_decide; eauto; fail); eauto.
  - unfold loop. case_bool_decide; [|eauto]. apply update_total. exact Hl.
  - case_bool_decide; [|eauto]. unfold startChargeUp.
    destruct (makeChargeQuestion_world (levelIdx w) w Hl) as [q ->]. eauto.
  - case_bool_decide; [|eauto].
    destruct (handleChargeSubmit_cases now w) as [(_ & ->)|[(_ & _ & ->)|(_ & _ & ->)]];
      eauto.
    match goal with
    | |- context [makeChargeQuestion ?i ?v] =>
        destruct (makeChargeQuestion_world i v Hl) as [q ->]
    end.
    eauto.
Qed.

Lemma initStars_world (n : nat) (w : World) :
  exists k, (initStars n w).2 = set_drawn k w.
Proof.
  revert w. induction n as [|n IH]; intros w; cbn.
  - exists (drawn w). destruct w; reflexivity.
  - match goal with
    | |- context [initStars n ?v] =>
        destruct (IH v) as [k Hk]; destruct (initStars n v) as [r w']
    end.
    cbn in *. subst. exists k. reflexivity.
Qed.

Lemma initial_wellFormed (iw ih : Q) (rs : nat -> Q) : wellFormed (initial iw ih rs).
Proof.
  unfold initial.
  match goal with
  | |- context [initStars 100 ?v] =>
      destruct (initStars_world 100 v) as [k Hk]; destruct (initStars 100 v) as [ss w']
  end.
  cbn in Hk. subst.
  split; cbn; [reflexivity | lia | lia | intros [?|?]; discriminate].
Qed.

Lemma reachable_wellFormed (w : World) : reachable w -> wellFormed w.
Proof.
  induction 1 as [iw ih rs|e w w' _ IH Hs].
  - apply initial_wellFormed.
  - exact (step_wellFormed e w w' IH Hs).
Qed.

Lemma reachable_run (es : list Event) (w w' : World) :
  reachable w -> run es w = Some w' -> reachable w'.
Proof.
  revert w. induction es as [|e es IH]; intros w Hr H; cbn [run] in H.
  - simplify_eq. exact Hr.
  - destruct (step e w) as [w1|] eqn:E; [|discriminate].
    apply (IH w1); [|exact H]. exact (reachable_step e w w1 Hr E).
Qed.

(** From a reachable world every list of events runs to its end in the
    model, and ends in a reachable world. *)
Lemma reachable_run_total (es : list Event) (w : World) :
  reachable w -> exists w', run es w = Some w' /\ reachable w'.
Proof.
  revert w. induction es as [|e es IH]; intros w Hr; cbn [run].
  - exists w. split; [reflexivity | exact Hr].
  - destruct (step_total e w (reachable_wellFormed w Hr)) as [w1 E]. rewrite E.
    apply IH. exact (reachable_step e w w1 Hr E).
Qed.

(** No event throws in a reachable world. *)
Lemma reachable_step_total (e : Event) (w : World) :
  reachable w -> exists w', step e w = Some w'.
Proof. intros H. apply step_total, reachable_wellFormed, H. Qed.

(** ** Run progress *)

Lemma steady_collectAll (level : Level.t) (ns : list Z) (w : World) :
  steady w (collectAll level ns w).
Proof.
  unfold collectAll. revert w. induction ns as [|n ns IH]; intros w; cbn.
  - apply steady_refl.
  - eapply steady_trans; [apply steady_collectGem | apply IH].
Qed.

(** A collection that overshoots the target or falls below zero clears the
    run; on a level with a positive target it changes nothing else of the
    state machine. *)
Lemma collectGem_reset (level : Level.t) (n : Z) (w : World) :
  Level.targetNumerator level < currentNumerator (stateRef w) + n \/
  currentNumerator (stateRef w) + n < 0 ->
  cleared (stateRef (collectGem level n w)) /\
  (0 < Level.targetNumerator level ->
   gameState (collectGem level n w) = gameState w /\
   mathStep (collectGem level n w) = mathStep w /\
   levelIdx (collectGem level n w) = levelIdx w).
Proof.
  intros H. unfold collectGem.
  set (w2 := onState clampNegative (onState (accumulate n) w)).
  assert (Hacc : currentNumerator (accumulate n (stateRef w)) = currentNumerator (stateRef w) + n)
    by reflexivity.
  assert (H2 : cleared (stateRef w2) /\ currentNumerator (stateRef w) + n < 0 \/
               stateRef w2 = accumulate n (stateRef w) /\ 0 <= currentNumerator (stateRef w) + n).
  { destruct (clampNegative_core (accumulate n (stateRef w))) as [_ Hc].
    rewrite Hacc in Hc. exact Hc. }
  assert (Hg : gameState w2 = gameState w /\ mathStep w2 = mathStep w /\
               levelIdx w2 = levelIdx w) by (repeat split).
  clearbody w2.
  destruct (evaluate_cases level w2) as [(Hc & Hlen & ->)|[(Hc & Hlen & ->)|[(Hc & ->)|(Hc & ->)]]];
    cbn [stateRef setGameState setMathError setMathInput setMathStep set_stateRef gameState mathStep levelIdx].
  - destruct H2 as [[Hcl Hneg]|[Hs Hpos]].
    + split; [exact Hcl|]. intros Ht. destruct Hcl as [Hz _]. lia.
    + rewrite Hs, Hacc in Hc. lia.
  - destruct H2 as [[Hcl Hneg]|[Hs Hpos]].
    + destruct Hcl as [_ Hh]. rewrite Hh in Hlen. cbn in Hlen. lia.
    + rewrite Hs, Hacc in Hc. lia.
  - split; [split; reflexivity | intros _; exact Hg].
  - destruct H2 as [[Hcl Hneg]|[Hs Hpos]].
    + split; [exact Hcl | intros _; exact Hg].
    + rewrite Hs, Hacc in Hc. lia.
Qed.

(** C1. In every reachable world the numerator is the sum of the history,
    and it still is right after a gem's numerator has been added and
    appended, for any sequence of collections; each operation that resets
    the run (obstacle hit, overshoot, clamp at zero, game start, level
    start) sets the numerator to 0 and the history to empty together, so
    that no event leaves an empty history with a non-zero numerator. *)
Theorem numerator_tracks_history (w : World) (Hr : reachable w) :
  consistent (stateRef w) /\
  (forall level ns n,
     consistent (stateRef (collectAll level ns w)) /\
     consistent (accumulate n (stateRef (collectAll level ns w)))) /\
  (forall e w', step e w = Some w' ->
     consistent (stateRef w') /\
     (collectedHistory (stateRef w') = [] -> currentNumerator (stateRef w') = 0)) /\
  (forall s, cleared (obstacleHit s)) /\
  (forall n s, currentNumerator (accumulate n s) < 0 ->
     cleared (clampNegative (accumulate n s))) /\
  (forall level n w0,
     Level.targetNumerator level < currentNumerator (stateRef w0) + n ->
     cleared (stateRef (collectGem level n w0))) /\
  (forall level n w0,
     currentNumerator (stateRef w0) + n < 0 -> cleared (stateRef (collectGem level n w0))) /\
  (forall now w0, cleared (stateRef (startGame now w0))) /\
  (forall now w0, cleared (stateRef (nextLevel now w0))).
Proof.
  pose proof (reachable_wellFormed w Hr) as Hw.
  pose proof (wf_consistent w Hw) as Hc.
  split; [exact Hc|].
  split.
  { intros level ns n.
    pose proof (steady_consistent _ _ (steady_collectAll level ns w) Hc) as H.
    split; [exact H | apply accumulate_consistent, H]. }
  split.
  { intros e w' Hs.
    pose proof (wf_consistent w' (step_wellFormed e w w' Hw Hs)) as H.
    split; [exact H|]. intros Hh. unfold consistent in H. rewrite H, Hh. reflexivity. }
  split; [intros s; split; reflexivity|].
  split.
  { intros n s Hneg. destruct (clampNegative_core (accumulate n s)) as [_ [[H _]|[_ H]]].
    - exact H.
    - lia. }
  split; [intros level n w0 H; apply collectGem_reset; auto|].
  split; [intros level n w0 H; apply collectGem_reset; auto|].
  split; intros now w0; split; reflexivity.
Qed.

Lemma numerator_tracks_history_witness :
  let w := initial 800 600 (fun _ => (1 # 2)%Q) in
  reachable w /\
  consistent (accumulate 2 (stateRef (collectAll (Level.mk 2 4 4 1 (9 # 10)) [3; -1] w))).
Proof.
  intros w. split; [apply reachable_initial|].
  destruct (numerator_tracks_history w (reachable_initial _ _ _)) as (_ & H & _).
  exact (proj2 (H _ _ _)).
Defined.

(** C4. When the collection leaves the numerator equal to the target with at
    most one entry in the history, the game state becomes [game_complete] on
    the last catalog level and [level_complete] on any other, and never
    [math_challenge]; the math step and the run progress are left as they
    are. *)
Theorem single_collection_auto_advances (level : Level.t) (n : Z) (w : World)
  (Ht : currentNumerator (clampNegative (accumulate n (stateRef w))) = Level.targetNumerator level)
  (Hl : (length (collectedHistory (clampNegative (accumulate n (stateRef w)))) <= 1)%nat) :
  let w' := collectGem level n w in
  (levelIdx w = (length LEVELS - 1)%nat -> gameState w' = game_complete) /\
  (levelIdx w <> (length LEVELS - 1)%nat -> gameState w' = level_complete) /\
  gameState w' <> math_challenge /\
  mathStep w' = mathStep w /\
  stateRef w' = clampNegative (accumulate n (stateRef w)).
Proof.
  cbv zeta. unfold collectGem.
  set (w2 := onState clampNegative (onState (accumulate n) w)).
  change (clampNegative (accumulate n (stateRef w))) with (stateRef w2) in *.
  change (mathStep w) with (mathStep w2). change (levelIdx w) with (levelIdx w2).
  clearbody w2.
  destruct (evaluate_cases level w2) as [(_ & _ & ->)|[(_ & Hlen & _)|[(Hc & _)|(Hc & _)]]];
    try lia.
  cbn [gameState setGameState mathStep stateRef].
  destruct (Nat.eqb_spec (levelIdx w2) (length LEVELS - 1)) as [He|Hne].
  - repeat split; try discriminate; auto. intros; contradiction.
  - repeat split; try discriminate; auto. intros; contradiction.
Qed.

Lemma single_collection_auto_advances_witness :
  let w' := collectGem (Level.mk 1 3 3 1 (8 # 10)) 3 (playingAt 0) in
  gameState w' = level_complete /\ gameState w' <> math_challenge.
Proof.
  intros w'.
  destruct (single_collection_auto_advances (Level.mk 1 3 3 1 (8 # 10)) 3 (playingAt 0))
    as (_ & H & Hm & _).
  - reflexivity.
  - vm_compute. lia.
  - split; [apply H; vm_compute; discriminate | exact Hm].
Defined.

(** What one collection does when it overshoots or goes below zero (lines
    345-348, 364-369). On a catalog level it leaves the numerator at 0 and
    the history empty, and does not touch the game state: it leaves the one
    it finds, [playing] only if that was [playing]. *)
Theorem overshoot_and_underflow_reset (level : Level.t) (n : Z) (w : World)
  (Hlevel : LEVELS !! levelIdx w = Some level)
  (H : Level.targetNumerator level < currentNumerator (stateRef w) + n \/
       currentNumerator (stateRef w) + n < 0) :
  let w' := collectGem level n w in
  currentNumerator (stateRef w') = 0 /\
  collectedHistory (stateRef w') = [] /\
  gameState w' = gameState w /\
  (gameState w = playing -> gameState w' = playing).
Proof.
  cbv zeta.
  destruct (collectGem_reset level n w H) as [[Hc Hh] Hg].
  destruct (Hg (LEVELS_target_pos _ _ Hlevel)) as (Hs & _).
  repeat split; try assumption. intros Hp. rewrite Hs. exact Hp.
Qed.

Lemma overshoot_and_underflow_reset_witness :
  let level := Level.mk 2 4 4 1 (9 # 10) in
  let w := collectGem level 3 (playingAt 1) in
  (currentNumerator (stateRef w) = 3 /\ gameState w = playing) /\
  (let w' := collectGem level 2 w in
   currentNumerator (stateRef w') = 0 /\ collectedHistory (stateRef w') = [] /\ gameState w' = playing) /\
  (let w' := collectGem level (-4) w in
   currentNumerator (stateRef w') = 0 /\ collectedHistory (stateRef w') = [] /\ gameState w' = playing).
Proof.
  intros level w.
  assert (Hc : currentNumerator (stateRef w) = 3) by (vm_compute; reflexivity).
  assert (Hp : gameState w = playing) by (vm_compute; reflexivity).
  assert (Hl : LEVELS !! levelIdx w = Some level) by (vm_compute; reflexivity).
  split; [exact (conj Hc Hp)|]. split.
  - assert (H : Level.targetNumerator level < currentNumerator (stateRef w) + 2 \/
                currentNumerator (stateRef w) + 2 < 0)
      by (left; rewrite Hc; vm_compute; reflexivity).
    destruct (overshoot_and_underflow_reset level 2 w Hl H) as (H1 & H2 & _ & H4).
    exact (conj H1 (conj H2 (H4 Hp))).
  - assert (H : Level.targetNumerator level < currentNumerator (stateRef w) + -4 \/
                currentNumerator (stateRef w) + -4 < 0)
      by (right; rewrite Hc; vm_compute; reflexivity).
    destruct (overshoot_and_underflow_reset level (-4) w Hl H) as (H1 & H2 & _ & H4).
    exact (conj H1 (conj H2 (H4 Hp))).
Defined.

Lemma playDraws_unit (n : nat) : (0 <= playDraws n)%Q /\ (playDraws n < 1)%Q.
Proof.
  unfold playDraws.
  destruct (n <? 400)%nat; [split; [vm_compute; discriminate | reflexivity]|].
  generalize (n - 400)%nat. intros k.
  do 25 (destruct k as [|k]; [split; [vm_compute; discriminate | reflexivity]|]).
  destruct k; cbn [nth]; (split; [vm_compute; discriminate | reflexivity]).
Qed.

(** C5. The reset happens as the claim says, but the state does not always
    remain [playing]: the gem loop (lines 326-378) has no [break] and does
    not look at the game state, so a gem can be collected after another
    gem of the same frame has completed the target.

    The run: an 800 by 408 window, the draws of [playDraws], "Start Engine"
    at time 0 and 119 frames 50 ms apart, no key pressed. After 118 frames
    the game is in [playing] with numerator 2 of 3 and history [2]. In
    frame 119 two gems of +1 reach the fleet. The one at the higher index
    is collected first: the numerator is 3, the target, and the math
    challenge opens at step 1. The other one is collected next: the
    numerator 4 exceeds the target, numerator and history are reset and the
    flash is set, in [math_challenge], not in [playing]. The challenge is
    left with an empty history, for which no answer is expected. *)
Theorem overshoot_after_completion_is_not_playing :
  let level := Level.mk 1 3 3 1 (8 # 10) in
  (forall n, (0 <= playDraws n)%Q /\ (playDraws n < 1)%Q) /\
  exists w0 wb w gs,
    run (ClickStartEngine 0 :: frames 118) (initial 800 408 playDraws) = Some w0 /\
    reachable w0 /\ LEVELS !! levelIdx w0 = Some level /\
    (gameState w0 = playing /\ currentNumerator (stateRef w0) = 2 /\
     collectedHistory (stateRef w0) = [2]) /\
    step (Frame 5950) w0 = Some w /\
    w = onState (set_gems gs) (collectGem level 1 (collectGem level 1 wb)) /\
    (gameState wb = playing /\ currentNumerator (stateRef wb) = 2 /\
     collectedHistory (stateRef wb) = [2]) /\
    (gameState (collectGem level 1 wb) = math_challenge /\
     currentNumerator (stateRef (collectGem level 1 wb)) = 3 /\
     collectedHistory (stateRef (collectGem level 1 wb)) = [2; 1]) /\
    (Level.targetNumerator level < currentNumerator (stateRef (collectGem level 1 wb)) + 1) /\
    (gameState w = math_challenge /\ gameState w <> playing /\ mathStep w = 1%nat /\
     currentNumerator (stateRef w) = 0 /\ collectedHistory (stateRef w) = [] /\
     flashTimer (stateRef w) = 300%Q /\
     mathExpected (collectedHistory (stateRef w)) (mathStep w) = None).
Proof.
  intros level. split; [exact playDraws_unit|].
  destruct (reachable_run_total (ClickStartEngine 0 :: frames 118) (initial 800 408 playDraws)
              (reachable_initial _ _ _)) as (w0 & E0 & R0).
  pose proof E0 as V0. vm_compute in V0. injection V0 as V0.
  destruct (step_total (Frame 5950) w0 (reachable_wellFormed w0 R0)) as [w E].
  pose proof E as V. rewrite <- V0 in V. vm_compute in V. injection V as V.
  set (w1 := beforeCollisions level 800 408 50 (onState (set_lastTime 5950%Q) w0)).
  set (r := updateObstacles level 408 50 (obstacles (stateRef w1)) (stateRef w1)).
  set (wb := set_stateRef (set_obstacles r.1 r.2) w1).
  exists w0, wb, w, (gems (stateRef w)).
  split; [exact E0|]. split; [exact R0|].
  split; [rewrite <- V0; reflexivity|].
  split; [rewrite <- V0; repeat split|].
  split; [exact E|].
  assert (Vb : exists b, b = wb) by (exists wb; reflexivity).
  destruct Vb as [b Vb]. pose proof Vb as Vb'.
  subst wb r w1. rewrite <- V0 in Vb'. vm_compute in Vb'.
  rewrite <- Vb. clear Vb. subst b.
  split; [rewrite <- V; vm_compute; reflexivity|].
  split; [repeat split|].
  split; [vm_compute; repeat split|].
  split; [vm_compute; reflexivity|].
  rewrite <- V. repeat split; discriminate.
Qed.

(** ** The math challenge *)

Lemma mathExpected_in_range (history : list Z) (s : nat) :
  (s < length history)%nat ->
  exists g, history !! s = Some g /\
            mathExpected history s = Some (sum (take s history) + g) /\
            mathExpected history s = Some (sum (take (S s) history)).
Proof.
  intros H. apply lookup_lt_is_Some_2 in H as [g Hg].
  exists g. unfold mathExpected. rewrite Hg. cbn.
  rewrite (sum_take_S _ _ _ Hg). auto.
Qed.

Lemma confirmMath_correct (w : World) :
  gameState w = math_challenge ->
  strictEq (parseInt (mathInput w))
    (mathExpected (collectedHistory (stateRef w)) (mathStep w)) = true ->
  ((mathStep w + 1 < length (collectedHistory (stateRef w)))%nat ->
   step ConfirmMath w =
     Some (setMathError false (setMathInput "" (setMathStep (mathStep w + 1)%nat w)))) /\
  ((length (collectedHistory (stateRef w)) <= mathStep w + 1)%nat ->
   step ConfirmMath w =
     Some (setGameState (if (levelIdx w =? length LEVELS - 1)%nat
                         then game_complete else level_complete) w)).
Proof.
  intros Hg Hc. cbn [step]. rewrite bool_decide_eq_true_2 by exact Hg.
  destruct (handleMathSubmit_cases w) as [(E & _)|[(_ & Hl & ->)|(_ & Hl & ->)]].
  - rewrite Hc in E. discriminate.
  - split; [lia | reflexivity].
  - split; [reflexivity | lia].
Qed.

Lemma changeInput_enabled (text : string) (w : World) :
  gameState w = math_challenge \/ gameState w = charge_up ->
  step (ChangeInput text) w = Some (handleInputChange text w).
Proof. intros H. cbn [step]. rewrite bool_decide_eq_true_2 by exact H. reflexivity. Qed.

(** Answering every remaining step correctly completes the challenge. *)
Lemma answerMath_completes (texts : list string) (w : World) :
  gameState w = math_challenge ->
  (mathStep w < length (collectedHistory (stateRef w)))%nat ->
  Forall2 (correctAt (collectedHistory (stateRef w))) texts
    (seq (mathStep w) (length (collectedHistory (stateRef w)) - mathStep w)) ->
  exists w',
    run (answerMath texts) w = Some w' /\
    gameState w' = (if (levelIdx w =? length LEVELS - 1)%nat
                    then game_complete else level_complete) /\
    stateRef w' = stateRef w /\ levelIdx w' = levelIdx w.
Proof.
  revert w. induction texts as [|t ts IH]; intros w Hg Hlt Hall.
  - apply Forall2_nil_inv_l in Hall.
    destruct (length (collectedHistory (stateRef w)) - mathStep w)%nat eqn:E; [lia | discriminate].
  - destruct (length (collectedHistory (stateRef w)) - mathStep w)%nat as [|m] eqn:E; [lia|].
    cbn [seq] in Hall. apply Forall2_cons_1 in Hall as [Ht Hts].
    cbn [answerMath run]. rewrite (changeInput_enabled t w) by (left; exact Hg).
    set (w1 := handleInputChange t w).
    assert (Hc1 : strictEq (parseInt (mathInput w1))
                    (mathExpected (collectedHistory (stateRef w1)) (mathStep w1)) = true)
      by exact Ht.
    destruct (confirmMath_correct w1 Hg Hc1) as [Hadv Hdone].
    destruct (Nat.le_gt_cases (length (collectedHistory (stateRef w))) (mathStep w + 1)) as [Hle|Hgt].
    + rewrite (Hdone Hle).
      assert (m = 0)%nat by lia. subst m. apply Forall2_nil_inv_r in Hts. subst ts.
      cbn [answerMath run]. eexists. split; [reflexivity|]. repeat split.
    + rewrite (Hadv Hgt).
      set (w2 := setMathError false (setMathInput "" (setMathStep (mathStep w1 + 1)%nat w1))).
      destruct (IH w2) as (w' & Hrun & Hgs & Hst & Hli).
      * exact Hg.
      * cbn. lia.
      * change (collectedHistory (stateRef w2)) with (collectedHistory (stateRef w)).
        change (mathStep w2) with (mathStep w + 1)%nat.
        replace (mathStep w + 1)%nat with (S (mathStep w)) by lia.
        replace (length (collectedHistory (stateRef w)) - S (mathStep w))%nat with m by lia.
        exact Hts.
      * exists w'. split; [exact Hrun|]. split; [exact Hgs|]. split; assumption.
Qed.

(** C2. In the challenge over a history [g0, ..., gk] with [k >= 1], at
    every step [s] from 1 to [k] the expected answer is
    [sum (g0 .. g_{s-1}) + g_s]; a correct submission at a step [s < k]
    stores step [s + 1] and stays in the challenge, and a correct submission
    at step [k], where the next step would be [k + 1], completes it: the
    game state becomes [game_complete] on the last catalog level and
    [level_complete] otherwise. Entering the challenge sets the step to 1,
    and answering the steps [s .. k] correctly in turn completes it. *)
Theorem math_challenge_protocol (w : World) (k s : nat)
  (Hg : gameState w = math_challenge)
  (Hk : length (collectedHistory (stateRef w)) = S k)
  (Hs : (1 <= s <= k)%nat)
  (Hm : mathStep w = s) :
  let history := collectedHistory (stateRef w) in
  let done := if (levelIdx w =? length LEVELS - 1)%nat
              then game_complete else level_complete in
  (exists g, history !! s = Some g /\
             mathExpected history s = Some (sum (take s history) + g)) /\
  (correctAt history (mathInput w) s ->
   ((s < k)%nat ->
    step ConfirmMath w =
      Some (setMathError false (setMathInput "" (setMathStep (s + 1)%nat w)))) /\
   (s = k -> step ConfirmMath w = Some (setGameState done w))) /\
  (forall texts,
     Forall2 (correctAt history) texts (seq s (S k - s)) ->
     exists w', run (answerMath texts) w = Some w' /\
                gameState w' = done /\ stateRef w' = stateRef w /\ levelIdx w' = levelIdx w) /\
  (forall level w0,
     currentNumerator (stateRef w0) = Level.targetNumerator level ->
     (1 < length (collectedHistory (stateRef w0)))%nat ->
     gameState (evaluate level w0) = math_challenge /\
     mathStep (evaluate level w0) = 1%nat /\
     stateRef (evaluate level w0) = stateRef w0).
Proof.
  cbv zeta. split; [|split; [|split]].
  - destruct (mathExpected_in_range (collectedHistory (stateRef w)) s) as (g & H1 & H2 & _);
      [lia | eauto].
  - intros Hc. unfold correctAt in Hc. rewrite <- Hm in Hc.
    destruct (confirmMath_correct w Hg Hc) as [Hadv Hdone].
    rewrite Hm, Hk in Hadv, Hdone.
    split; [intros; apply Hadv; lia | intros; apply Hdone; lia].
  - intros texts Hall. apply answerMath_completes; [exact Hg | lia |].
    rewrite Hm, Hk. exact Hall.
  - intros level w0 Hc Hl.
    destruct (evaluate_cases level w0) as [(_ & ? & _)|[(_ & _ & ->)|[(? & _)|(? & _)]]];
      try lia.
    repeat split.
Qed.

Lemma math_challenge_protocol_witness :
  let w := setGameState math_challenge
             (setMathStep 1%nat
                (onState (set_collectedHistory [1; 1; 1]) (playingAt 0))) in
  exists w', run (answerMath ["2"; "3"]) w = Some w' /\ gameState w' = level_complete.
Proof.
  intros w.
  destruct (math_challenge_protocol w 2 1) as (_ & _ & H & _).
  - reflexivity.
  - reflexivity.
  - lia.
  - reflexivity.
  - destruct (H ["2"; "3"]) as (w' & Hrun & Hgs & _).
    + repeat constructor.
    + exists w'. split; [exact Hrun | exact Hgs].
Defined.

(** C3, as stated, fails: after collecting 3, -1 and 2 on the level whose
    target is 4 the game is in the math challenge, but its steps 1, 2, 3 do
    not expect 3, 2, 4. Step 1 expects 2, step 2 expects 4, and there is no
    step 3. *)
Lemma history_3_m1_2_not_three_steps :
  ~ (let w := collectAll (Level.mk 2 4 4 1 (9 # 10)) [3; -1; 2] (playingAt 1) in
     gameState w = math_challenge /\
     map (mathExpected (collectedHistory (stateRef w))) [1; 2; 3]%nat =
       [Some 3; Some 2; Some 4]).
Proof.
  cbv zeta. intros [_ H]. vm_compute in H. discriminate.
Qed.

(** C3, amended. From an empty run on a level whose target is 4, collecting
    3, -1 and 2 leaves the history [3; -1; 2] and enters the math challenge
    at step 1. The challenge has two steps: step 1 expects 2 (= 3 + -1) and
    step 2 expects 4 (= 2 + 2); the answer 3 is refused at step 1, and after
    the answers 2 and 4 the challenge is complete. *)
Theorem history_3_m1_2_challenge (level : Level.t) (w : World)
  (Ht : Level.targetNumerator level = 4)
  (Hc : currentNumerator (stateRef w) = 0)
  (Hh : collectedHistory (stateRef w) = []) :
  let w' := collectAll level [3; -1; 2] w in
  let done := if (levelIdx w =? length LEVELS - 1)%nat
              then game_complete else level_complete in
  gameState w' = math_challenge /\
  mathStep w' = 1%nat /\
  collectedHistory (stateRef w') = [3; -1; 2] /\
  currentNumerator (stateRef w') = 4 /\
  map (mathExpected (collectedHistory (stateRef w'))) [1; 2; 3]%nat = [Some 2; Some 4; None] /\
  run [ChangeInput "3"; ConfirmMath] w' =
    Some (setMathError true (handleInputChange "3" w')) /\
  exists w'', run (answerMath ["2"; "4"]) w' = Some w'' /\ gameState w'' = done.
Proof.
  cbv zeta.
  assert (E : collectAll level [3; -1; 2] w =
              setGameState math_challenge
                (setMathError false
                   (setMathInput ""
                      (setMathStep 1%nat
                         (onState (fun s => set_collectedHistory [3; -1; 2]
                                              (set_currentNumerator 4 s)) w))))).
  { destruct level as [i d t ns sm]. cbn in Ht. subst t.
    destruct w as [gs li ms mi me cp cq [sx sy cn g o ss sw ch ks lt gt ot ft bt bs pu] cv iw ih rs dr].
    cbn in Hc, Hh. subst cn ch. reflexivity. }
  rewrite E. clear E.
  set (w1 := setGameState math_challenge _).
  assert (Hg : gameState w1 = math_challenge) by reflexivity.
  split; [reflexivity|]. split; [reflexivity|]. split; [reflexivity|].
  split; [reflexivity|]. split; [reflexivity|]. split.
  - cbn [run]. rewrite (changeInput_enabled "3" w1) by (left; exact Hg).
    cbn [step]. rewrite bool_decide_eq_true_2 by exact Hg. reflexivity.
  - destruct (answerMath_completes ["2"; "4"] w1 Hg) as (w'' & Hrun & Hgs & _).
    + cbn. lia.
    + repeat constructor.
    + exists w''. split; [exact Hrun | exact Hgs].
Qed.

Lemma history_3_m1_2_challenge_witness :
  let w' := collectAll (Level.mk 2 4 4 1 (9 # 10)) [3; -1; 2] (playingAt 1) in
  gameState w' = math_challenge /\
  map (mathExpected (collectedHistory (stateRef w'))) [1; 2; 3]%nat = [Some 2; Some 4; None] /\
  exists w'', run (answerMath ["2"; "4"]) w' = Some w'' /\ gameState w'' = level_complete.
Proof.
  intros w'.
  destruct (history_3_m1_2_challenge (Level.mk 2 4 4 1 (9 # 10)) (playingAt 1))
    as (H1 & _ & _ & _ & H5 & _ & H7).
  - reflexivity.
  - reflexivity.
  - reflexivity.
  - exact (conj H1 (conj H5 H7)).
Defined.

(** ** Charge-up *)

(** A correct answer before the third: the streak grows by one, the count
    of power-ups and the level stay, and the drill goes on. *)
Lemma answerCharge_progress (text : string) (now : Q) (w : World) :
  gameState w = charge_up -> (levelIdx w < length LEVELS)%nat ->
  (chargeProgress w + 1 < 3)%nat -> correctCharge text w ->
  exists w', run (answerCharge text now) w = Some w' /\
             gameState w' = charge_up /\
             chargeProgress w' = (chargeProgress w + 1)%nat /\
             levelIdx w' = levelIdx w /\
             stateRef w' = stateRef w.
Proof.
  intros Hg Hl Hp Hc. unfold answerCharge. cbn [run].
  rewrite (changeInput_enabled text w) by (right; exact Hg).
  set (w1 := handleInputChange text w).
  cbn [step]. rewrite bool_decide_eq_true_2 by exact Hg.
  destruct (handleChargeSubmit_cases now w1) as [(E & _)|[(_ & Hn & _)|(_ & _ & ->)]].
  - unfold correctCharge in Hc. cbn in E. rewrite Hc in E. cbn in E.
    rewrite Z.eqb_refl in E. discriminate.
  - cbn in Hn. lia.
  - match goal with
    | |- context [makeChargeQuestion ?i ?v] =>
        destruct (makeChargeQuestion_world i v Hl) as [q ->]
    end.
    eexists. split; [reflexivity|]. repeat split. exact Hg.
Qed.

(** The third correct answer: one power-up is credited and the next level
    starts. *)
Lemma answerCharge_complete (text : string) (now : Q) (w : World) :
  gameState w = charge_up -> (3 <= chargeProgress w + 1)%nat -> correctCharge text w ->
  run (answerCharge text now) w =
    Some (nextLevel now
            (onState (fun s => set_powerUps (powerUps s + 1) s)
               (handleInputChange text w))).
Proof.
  intros Hg Hp Hc. unfold answerCharge. cbn [run].
  rewrite (changeInput_enabled text w) by (right; exact Hg).
  set (w1 := handleInputChange text w).
  cbn [step]. rewrite bool_decide_eq_true_2 by exact Hg.
  destruct (handleChargeSubmit_cases now w1) as [(E & _)|[(_ & _ & ->)|(_ & Hn & _)]].
  - unfold correctCharge in Hc. cbn in E. rewrite Hc in E. cbn in E.
    rewrite Z.eqb_refl in E. discriminate.
  - reflexivity.
  - cbn in Hn. lia.
Qed.

(** C6. From a charge-up with no progress, on a catalog level: a correct
    answer leads to a second question, a correct answer to that one leads to
    a third, and a correct answer to the third ends the drill in [playing]
    at the next level index with the power-up count raised by exactly one.
    The count does not move before the third answer. *)
Theorem charge_up_streak (w : World) (t1 t2 t3 : string) (now1 now2 now3 : Q)
  (Hg : gameState w = charge_up)
  (Hl : (levelIdx w < length LEVELS)%nat)
  (Hp : chargeProgress w = 0%nat)
  (H1 : correctCharge t1 w) :
  exists w1,
    run (answerCharge t1 now1) w = Some w1 /\
    gameState w1 = charge_up /\ chargeProgress w1 = 1%nat /\
    powerUps (stateRef w1) = powerUps (stateRef w) /\
    (correctCharge t2 w1 ->
     exists w2,
       run (answerCharge t2 now2) w1 = Some w2 /\
       gameState w2 = charge_up /\ chargeProgress w2 = 2%nat /\
       powerUps (stateRef w2) = powerUps (stateRef w) /\
       (correctCharge t3 w2 ->
        exists w3,
          run (answerCharge t3 now3) w2 = Some w3 /\
          gameState w3 = playing /\
          levelIdx w3 = (levelIdx w + 1)%nat /\
          powerUps (stateRef w3) = powerUps (stateRef w) + 1)).
Proof.
  destruct (answerCharge_progress t1 now1 w Hg Hl) as (w1 & R1 & G1 & P1 & L1 & S1);
    [lia | exact H1 |].
  exists w1. rewrite Hp in P1. cbn in P1.
  split; [exact R1|]. split; [exact G1|]. split; [exact P1|].
  split; [rewrite S1; reflexivity|].
  intros H2.
  destruct (answerCharge_progress t2 now2 w1 G1) as (w2 & R2 & G2 & P2 & L2 & S2);
    [lia | lia | exact H2 |].
  exists w2. rewrite P1 in P2. cbn in P2.
  split; [exact R2|]. split; [exact G2|]. split; [exact P2|].
  split; [rewrite S2, S1; reflexivity|].
  intros H3.
  eexists. split; [apply answerCharge_complete; [exact G2 | lia | exact H3]|].
  cbn. rewrite S2, S1, L2, L1. repeat split.
Qed.

Lemma charge_up_streak_witness :
  let w := setGameState charge_up (playingAt 0) in
  exists w1 w2 w3,
    run (answerCharge "2" 0) w = Some w1 /\
    run (answerCharge "2" 0) w1 = Some w2 /\
    run (answerCharge "2" 0) w2 = Some w3 /\
    gameState w3 = playing /\ levelIdx w3 = 1%nat /\ powerUps (stateRef w3) = 1.
Proof.
  intros w.
  destruct (charge_up_streak w "2" "2" "2" 0 0 0) as (w1 & R1 & _ & _ & _ & K1).
  - reflexivity.
  - vm_compute. lia.
  - reflexivity.
  - reflexivity.
  - pose proof R1 as E1. vm_compute in E1. injection E1 as <-.
    destruct K1 as (w2 & R2 & _ & _ & _ & K2); [vm_compute; reflexivity|].
    pose proof R2 as E2. vm_compute in E2. injection E2 as <-.
    destruct K2 as (w3 & R3 & G3 & L3 & P3); [vm_compute; reflexivity|].
    eexists _, _, w3.
    split; [exact R1|]. split; [exact R2|]. split; [exact R3|].
    split; [exact G3|]. split; [exact L3 | exact P3].
Defined.

(** ** Wrong answers *)

Example parseInt_digits : parseInt "12" = Some 12.
Proof. reflexivity. Qed.

Example parseInt_signed : parseInt " -7" = Some (-7).
Proof. reflexivity. Qed.

Example parseInt_prefix : parseInt "3.9" = Some 3.
Proof. reflexivity. Qed.

Example parseInt_letters : parseInt "abc" = None.
Proof. reflexivity. Qed.

Example parseInt_empty : parseInt "" = None.
Proof. reflexivity. Qed.

(** C7. In either sub-game the submitted text is read with [parseInt]; when
    it is not a number, or not the expected one, the submission returns
    normally and only raises the error flag: the math step, the history and
    the rest of the simulation record, the charge progress, the question,
    the level and the game state are those of before. *)
Theorem wrong_answer_only_flags_error (w : World) (now : Q) :
  (parseInt (mathInput w) = None \/
   parseInt (mathInput w) <> mathExpected (collectedHistory (stateRef w)) (mathStep w) ->
   handleMathSubmit w = setMathError true w /\
   (gameState w = math_challenge -> step ConfirmMath w = Some (setMathError true w))) /\
  (parseInt (mathInput w) = None \/
   parseInt (mathInput w) <> Some (chargeExpected (chargeQuestion w)) ->
   handleChargeSubmit now w = Some (setMathError true w) /\
   (gameState w = charge_up -> step (ConfirmCharge now) w = Some (setMathError true w))) /\
  (let w' := setMathError true w in
   mathError w' = true /\
   mathStep w' = mathStep w /\ stateRef w' = stateRef w /\
   chargeProgress w' = chargeProgress w /\ chargeQuestion w' = chargeQuestion w /\
   gameState w' = gameState w /\ levelIdx w' = levelIdx w /\
   mathInput w' = mathInput w).
Proof.
  split; [|split].
  - intros H. apply strictEq_false in H.
    assert (E : handleMathSubmit w = setMathError true w).
    { destruct (handleMathSubmit_cases w) as [(_ & E)|[(E & _)|(E & _)]];
        [exact E | rewrite H in E; discriminate | rewrite H in E; discriminate]. }
    split; [exact E|]. intros Hg. cbn [step].
    rewrite bool_decide_eq_true_2 by exact Hg. rewrite E. reflexivity.
  - intros H. apply strictEq_false in H.
    assert (E : handleChargeSubmit now w = Some (setMathError true w)).
    { destruct (handleChargeSubmit_cases now w) as [(_ & E)|[(E & _)|(E & _)]];
        [exact E | rewrite H in E; discriminate | rewrite H in E; discriminate]. }
    split; [exact E|]. intros Hg. cbn [step].
    rewrite bool_decide_eq_true_2 by exact Hg. exact E.
  - cbv zeta. repeat split.
Qed.

Lemma wrong_answer_only_flags_error_witness :
  let w := handleInputChange "3"
             (collectAll (Level.mk 2 4 4 1 (9 # 10)) [3; -1; 2] (playingAt 1)) in
  let q := setGameState charge_up (handleInputChange "abc" (playingAt 0)) in
  step ConfirmMath w = Some (setMathError true w) /\
  step (ConfirmCharge 0) q = Some (setMathError true q).
Proof.
  intros w q. split.
  - destruct (wrong_answer_only_flags_error w 0) as ((_ & H) & _).
    + right. vm_compute. discriminate.
    + apply H. reflexivity.
  - destruct (wrong_answer_only_flags_error q 0) as (_ & H & _).
    destruct H as [_ H].
    + left. reflexivity.
    + apply H. reflexivity.
Defined.

(** ** The frame callback *)

(** C9. Outside [playing] the frame callback changes nothing: no entity
    moves, nothing spawns, no timer runs. In [playing] it records the time
    and runs [update] with the time elapsed since the recorded one, or with
    50 when more than 50 ms have elapsed. *)
Theorem frame_tick (time : Q) (w : World) :
  (gameState w <> playing ->
   loop time w = Some w /\ step (Frame time) w = Some w) /\
  (gameState w = playing ->
   exists dt,
     loop time w = update dt (onState (set_lastTime time) w) /\
     (dt <= 50)%Q /\
     ((time - lastTime (stateRef w) <= 50)%Q -> dt = (time - lastTime (stateRef w))%Q) /\
     ((50 < time - lastTime (stateRef w))%Q -> dt = 50%Q)).
Proof.
  split.
  - intros H. cbn [step]. unfold loop.
    rewrite bool_decide_eq_false_2 by exact H. split; reflexivity.
  - intros H. unfold loop. rewrite bool_decide_eq_true_2 by exact H. cbv zeta.
    destruct (Qgtb (time - lastTime (stateRef w)) 50) eqn:E.
    + apply Qgtb_true in E. exists 50%Q.
      split; [reflexivity|]. split; [apply Qle_refl|].
      split; [|reflexivity].
      intros Hle. exfalso. exact (Qlt_not_le _ _ E Hle).
    + apply Qgtb_false in E. eexists.
      split; [reflexivity|]. split; [exact E|].
      split; [reflexivity|].
      intros Hlt. exfalso. exact (Qlt_not_le _ _ Hlt E).
Qed.

Lemma frame_tick_witness :
  let w := collectAll (Level.mk 2 4 4 1 (9 # 10)) [3; -1; 2] (playingAt 1) in
  step (Frame 1000) w = Some w /\
  exists dt, loop 1000 (playingAt 1) =
               update dt (onState (set_lastTime 1000%Q) (playingAt 1)) /\
             dt = 50%Q.
Proof.
  intros w. split.
  - destruct (frame_tick 1000 w) as [H _].
    apply H. vm_compute. discriminate.
  - destruct (frame_tick 1000 (playingAt 1)) as [_ H].
    destruct H as (dt & Hl & _ & _ & Hd); [reflexivity|].
    exists dt. split; [exact Hl|]. apply Hd. vm_compute. reflexivity.
Defined.

(** ** Power-ups *)

(** C8, as stated, fails: an operation other than the Pulsar lowers the
    count. With two power-ups in hand at [game_complete], "Play Again" runs
    [startGame], which sets the count to 0. *)
Lemma play_again_discards_power_ups :
  ~ (let w := setGameState game_complete (onState (set_powerUps 2) (playingAt 10)) in
     forall w', step (ClickPlayAgain 0) w = Some w' ->
                powerUps (stateRef w) <= powerUps (stateRef w')).
Proof.
  cbv zeta. intros H.
  specialize (H _ eq_refl). vm_compute in H. apply H. reflexivity.
Qed.

(** C8, amended. In every reachable world the power-up count is a
    non-negative integer. An event raises it only as the third correct
    charge-up answer, and then by exactly 1. An event lowers it only as the
    Pulsar key in [playing], by exactly 1, or as a restart of the game
    ([startGame], from the start screen or "Play Again"), which sets it to 0.
    The Pulsar key with a count of 0 leaves the count, the obstacles and the
    shockwaves as they are. *)
Theorem power_up_count_changes (e : Event) (w w' : World)
  (Hr : reachable w) (Hs : step e w = Some w') :
  0 <= powerUps (stateRef w) /\ 0 <= powerUps (stateRef w') /\
  (powerUps (stateRef w) < powerUps (stateRef w') ->
   exists now,
     e = ConfirmCharge now /\ gameState w = charge_up /\
     correctCharge (mathInput w) w /\ (3 <= chargeProgress w + 1)%nat /\
     powerUps (stateRef w') = powerUps (stateRef w) + 1) /\
  (powerUps (stateRef w') < powerUps (stateRef w) ->
   (e = KeyDown " " /\ gameState w = playing /\
    powerUps (stateRef w') = powerUps (stateRef w) - 1) \/
   (exists now,
      (e = ClickStartEngine now /\ gameState w = start \/
       e = ClickPlayAgain now /\ gameState w = game_complete) /\
      w' = startGame now w /\ powerUps (stateRef w') = 0)) /\
  (e = KeyDown " " -> powerUps (stateRef w) = 0 ->
   powerUps (stateRef w') = 0 /\ obstacles (stateRef w') = obstacles (stateRef w) /\
   shockwaves (stateRef w') = shockwaves (stateRef w)).
Proof.
  pose proof (reachable_wellFormed w Hr) as Hw.
  pose proof (wf_powerUps w Hw) as H0.
  pose proof (wf_powerUps w' (step_wellFormed e w w' Hw Hs)) as H0'.
  split; [exact H0|]. split; [exact H0'|].
  pose proof (step_powerUps e w w' Hs) as Hc.
  split; [|split].
  - intros Hlt. destruct Hc as [E|_ _ _ E _|now _ _ E|now He Hg Hp Hn E _]; try lia.
    exists now. auto.
  - intros Hlt. destruct Hc as [E|He Hg _ E _|now He Hw' E|now _ _ _ _ E _]; try lia.
    + left. auto.
    + right. exists now. auto.
  - intros -> Hz. cbn [step] in Hs. simplify_eq.
    destruct (handleKeyDown_cases " " w) as [(_ & _ & Hpos & _)|(_ & ->)]; [lia|].
    cbn. auto.
Qed.

Lemma power_up_count_changes_witness :
  exists w1 w2 w3 w4,
    run (ClickStartEngine 0 :: KeyDown "w" :: frames 67 ++
         [KeyUp "w"; ChangeInput "3"; ConfirmMath; ClickChargeUp;
          ChangeInput "3"; ConfirmCharge 4000; ChangeInput "1"; ConfirmCharge 4000;
          ChangeInput "2"])
        (initial 800 408 playDraws) = Some w1 /\
    step (ConfirmCharge 4000) w1 = Some w2 /\
    step (KeyDown " ") w2 = Some w3 /\
    step (KeyDown " ") w3 = Some w4 /\
    (powerUps (stateRef w1) = 0 /\ powerUps (stateRef w2) = 1 /\
     powerUps (stateRef w3) = 0 /\ powerUps (stateRef w4) = 0) /\
    (gameState w1 = charge_up /\ correctCharge (mathInput w1) w1 /\
     (3 <= chargeProgress w1 + 1)%nat) /\
    gameState w2 = playing /\
    (obstacles (stateRef w4) = obstacles (stateRef w3) /\
     shockwaves (stateRef w4) = shockwaves (stateRef w3)).
Proof.
  destruct (reachable_run_total
              (ClickStartEngine 0 :: KeyDown "w" :: frames 67 ++
               [KeyUp "w"; ChangeInput "3"; ConfirmMath; ClickChargeUp;
                ChangeInput "3"; ConfirmCharge 4000; ChangeInput "1"; ConfirmCharge 4000;
                ChangeInput "2"])
              (initial 800 408 playDraws) (reachable_initial _ _ _)) as (w1 & E1 & R1).
  pose proof E1 as V1. vm_compute in V1. injection V1 as V1.
  destruct (step_total (ConfirmCharge 4000) w1 (reachable_wellFormed w1 R1)) as [w2 E2].
  pose proof E2 as V2. rewrite <- V1 in V2. vm_compute in V2. injection V2 as V2.
  pose proof (reachable_step _ _ _ R1 E2) as R2.
  destruct (step_total (KeyDown " ") w2 (reachable_wellFormed w2 R2)) as [w3 E3].
  pose proof E3 as V3. rewrite <- V2 in V3. vm_compute in V3. injection V3 as V3.
  pose proof (reachable_step _ _ _ R2 E3) as R3.
  destruct (step_total (KeyDown " ") w3 (reachable_wellFormed w3 R3)) as [w4 E4].
  assert (P1 : powerUps (stateRef w1) = 0) by (rewrite <- V1; reflexivity).
  assert (P2 : powerUps (stateRef w2) = 1) by (rewrite <- V2; reflexivity).
  assert (P3 : powerUps (stateRef w3) = 0) by (rewrite <- V3; reflexivity).
  destruct (power_up_count_changes (ConfirmCharge 4000) w1 w2 R1 E2) as (_ & _ & Up & _).
  destruct Up as (now & _ & G1 & C1 & N1 & _); [lia|].
  destruct (power_up_count_changes (KeyDown " ") w2 w3 R2 E3) as (_ & _ & _ & Down & _).
  destruct Down as [(_ & G2 & _)|(now' & [[He _]|[He _]] & _)]; [lia| |discriminate|discriminate].
  destruct (power_up_count_changes (KeyDown " ") w3 w4 R3 E4) as (_ & _ & _ & _ & Noop).
  destruct (Noop eq_refl P3) as (P4 & O4 & S4).
  exists w1, w2, w3, w4.
  split; [exact E1|]. split; [exact E2|]. split; [exact E3|]. split; [exact E4|].
  split; [exact (conj P1 (conj P2 (conj P3 P4)))|].
  split; [exact (conj G1 (conj C1 N1))|].
  split; [exact G2|]. exact (conj O4 S4).
Defined.

(** C10. [nextLevel], which "Continue to Next Level" and the completed
    charge-up both run, empties the run progress, the gems, the obstacles
    and the shockwaves, puts the ship back at its starting position, moves
    to the next level index and leaves the power-up count as it is; after a
    charge-up that is the count just credited. [startGame] sets the count to
    0. An event that takes a positive count to 0 is either the Pulsar key
    using the last power-up or a restart from the start screen or from
    [game_complete]. *)
Theorem next_level_keeps_power_ups (now : Q) (w : World) :
  (let w' := nextLevel now w in
   currentNumerator (stateRef w') = 0 /\ collectedHistory (stateRef w') = [] /\
   gems (stateRef w') = [] /\ obstacles (stateRef w') = [] /\ shockwaves (stateRef w') = [] /\
   shipX (stateRef w') = (innerWidth w / 2)%Q /\ shipY (stateRef w') = (innerHeight w - 80)%Q /\
   powerUps (stateRef w') = powerUps (stateRef w) /\
   levelIdx w' = (levelIdx w + 1)%nat /\ gameState w' = playing) /\
  (gameState w = level_complete ->
   step (ClickContinue now) w = Some (nextLevel now w)) /\
  (gameState w = charge_up -> (3 <= chargeProgress w + 1)%nat ->
   correctCharge (mathInput w) w ->
   exists w', step (ConfirmCharge now) w = Some w' /\
              powerUps (stateRef w') = powerUps (stateRef w) + 1 /\
              levelIdx w' = (levelIdx w + 1)%nat /\ gameState w' = playing) /\
  (powerUps (stateRef (startGame now w)) = 0 /\
   levelIdx (startGame now w) = 0%nat /\ gameState (startGame now w) = playing) /\
  (forall e w', step e w = Some w' ->
     0 < powerUps (stateRef w) -> powerUps (stateRef w') = 0 ->
     (e = KeyDown " " /\ gameState w = playing /\ powerUps (stateRef w) = 1) \/
     (exists t,
        (e = ClickStartEngine t /\ gameState w = start \/
         e = ClickPlayAgain t /\ gameState w = game_complete) /\
        w' = startGame t w)).
Proof.
  split; [cbv zeta; repeat split|].
  split.
  { intros Hg. cbn [step]. rewrite bool_decide_eq_true_2 by exact Hg. reflexivity. }
  split.
  { intros Hg Hp Hc. cbn [step]. rewrite bool_decide_eq_true_2 by exact Hg.
    destruct (handleChargeSubmit_cases now w) as [(E & _)|[(_ & _ & ->)|(_ & Hn & _)]].
    - unfold correctCharge in Hc. rewrite Hc in E. cbn in E.
      rewrite Z.eqb_refl in E. discriminate.
    - eexists. split; [reflexivity|]. repeat split.
    - lia. }
  split; [repeat split|].
  intros e w' Hs Hpos Hz.
  destruct (step_powerUps e w w' Hs) as [E|He Hg _ E _|t He Hw' E|t _ _ _ _ E _]; try lia.
  - left. repeat split; [exact He | exact Hg | lia].
  - right. exists t. auto.
Qed.

Lemma next_level_keeps_power_ups_witness :
  let w := setGameState level_complete (onState (set_powerUps 2) (playingAt 3)) in
  exists w', step (ClickContinue 0) w = Some w' /\
             powerUps (stateRef w') = 2 /\ levelIdx w' = 4%nat /\ gameState w' = playing.
Proof.
  intros w.
  destruct (next_level_keeps_power_ups 0 w) as (H1 & H2 & _).
  exists (nextLevel 0 w). split; [apply H2; reflexivity|].
  cbv zeta in H1. destruct H1 as (_ & _ & _ & _ & _ & _ & _ & Hp & Hl & Hg).
  split; [exact Hp|]. split; [exact Hl | exact Hg].
Defined.

(** * Further properties of the code *)

(** ** Numbers shown and numbers read *)

Lemma parseDigits_digit (c : ascii) (v a : Z) (s : string) :
  digitValue c = Some v -> v < 10 ->
  parseDigits 10 (String c s) (Some a) = parseDigits 10 s (Some (a * 10 + v)).
Proof. intros H Hv. cbn [parseDigits]. rewrite H. destruct (Z.ltb_spec v 10); [reflexivity | lia]. Qed.

Lemma append_String (c : ascii) (s t : string) : String c s +:+ t = String c (s +:+ t).
Proof. reflexivity. Qed.

Lemma parseDigits_uint (d d' : Decimal.uint) (tail : string) :
  parseDigits 10 (DecimalString.NilEmpty.string_of_uint d +:+ tail)
    (Some (Z.of_N (DecimalPos.Unsigned.of_lu d'))) =
  parseDigits 10 tail (Some (Z.of_N (DecimalPos.Unsigned.of_lu (Decimal.revapp d d')))).
Proof.
  revert d'. induction d as [|d IH|d IH|d IH|d IH|d IH|d IH|d IH|d IH|d IH|d IH];
    intros d'; [reflexivity|..];
    simpl DecimalString.NilEmpty.string_of_uint; rewrite append_String;
    match goal with
     | |- context [parseDigits 10 (String ?c ?s) (Some ?a)] =>
         rewrite (parseDigits_digit c (Z.of_nat (nat_of_ascii c - 48)) a s eq_refl eq_refl)
     end;
    simpl Decimal.revapp; rewrite <- IH; f_equal; f_equal;
    cbn [DecimalPos.Unsigned.of_lu];
    match goal with
    | |- context [Z.of_nat ?n] =>
        let v := eval vm_compute in (Z.of_nat n) in change (Z.of_nat n) with v
    end; lia.
Qed.

Lemma parseDigits_end (tail : string) (acc : option Z) :
  endsNumber tail -> parseDigits 10 tail acc = acc.
Proof.
  destruct tail as [|c tail]; [reflexivity|]. cbn [endsNumber parseDigits].
  destruct (digitValue c) as [v|]; [|reflexivity].
  intros H. destruct (Z.ltb_spec v 10); [lia | reflexivity].
Qed.

Lemma parseDigits_first (c : ascii) (v : Z) (s : string) :
  digitValue c = Some v -> v < 10 ->
  parseDigits 10 (String c s) None = parseDigits 10 s (Some v).
Proof.
  intros H Hv. cbn [parseDigits]. rewrite H.
  destruct (Z.ltb_spec v 10); [reflexivity | lia].
Qed.

Ltac read_first_digit :=
  match goal with
  | |- context [parseDigits 10 (String ?c ?s) None] =>
      rewrite (parseDigits_first c (Z.of_nat (nat_of_ascii c - 48)) s eq_refl eq_refl);
      match goal with
      | |- context [Z.of_nat ?n] =>
          let v := eval vm_compute in (Z.of_nat n) in change (Z.of_nat n) with v
      end
  end.

Ltac expose_digits :=
  cbv -[parseDigits Z.mul Z.opp Z.of_N DecimalPos.Unsigned.of_lu Decimal.revapp
        String.append DecimalString.NilEmpty.string_of_uint].

Ltac read_more_digits :=
  match goal with
  | |- context [parseDigits 10 (_ +:+ _) (Some ?a)] =>
      match goal with
      | |- context [Decimal.revapp ?d ?d'] =>
          change (Some a) with (Some (Z.of_N (DecimalPos.Unsigned.of_lu d')));
          rewrite parseDigits_uint, parseDigits_end by assumption
      end
  end.

Lemma parseInt_zero_then (tail : string) :
  endsNumber tail ->
  (forall r, tail <> String "x" r /\ tail <> String "X" r) ->
  parseInt (String "0" tail) = Some 0 /\ parseInt (String "-" (String "0" tail)) = Some 0.
Proof.
  intros Ht Hx. destruct tail as [|c t]; [split; reflexivity|].
  destruct (Hx t) as [H1 H2].
  destruct c as [[] [] [] [] [] [] [] []];
    try (exfalso; cbv in Ht; congruence);
    try (exfalso; congruence);
    split; reflexivity.
Qed.

Lemma parseInt_digits_of (d : Decimal.uint) (tail : string) :
  d <> Decimal.Nil -> endsNumber tail ->
  (d = Decimal.D0 Decimal.Nil ->
   forall r, tail <> String "x" r /\ tail <> String "X" r) ->
  parseInt (DecimalString.NilEmpty.string_of_uint d +:+ tail) = Some (Z.of_N (Pos.of_uint d)) /\
  parseInt (String "-" (DecimalString.NilEmpty.string_of_uint d +:+ tail)) = Some (- Z.of_N (Pos.of_uint d)).
Proof.
  intros Hd Ht Hx. rewrite DecimalPos.Unsigned.of_uint_alt. unfold Decimal.rev.
  destruct d as [|d|d|d|d|d|d|d|d|d|d]; [congruence|..].
  2-10: (simpl DecimalString.NilEmpty.string_of_uint; rewrite append_String;
         simpl Decimal.revapp; split; expose_digits; read_first_digit;
         read_more_digits; f_equal; lia).
  destruct d as [|d|d|d|d|d|d|d|d|d|d];
    [apply (parseInt_zero_then tail Ht (Hx eq_refl))|..];
    simpl DecimalString.NilEmpty.string_of_uint; rewrite !append_String;
    simpl Decimal.revapp; split; expose_digits; read_first_digit;
    match goal with
    | |- context [parseDigits 10 (String ?c ?s) (Some ?a)] =>
        rewrite (parseDigits_digit c (Z.of_nat (nat_of_ascii c - 48)) a s eq_refl eq_refl)
    end;
    read_more_digits; f_equal; lia.
Qed.

Lemma parseInt_toString_then (z : Z) (tail : string) :
  endsNumber tail ->
  (z = 0 -> forall r, tail <> String "x" r /\ tail <> String "X" r) ->
  parseInt (toString z +:+ tail) = Some z.
Proof.
  intros Ht Hx. unfold toString. destruct z as [|p|p]; cbn [Z.to_int DecimalString.NilZero.string_of_int].
  - apply (parseInt_zero_then tail Ht (Hx eq_refl)).
  - pose proof (DecimalPos.Unsigned.to_uint_nonnil p) as Hn.
    pose proof (DecimalPos.Unsigned.to_uint_nonzero p) as Hz.
    unfold DecimalString.NilZero.string_of_uint.
    destruct (parseInt_digits_of (Pos.to_uint p) tail Hn Ht) as [H _].
    { intros E. exfalso. apply Hz. exact E. }
    rewrite DecimalPos.Unsigned.of_to in H.
    destruct (Pos.to_uint p); [congruence|..]; exact H.
  - pose proof (DecimalPos.Unsigned.to_uint_nonnil p) as Hn.
    pose proof (DecimalPos.Unsigned.to_uint_nonzero p) as Hz.
    unfold DecimalString.NilZero.string_of_uint.
    destruct (parseInt_digits_of (Pos.to_uint p) tail Hn Ht) as [_ H].
    { intros E. exfalso. apply Hz. exact E. }
    rewrite DecimalPos.Unsigned.of_to in H.
    destruct (Pos.to_uint p); [congruence|..]; exact H.
Qed.

Lemma parseInt_toString (z : Z) : parseInt (toString z) = Some z.
Proof.
  pose proof (parseInt_toString_then z "" I) as H.
  assert (E : toString z +:+ "" = toString z).
  { generalize (toString z). intros s. induction s as [|c s IH]; [reflexivity|].
    rewrite append_String, IH. reflexivity. }
  rewrite E in H. apply H. intros _ r. split; discriminate.
Qed.

Lemma parseInt_skips_blank (c : ascii) (s : string) :
  isWhiteSpace c = true -> parseInt (String c s) = parseInt s.
Proof. intros H. unfold parseInt. cbn [trimStart]. rewrite H. reflexivity. Qed.

(** X1. An answer is read by its integer prefix: the digits of the expected
    number, followed by any text that does not start with a digit (and, after
    a lone 0, not with x or X, which would make it a hexadecimal literal),
    are accepted at that step, with or without a blank in front: "3.9" and
    " 3abc" pass for 3. *)
Theorem answer_is_read_by_its_integer_prefix (w : World) (e : Z) (tail : string)
  (He : mathExpected (collectedHistory (stateRef w)) (mathStep w) = Some e)
  (Ht : endsNumber tail)
  (Hx : e = 0 -> forall r, tail <> String "x" r /\ tail <> String "X" r)
  (Hi : mathInput w = toString e +:+ tail \/
        mathInput w = String " " (toString e +:+ tail)) :
  parseInt (mathInput w) = Some e /\
  ((length (collectedHistory (stateRef w)) <= mathStep w + 1)%nat ->
   handleMathSubmit w =
     setGameState (if (levelIdx w =? length LEVELS - 1)%nat
                   then game_complete else level_complete) w) /\
  ((mathStep w + 1 < length (collectedHistory (stateRef w)))%nat ->
   handleMathSubmit w =
     setMathError false (setMathInput "" (setMathStep (mathStep w + 1)%nat w))).
Proof.
  assert (Hp : parseInt (mathInput w) = Some e).
  { destruct Hi as [-> | ->].
    - apply parseInt_toString_then; assumption.
    - rewrite parseInt_skips_blank by reflexivity.
      apply parseInt_toString_then; assumption. }
  split; [exact Hp|].
  destruct (handleMathSubmit_cases w) as [(E & _)|[(_ & Hl & ->)|(_ & Hl & ->)]].
  - rewrite Hp, He in E. cbn in E. rewrite Z.eqb_refl in E. discriminate.
  - split; [reflexivity | lia].
  - split; [lia | reflexivity].
Qed.

Lemma answer_is_read_by_its_integer_prefix_witness :
  let w := handleInputChange "3.9"
             (setGameState math_challenge
                (setMathStep 1%nat
                   (onState (set_collectedHistory [1; 2]) (playingAt 0)))) in
  handleMathSubmit w = setGameState level_complete w.
Proof.
  intros w.
  destruct (answer_is_read_by_its_integer_prefix w 3 ".9") as (_ & H & _).
  - reflexivity.
  - exact I.
  - intros E. discriminate E.
  - left. reflexivity.
  - apply H. vm_compute. lia.
Defined.

(** ** Completing, and not completing, the math challenge *)

Lemma mathAnswers_correct (history : list Z) (s n : nat) :
  (s + n <= length history)%nat ->
  Forall2 (correctAt history) (mathAnswers history s n) (seq s n).
Proof.
  unfold mathAnswers. revert s. induction n as [|n IH]; intros s H; cbn [seq map].
  - constructor.
  - constructor; [|apply IH; lia].
    unfold correctAt.
    destruct (mathExpected_in_range history s) as (g & _ & _ & E); [lia|].
    rewrite E, parseInt_toString. cbn. apply Z.eqb_refl.
Qed.

(** X2. A math challenge whose step is inside the history can always be
    completed: typing the running sums of the remaining steps, one per
    step, ends it in [level_complete] ([game_complete] on the last level)
    with the simulation record untouched. This is the case whenever the
    challenge is entered from a collection, at step 1 of a history of at
    least two gems. *)
Theorem math_challenge_can_be_completed (w : World)
  (Hg : gameState w = math_challenge)
  (Hs : (mathStep w < length (collectedHistory (stateRef w)))%nat) :
  let history := collectedHistory (stateRef w) in
  let texts := mathAnswers history (mathStep w) (length history - mathStep w) in
  length texts = (length history - mathStep w)%nat /\
  exists w',
    run (answerMath texts) w = Some w' /\
    gameState w' = (if (levelIdx w =? length LEVELS - 1)%nat
                    then game_complete else level_complete) /\
    stateRef w' = stateRef w /\ levelIdx w' = levelIdx w.
Proof.
  cbv zeta. split.
  - unfold mathAnswers. rewrite length_map, length_seq. reflexivity.
  - apply answerMath_completes; [exact Hg | exact Hs |].
    apply mathAnswers_correct. lia.
Qed.

Lemma math_challenge_can_be_completed_witness :
  let w := collectAll (Level.mk 2 4 4 1 (9 # 10)) [3; -1; 2] (playingAt 1) in
  mathAnswers (collectedHistory (stateRef w)) 1 2 = ["2"; "4"] /\
  exists w', run (answerMath ["2"; "4"]) w = Some w' /\ gameState w' = level_complete.
Proof.
  intros w. split; [reflexivity|].
  destruct (math_challenge_can_be_completed w) as (_ & w' & Hr & Hg & _).
  - reflexivity.
  - vm_compute. lia.
  - exists w'. split; [exact Hr | exact Hg].
Defined.

(** In the math challenge only a confirmed answer that is accepted changes
    the game state, the step or the history. *)
Lemma math_challenge_step (e : Event) (w : World) :
  gameState w = math_challenge ->
  exists w', step e w = Some w' /\
    (e <> ConfirmMath ->
     gameState w' = math_challenge /\ mathStep w' = mathStep w /\
     collectedHistory (stateRef w') = collectedHistory (stateRef w) /\
     levelIdx w' = levelIdx w).
Proof.
  intros Hg.
  destruct e as [time|key|key|iw ih|now|now|now| |text| |now]; cbn [step].
  - unfold loop. rewrite bool_decide_eq_false_2 by (rewrite Hg; discriminate).
    eexists. split; [reflexivity|]. auto.
  - eexists. split; [reflexivity|]. intros _.
    destruct (handleKeyDown_cases key w) as [(_ & Hp & _)|(_ & ->)].
    + rewrite Hg in Hp. discriminate.
    + cbn. auto.
  - eexists. split; [reflexivity|]. cbn. auto.
  - eexists. split; [reflexivity|]. unfold handleResize. case_match; cbn; auto.
  - rewrite bool_decide_eq_false_2 by (rewrite Hg; discriminate).
    exists w. split; [reflexivity|]. auto.
  - rewrite bool_decide_eq_false_2 by (rewrite Hg; discriminate).
    exists w. split; [reflexivity|]. auto.
  - rewrite bool_decide_eq_false_2 by (rewrite Hg; discriminate).
    exists w. split; [reflexivity|]. auto.
  - rewrite bool_decide_eq_false_2 by (rewrite Hg; discriminate).
    exists w. split; [reflexivity|]. auto.
  - rewrite bool_decide_eq_true_2 by (left; exact Hg).
    eexists. split; [reflexivity|]. cbn. auto.
  - rewrite bool_decide_eq_true_2 by exact Hg.
    eexists. split; [reflexivity|]. intros H. contradiction.
  - rewrite bool_decide_eq_false_2 by (rewrite Hg; discriminate).
    exists w. split; [reflexivity|]. auto.
Qed.

(** X3. A math challenge whose step is at or past the end of the history
    (an empty history included) cannot be left: the expected answer is
    [NaN], every submission is refused, and whatever the events the game
    stays in [math_challenge] with the same step and history. *)
Theorem math_challenge_past_the_end_is_stuck (es : list Event) (w : World)
  (Hg : gameState w = math_challenge)
  (Hs : (length (collectedHistory (stateRef w)) <= mathStep w)%nat) :
  mathExpected (collectedHistory (stateRef w)) (mathStep w) = None /\
  exists w',
    run es w = Some w' /\
    gameState w' = math_challenge /\ mathStep w' = mathStep w /\
    collectedHistory (stateRef w') = collectedHistory (stateRef w).
Proof.
  assert (Hnone : forall v, (length (collectedHistory (stateRef v)) <= mathStep v)%nat ->
                    mathExpected (collectedHistory (stateRef v)) (mathStep v) = None).
  { intros v Hv. unfold mathExpected. rewrite lookup_ge_None_2 by exact Hv. reflexivity. }
  split; [apply Hnone, Hs|].
  revert w Hg Hs. induction es as [|e es IH]; intros w Hg Hs; cbn [run].
  - eauto.
  - destruct (math_challenge_step e w Hg) as (w1 & E & H1). rewrite E.
    assert (H : gameState w1 = math_challenge /\ mathStep w1 = mathStep w /\
                collectedHistory (stateRef w1) = collectedHistory (stateRef w)).
    { assert (Hd : e = ConfirmMath \/ e <> ConfirmMath)
        by (destruct e; first [left; reflexivity | right; discriminate]).
      destruct Hd as [->|Hne].
      - cbn [step] in E. rewrite bool_decide_eq_true_2 in E by exact Hg.
        destruct (handleMathSubmit_cases w) as [(_ & Ew)|[(Ec & _)|(Ec & _)]].
        + rewrite Ew in E. simplify_eq. cbn. auto.
        + rewrite (Hnone w Hs) in Ec. destruct (parseInt (mathInput w)); discriminate.
        + rewrite (Hnone w Hs) in Ec. destruct (parseInt (mathInput w)); discriminate.
      - destruct (H1 Hne) as (? & ? & ? & _). auto. }
    destruct H as (Hg1 & Hm1 & Hh1).
    destruct (IH w1 Hg1) as (w' & Hr & Hg' & Hm' & Hh'); [rewrite Hh1, Hm1; exact Hs|].
    exists w'. rewrite Hr. repeat split; congruence.
Qed.

Lemma math_challenge_past_the_end_is_stuck_witness :
  let w0 := onState (set_gems [Gem.mk 0 400 500 2 2 32; Gem.mk 0 410 500 1 2 32])
              (collectGem (Level.mk 2 4 4 1 (9 # 10)) 3 (playingAt 1)) in
  exists w,
    step (Frame 16) w0 = Some w /\
    collectedHistory (stateRef w) = [] /\
    exists w',
      run [ChangeInput "4"; ConfirmMath; ChangeInput "0"; ConfirmMath;
           KeyDown " "; Frame 32] w = Some w' /\
      gameState w' = math_challenge.
Proof.
  intros w0.
  destruct (step (Frame 16) w0) as [w|] eqn:E; [|vm_compute in E; discriminate].
  exists w. split; [reflexivity|].
  assert (Hg : gameState w = math_challenge /\ mathStep w = 1%nat /\
               collectedHistory (stateRef w) = []).
  { vm_compute in E. injection E as <-. repeat split. }
  destruct Hg as (Hg & Hm & Hh). split; [exact Hh|].
  destruct (math_challenge_past_the_end_is_stuck
              [ChangeInput "4"; ConfirmMath; ChangeInput "0"; ConfirmMath;
               KeyDown " "; Frame 32] w Hg) as (_ & w' & Hr & Hg' & _).
  - rewrite Hh, Hm. cbn. lia.
  - exists w'. split; [exact Hr | exact Hg'].
Defined.

(** ** Wrong attempts *)

Lemma run_app (es1 es2 : list Event) (w : World) :
  run (es1 ++ es2) w =
  match run es1 w with
  | Some w1 => run es2 w1
  | None => None
  end.
Proof.
  revert w. induction es1 as [|e es1 IH]; intros w; cbn [run app]; [reflexivity|].
  destruct (step e w); [apply IH | reflexivity].
Qed.

Lemma handleInputChange_overrides (t b : string) (w : World) :
  handleInputChange t (setMathError true (handleInputChange b w)) = handleInputChange t w.
Proof. reflexivity. Qed.

Lemma handleInputChange_state (t : string) (w : World) :
  gameState (handleInputChange t w) = gameState w /\
  mathStep (handleInputChange t w) = mathStep w /\
  stateRef (handleInputChange t w) = stateRef w /\
  chargeQuestion (handleInputChange t w) = chargeQuestion w /\
  mathInput (handleInputChange t w) = t.
Proof. repeat split. Qed.

Lemma math_attempts_refused (bads : list string) (t : string) (w : World) :
  gameState w = math_challenge ->
  Forall (fun b => strictEq (parseInt b)
                     (mathExpected (collectedHistory (stateRef w)) (mathStep w)) = false) bads ->
  run (answerMath bads ++ [ChangeInput t]) w = Some (handleInputChange t w).
Proof.
  intros Hg Hb. revert w Hg Hb. induction bads as [|b bs IH]; intros w Hg Hb.
  - cbn [answerMath app run].
    rewrite (changeInput_enabled t w) by (left; exact Hg). reflexivity.
  - apply Forall_cons_1 in Hb as [Hbad Hbs].
    cbn [answerMath app run].
    rewrite (changeInput_enabled b w) by (left; exact Hg).
    cbn [step]. rewrite bool_decide_eq_true_2 by exact Hg.
    destruct (handleMathSubmit_cases (handleInputChange b w)) as [(_ & ->)|[(E & _)|(E & _)]].
    + rewrite (IH (setMathError true (handleInputChange b w))); [|exact Hg|exact Hbs].
      rewrite handleInputChange_overrides. reflexivity.
    + cbn in E. rewrite Hbad in E. discriminate.
    + cbn in E. rewrite Hbad in E. discriminate.
Qed.

Lemma charge_attempts_refused (bads : list string) (t : string) (now : Q) (w : World) :
  gameState w = charge_up ->
  Forall (fun b => strictEq (parseInt b)
                     (Some (chargeExpected (chargeQuestion w))) = false) bads ->
  run (chargeAttempts bads now ++ [ChangeInput t]) w = Some (handleInputChange t w).
Proof.
  intros Hg Hb. revert w Hg Hb. induction bads as [|b bs IH]; intros w Hg Hb.
  - cbn [chargeAttempts map concat app run].
    rewrite (changeInput_enabled t w) by (right; exact Hg). reflexivity.
  - apply Forall_cons_1 in Hb as [Hbad Hbs].
    change (chargeAttempts (b :: bs) now ++ [ChangeInput t])
      with (ChangeInput b :: ConfirmCharge now :: (chargeAttempts bs now ++ [ChangeInput t])).
    cbn [run].
    rewrite (changeInput_enabled b w) by (right; exact Hg).
    cbn [step]. rewrite bool_decide_eq_true_2 by exact Hg.
    destruct (handleChargeSubmit_cases now (handleInputChange b w)) as [(_ & ->)|[(E & _)|(E & _)]].
    + rewrite (IH (setMathError true (handleInputChange b w))); [|exact Hg|exact Hbs].
      rewrite handleInputChange_overrides. reflexivity.
    + cbn in E. rewrite Hbad in E. discriminate.
    + cbn in E. rewrite Hbad in E. discriminate.
Qed.

(** X4. Wrong attempts leave no trace. In the math challenge, after any
    number of refused submissions, typing a text puts the game in the very
    world that typing it at once would have: the step, the history, the
    question and all the rest are as if no attempt had been made. The same
    holds in the charge-up, where the question is not replaced either. *)
Theorem wrong_attempts_leave_no_trace (bads : list string) (t : string) (now : Q) (w : World) :
  (gameState w = math_challenge ->
   Forall (fun b => strictEq (parseInt b)
                      (mathExpected (collectedHistory (stateRef w)) (mathStep w)) = false) bads ->
   run (answerMath bads ++ [ChangeInput t]) w = Some (handleInputChange t w)) /\
  (gameState w = charge_up ->
   Forall (fun b => strictEq (parseInt b)
                      (Some (chargeExpected (chargeQuestion w))) = false) bads ->
   run (chargeAttempts bads now ++ [ChangeInput t]) w = Some (handleInputChange t w)).
Proof.
  split.
  - apply math_attempts_refused.
  - apply charge_attempts_refused.
Qed.

Lemma wrong_attempts_leave_no_trace_witness :
  let w := collectAll (Level.mk 2 4 4 1 (9 # 10)) [3; -1; 2] (playingAt 1) in
  run (answerMath ["3"; "abc"; ""] ++ [ChangeInput "2"]) w = Some (handleInputChange "2" w).
Proof.
  intros w.
  destruct (wrong_attempts_leave_no_trace ["3"; "abc"; ""] "2" 0 w) as [H _].
  apply H; [reflexivity|]. repeat constructor.
Defined.

(** ** Random draws *)

(** [Math.floor] of a rational between 0 and an integer bound. *)
Lemma Math_floor_bounds (x : Q) (m : Z) :
  (0 <= x)%Q -> (x < inject_Z m)%Q -> 0 <= Math_floor x < m.
Proof.
  intros H0 Hm. unfold Math_floor.
  pose proof (Qfloor_le x) as Hl. pose proof (Qlt_floor x) as Hu.
  split.
  - assert (H : (inject_Z 0 < inject_Z (Qfloor x + 1))%Q)
      by (eapply Qle_lt_trans; [exact H0 | exact Hu]).
    rewrite <- Zlt_Qlt in H. lia.
  - assert (H : (inject_Z (Qfloor x) < inject_Z m)%Q)
      by (eapply Qle_lt_trans; [exact Hl | exact Hm]).
    rewrite <- Zlt_Qlt in H. exact H.
Qed.

Lemma scaled_draw_bounds (r : Q) (m : Z) :
  (0 <= r)%Q -> (r < 1)%Q -> 0 < m ->
  (0 <= r * ofZ m)%Q /\ (r * ofZ m < inject_Z m)%Q.
Proof.
  intros H0 H1 Hm. unfold ofZ.
  assert (Hq : (0 < inject_Z m)%Q) by (rewrite (Zlt_Qlt 0 m) in Hm; exact Hm).
  split.
  - apply Qmult_le_0_compat; [exact H0 | apply Qlt_le_weak, Hq].
  - apply (Qlt_le_trans _ (1 * inject_Z m)%Q).
    + apply Qmult_lt_compat_r; assumption.
    + rewrite Qmult_1_l. apply Qle_refl.
Qed.

Lemma LEVELS_denominator (i : nat) (level : Level.t) :
  LEVELS !! i = Some level ->
  3 <= Level.denominator level /\
  Level.targetNumerator level = Level.numShips level * Level.denominator level /\
  0 < Level.numShips level /\ Level.id level = Z.of_nat i + 1.
Proof.
  intros H.
  do 11 (destruct i as [|i]; [cbn in H; simplify_eq; cbn; lia|]).
  discriminate.
Qed.

(** X5. A spawned gem is well formed. With draws in [0, 1) and a
    denominator of at least 2, the numerator is never 0 and its magnitude is
    between 1 and denominator - 1; it is negative exactly when the first
    draw is below 0.3. The gem starts above the field, at y = -40 with
    radius 32, horizontally between 40 and width - 40 on a canvas at least
    80 wide, and five draws are used. *)
Theorem spawned_gem_is_well_formed (level : Level.t) (cw : Q) (w : World)
  (Hd : 2 <= Level.denominator level)
  (Hr : forall n, (0 <= randoms w n)%Q /\ (randoms w n < 1)%Q)
  (Hcw : (80 <= cw)%Q) :
  let g := (spawnGem level cw w).1 in
  1 <= Z.abs (Gem.numerator g) <= Level.denominator level - 1 /\
  (Gem.numerator g < 0 <-> (randoms w (drawn w) < 3 # 10)%Q) /\
  Gem.y g = (-40)%Q /\ Gem.radius g = 32%Q /\
  (40 <= Gem.x g)%Q /\ (Gem.x g <= cw - 40)%Q /\
  drawn (spawnGem level cw w).2 = (drawn w + 5)%nat.
Proof.
  cbv zeta. unfold spawnGem, Math_random. cbn [fst snd drawn set_drawn randoms].
  set (r0 := randoms w (drawn w)). set (r1 := randoms w (S (drawn w))).
  set (rx := randoms w (S (S (S (drawn w))))).
  destruct (Hr (S (drawn w))) as [H0 H1]. fold r1 in H0, H1.
  destruct (scaled_draw_bounds r1 (Level.denominator level - 1) H0 H1) as [Hs0 Hs1]; [lia|].
  pose proof (Math_floor_bounds _ _ Hs0 Hs1) as Hf.
  set (f := Math_floor (r1 * ofZ (Level.denominator level - 1))) in *.
  assert (Hneg : Qltb r0 (3 # 10) = true <-> (r0 < 3 # 10)%Q) by apply (Qgtb_true (3 # 10) r0).
  split; [destruct (Qltb r0 (3 # 10)); cbn [Gem.numerator]; lia|].
  split.
  { destruct (Qltb r0 (3 # 10)) eqn:E; cbn [Gem.numerator].
    - split; [intros _; apply Hneg; reflexivity | lia].
    - split; [lia|]. intros H. apply Hneg in H. discriminate. }
  split; [reflexivity|]. split; [reflexivity|].
  cbn [Gem.x]. destruct (Hr (S (S (S (drawn w))))) as [Hx0 Hx1]. fold rx in Hx0, Hx1.
  split; [|split].
  - assert (0 <= rx * (cw - 80))%Q by (apply Qmult_le_0_compat; lra). lra.
  - assert (rx * (cw - 80) <= 1 * (cw - 80))%Q
      by (apply Qmult_le_compat_r; lra).
    lra.
  - lia.
Qed.

Lemma spawned_gem_is_well_formed_witness :
  let g := (spawnGem (Level.mk 2 4 4 1 (9 # 10)) 800 (playingAt 1)).1 in
  1 <= Z.abs (Gem.numerator g) <= 3 /\ Gem.y g = (-40)%Q.
Proof.
  intros g.
  destruct (spawned_gem_is_well_formed (Level.mk 2 4 4 1 (9 # 10)) 800 (playingAt 1))
    as (H1 & _ & H3 & _).
  - cbn. lia.
  - intros n. split; [vm_compute; discriminate | vm_compute; reflexivity].
  - vm_compute. discriminate.
  - split; [exact H1 | exact H3].
Defined.

(** X6. A charge-up question is well formed. On a catalog level, with draws
    in [0, 1): the first operand is between 1 and twice the denominator, the
    second between 1 and the denominator; a subtraction never has the larger
    operand second, so the expected answer is never negative (and at most
    three times the denominator); three draws are used. *)
Theorem charge_question_is_well_formed (i : nat) (level : Level.t) (w : World)
  (Hl : LEVELS !! i = Some level)
  (Hr : forall n, (0 <= randoms w n)%Q /\ (randoms w n < 1)%Q) :
  exists q w',
    makeChargeQuestion i w = Some (q, w') /\
    ChargeQuestion.d q = Level.denominator level /\
    1 <= ChargeQuestion.n1 q <= 2 * Level.denominator level /\
    1 <= ChargeQuestion.n2 q <= Level.denominator level /\
    (ChargeQuestion.op q = Minus -> ChargeQuestion.n2 q <= ChargeQuestion.n1 q) /\
    0 <= chargeExpected q <= 3 * Level.denominator level /\
    w' = set_drawn (3 + drawn w) w.
Proof.
  destruct (LEVELS_denominator i level Hl) as (Hd & _).
  unfold makeChargeQuestion. rewrite Hl. unfold Math_random.
  cbn [fst snd drawn set_drawn randoms].
  set (r1 := randoms w (drawn w)). set (r2 := randoms w (S (drawn w))).
  set (r3 := randoms w (S (S (drawn w)))).
  destruct (Hr (drawn w)) as [A0 A1]. fold r1 in A0, A1.
  destruct (Hr (S (drawn w))) as [B0 B1]. fold r2 in B0, B1.
  destruct (scaled_draw_bounds r1 (Level.denominator level) A0 A1) as [S0 S1]; [lia|].
  destruct (scaled_draw_bounds r2 (Level.denominator level) B0 B1) as [T0 T1]; [lia|].
  assert (F1 : 0 <= Math_floor (r1 * ofZ (Level.denominator level) * 2)
                 < 2 * Level.denominator level).
  { apply Math_floor_bounds.
    - lra.
    - rewrite inject_Z_mult. change (inject_Z 2) with 2%Q. lra. }
  pose proof (Math_floor_bounds _ _ T0 T1) as F2.
  set (f1 := Math_floor (r1 * ofZ (Level.denominator level) * 2)) in *.
  set (f2 := Math_floor (r2 * ofZ (Level.denominator level))) in *.
  clearbody f1 f2.
  destruct (Qgtb r3 (1 # 2)).
  - eexists _, _. split; [reflexivity|]. unfold chargeExpected.
      cbn [ChargeQuestion.n1 ChargeQuestion.n2 ChargeQuestion.op ChargeQuestion.d].
    repeat split; try lia; try discriminate.
  - destruct (Z.ltb_spec (f1 + 1) (f2 + 1)).
    + eexists _, _. split; [reflexivity|]. unfold chargeExpected.
      cbn [ChargeQuestion.n1 ChargeQuestion.n2 ChargeQuestion.op ChargeQuestion.d].
      repeat split; lia.
    + eexists _, _. split; [reflexivity|]. unfold chargeExpected.
      cbn [ChargeQuestion.n1 ChargeQuestion.n2 ChargeQuestion.op ChargeQuestion.d].
      repeat split; lia.
Qed.

Lemma charge_question_is_well_formed_witness :
  exists q w',
    makeChargeQuestion 0 (playingAt 0) = Some (q, w') /\
    0 <= chargeExpected q <= 9.
Proof.
  destruct (charge_question_is_well_formed 0 (Level.mk 1 3 3 1 (8 # 10)) (playingAt 0))
    as (q & w' & H & _ & _ & _ & _ & He & _).
  - reflexivity.
  - intros n. split; [vm_compute; discriminate | vm_compute; reflexivity].
  - exists q, w'. split; [exact H | exact He].
Defined.

(** ** A whole charge-up *)

(** X7. From [level_complete] on a catalog level the charge-up can always
    be won: after "Charge Up", there are three texts (the expected answers
    of the three questions, written out) whose submission in turn ends in
    [playing] at the next level index with one more power-up and an empty
    run. *)
Theorem charge_up_can_be_completed (w : World) (now : Q)
  (Hg : gameState w = level_complete)
  (Hl : (levelIdx w < length LEVELS)%nat) :
  exists t1 t2 t3 w',
    run (ClickChargeUp :: answerCharge t1 now ++ answerCharge t2 now ++ answerCharge t3 now) w
      = Some w' /\
    gameState w' = playing /\
    levelIdx w' = (levelIdx w + 1)%nat /\
    powerUps (stateRef w') = powerUps (stateRef w) + 1 /\
    cleared (stateRef w').
Proof.
  destruct (makeChargeQuestion_world (levelIdx w) w Hl) as [q Hq].
  set (w0 := setGameState charge_up
               (setMathError false
                  (setMathInput ""
                     (setChargeProgress 0%nat
                        (setChargeQuestion q (set_drawn (3 + drawn w) w)))))).
  assert (E0 : step ClickChargeUp w = Some w0).
  { cbn [step]. rewrite bool_decide_eq_true_2 by exact Hg.
    unfold startChargeUp. rewrite Hq. reflexivity. }
  assert (C : forall v, correctCharge (toString (chargeExpected (chargeQuestion v))) v)
    by (intros v; apply parseInt_toString).
  destruct (answerCharge_progress (toString (chargeExpected (chargeQuestion w0))) now w0 eq_refl Hl)
    as (w1 & R1 & G1 & P1 & L1 & S1); [cbn; lia | apply C |].
  destruct (answerCharge_progress (toString (chargeExpected (chargeQuestion w1))) now w1 G1)
    as (w2 & R2 & G2 & P2 & L2 & S2);
    [rewrite L1; exact Hl | rewrite P1; cbn; lia | apply C |].
  pose proof (answerCharge_complete (toString (chargeExpected (chargeQuestion w2))) now w2 G2)
    as R3.
  specialize (R3 ltac:(rewrite P2, P1; cbn; lia) (C w2)).
  eexists _, _, _, _. split.
  { cbn [run]. rewrite E0, run_app, R1, run_app, R2. exact R3. }
  cbn. rewrite S2, S1, L2, L1. repeat split.
Qed.

Lemma charge_up_can_be_completed_witness :
  let w := setGameState level_complete (playingAt 3) in
  exists t1 t2 t3 w',
    run (ClickChargeUp :: answerCharge t1 0 ++ answerCharge t2 0 ++ answerCharge t3 0) w
      = Some w' /\
    gameState w' = playing /\ levelIdx w' = 4%nat.
Proof.
  intros w.
  destruct (charge_up_can_be_completed w 0) as (t1 & t2 & t3 & w' & H & Hg & Hl & _).
  - reflexivity.
  - vm_compute. lia.
  - exists t1, t2, t3, w'. split; [exact H|]. split; [exact Hg | exact Hl].
Defined.

(** ** The anatomy of a frame *)

Lemma update_unfold (dt : Q) (w : World) :
  update dt w =
  match canvas w with
  | None => Some w
  | Some (cw, ch) =>
      match LEVELS !! levelIdx w with
      | None => None
      | Some level =>
          let w := beforeCollisions level cw ch dt w in
          let '(os, s) := updateObstacles level ch dt (obstacles (stateRef w)) (stateRef w) in
          let w := set_stateRef (set_obstacles os s) w in
          let '(gs, w) := updateGems level ch dt (gems (stateRef w)) w in
          Some (onState (set_gems gs) w)
      end
  end.
Proof.
  unfold update, beforeCollisions.
  destruct (canvas w) as [[cw ch]|]; [|reflexivity].
  destruct (LEVELS !! levelIdx w) as [level|]; [|reflexivity].
  cbv zeta.
  destruct (updateStars cw ch dt _ _) as [ss w1].
  reflexivity.
Qed.

Lemma updateObstacles_state level ch dt l s :
  (updateObstacles level ch dt l s).2 = s \/
  (updateObstacles level ch dt l s).2 = obstacleHit s.
Proof.
  induction l as [|obs rest IH]; cbn [updateObstacles]; [left; reflexivity|].
  destruct (updateObstacles level ch dt rest s) as [r s1]. cbn [snd] in *.
  destruct (overlapsShip _ _ _ _ _).
  - cbn [snd]. right. destruct IH as [-> | ->]; reflexivity.
  - destruct (Qgtb _ _); cbn [snd]; exact IH.
Qed.

Lemma afterHits_trans level w1 w2 w3 :
  afterHits level w1 w2 -> afterHits level w2 w3 -> afterHits level w1 w3.
Proof. intros H12 H23. induction H23; [assumption|..]; constructor; assumption. Qed.

Lemma afterHits_updateGems level ch dt l w :
  afterHits level w (updateGems level ch dt l w).2.
Proof.
  induction l as [|gem rest IH]; cbn [updateGems]; [constructor|].
  destruct (updateGems level ch dt rest w) as [r w1]. cbn [snd] in *.
  destruct (overlapsShip _ _ _ _ _); [cbn [snd]; constructor; exact IH|].
  destruct (Qgtb _ _); cbn [snd]; exact IH.
Qed.

Lemma collisions_afterHits (level : Level.t) (ch dt : Q) (w1 w' : World) :
  (let '(os, s) := updateObstacles level ch dt (obstacles (stateRef w1)) (stateRef w1) in
   let w := set_stateRef (set_obstacles os s) w1 in
   let '(gs, w) := updateGems level ch dt (gems (stateRef w)) w in
   Some (onState (set_gems gs) w)) = Some w' ->
  afterHits level w1 w'.
Proof.
  intros H.
  pose proof (updateObstacles_state level ch dt (obstacles (stateRef w1)) (stateRef w1)) as Ho.
  destruct (updateObstacles level ch dt (obstacles (stateRef w1)) (stateRef w1)) as [os s].
  cbn [snd] in Ho. cbv zeta in H.
  assert (A2 : afterHits level w1 (set_stateRef (set_obstacles os s) w1)).
  { destruct Ho as [-> | ->].
    - apply (hits_obstacles level w1 w1 os). constructor.
    - apply (hits_obstacles level w1 (onState obstacleHit w1) os). constructor. constructor. }
  revert H A2. generalize (set_stateRef (set_obstacles os s) w1). intros w2 H A2.
  pose proof (afterHits_updateGems level ch dt (gems (stateRef w2)) w2) as Hg.
  destruct (updateGems level ch dt (gems (stateRef w2)) w2) as [gs w3]. cbn [snd] in Hg.
  injection H as <-.
  apply hits_gems. eapply afterHits_trans; eassumption.
Qed.

(** A frame with a canvas and a level is [beforeCollisions] followed by
    hits, collections and new entity lists. *)
Lemma update_anatomy (dt : Q) (w w' : World) :
  update dt w = Some w' ->
  (canvas w = None /\ w' = w) \/
  exists cw ch level,
    canvas w = Some (cw, ch) /\ LEVELS !! levelIdx w = Some level /\
    afterHits level (beforeCollisions level cw ch dt w) w'.
Proof.
  rewrite update_unfold. intros H.
  destruct (canvas w) as [[cw ch]|]; [|left; simplify_eq; auto].
  destruct (LEVELS !! levelIdx w) as [level|]; [|discriminate].
  right. exists cw, ch, level. split; [reflexivity|]. split; [reflexivity|].
  cbv zeta in H. exact (collisions_afterHits level ch dt _ w' H).
Qed.

Lemma block_preserves (R : State -> State -> Prop) (stmts : list (State -> State)) :
  (forall s, R s s) -> (forall a b c, R a b -> R b c -> R a c) ->
  Forall (fun f => forall s, R s (f s)) stmts ->
  forall s, R s (block stmts s).
Proof.
  intros Hrefl Htrans. unfold block. induction 1 as [|f l Hf _ IH]; intros s; cbn.
  - apply Hrefl.
  - eapply Htrans; [apply Hf | apply IH].
Qed.

(** Movement writes the ship position and nothing else. *)
Lemma updateMovement_only_ship level cw ch dt s :
  exists x y, updateMovement level cw ch dt s = set_shipY y (set_shipX x s).
Proof.
  exists (shipX (updateMovement level cw ch dt s)), (shipY (updateMovement level cw ch dt s)).
  unfold updateMovement.
  apply (block_preserves (fun a b => b = set_shipY (shipY b) (set_shipX (shipX b) a))).
  - intros [ ]. reflexivity.
  - intros a b c -> ->. reflexivity.
  - repeat match goal with
           | |- Forall _ (_ :: _) =>
               constructor; [intros [ ]; cbn; case_match; reflexivity|]
           end.
    constructor.
Qed.

Lemma updateBgm_only_beat level dt s :
  exists t n, updateBgm level dt s = set_bgmStep n (set_bgmTimer t s).
Proof.
  exists (bgmTimer (updateBgm level dt s)), (bgmStep (updateBgm level dt s)).
  destruct s. unfold updateBgm. cbn. case_match; reflexivity.
Qed.

Lemma updateFlash_only_flash dt s :
  updateFlash dt s =
  set_flashTimer (if Qgtb (flashTimer s) 0 then flashTimer s - dt else flashTimer s)%Q s.
Proof. destruct s. unfold updateFlash. cbn. case_match; reflexivity. Qed.

Lemma length_updateStars cw ch dt l v :
  length (updateStars cw ch dt l v).1 = length l.
Proof.
  revert v. induction l as [|star rest IHl]; intros v; cbn [updateStars]; [reflexivity|].
  destruct (Qgtb _ ch); cbn [Math_random].
  - specialize (IHl (set_drawn (S (drawn v)) v)).
    destruct (updateStars cw ch dt rest _) as [r v']. cbn in *. lia.
  - specialize (IHl v).
    destruct (updateStars cw ch dt rest _) as [r v']. cbn in *. lia.
Qed.

Lemma stateRef_set_stateRef S W : stateRef (set_stateRef S W) = S.
Proof. reflexivity. Qed.
Lemma stateRef_set_drawn k W : stateRef (set_drawn k W) = stateRef W.
Proof. reflexivity. Qed.
Lemma set_stateRef_twice S S' W : set_stateRef S (set_stateRef S' W) = set_stateRef S W.
Proof. reflexivity. Qed.
Lemma set_drawn_set_stateRef k S W : set_drawn k (set_stateRef S W) = set_stateRef S (set_drawn k W).
Proof. reflexivity. Qed.
Lemma set_drawn_twice k k' W : set_drawn k (set_drawn k' W) = set_drawn k W.
Proof. reflexivity. Qed.
Lemma drawn_set_stateRef S W : drawn (set_stateRef S W) = drawn W.
Proof. reflexivity. Qed.
Lemma drawn_set_drawn k W : drawn (set_drawn k W) = k.
Proof. reflexivity. Qed.

Ltac world_normal :=
  unfold onState;
  repeat first
    [ rewrite stateRef_set_stateRef | rewrite stateRef_set_drawn
    | rewrite set_stateRef_twice | rewrite set_drawn_set_stateRef
    | rewrite set_drawn_twice | rewrite drawn_set_stateRef | rewrite drawn_set_drawn ].

Lemma spawnGem_at level cw S k w :
  spawnGem level cw (set_stateRef S (set_drawn k w)) =
  ((spawnGem level cw (set_drawn k w)).1, set_stateRef S (set_drawn (5 + k) w)).
Proof. reflexivity. Qed.

Lemma spawnObstacle_at level cw S k w :
  spawnObstacle level cw (set_stateRef S (set_drawn k w)) =
  ((spawnObstacle level cw (set_drawn k w)).1, set_stateRef S (set_drawn (5 + k) w)).
Proof. reflexivity. Qed.

Lemma gemSpawnTimer_set v s : gemSpawnTimer (set_gemSpawnTimer v s) = v.
Proof. reflexivity. Qed.
Lemma obstacleSpawnTimer_set v s : obstacleSpawnTimer (set_obstacleSpawnTimer v s) = v.
Proof. reflexivity. Qed.
Lemma obstacleSpawnTimer_gems v g s :
  obstacleSpawnTimer (set_gemSpawnTimer v (set_gems g s)) = obstacleSpawnTimer s.
Proof. reflexivity. Qed.
Lemma obstacleSpawnTimer_gemTimer v s :
  obstacleSpawnTimer (set_gemSpawnTimer v s) = obstacleSpawnTimer s.
Proof. reflexivity. Qed.

Lemma beforeCollisions_world (level : Level.t) (cw ch dt : Q) (w : World) :
  exists ss v1 v2 k,
    length ss = length (stars (stateRef w)) /\
    randoms v1 = randoms w /\ randoms v2 = randoms w /\
    beforeCollisions level cw ch dt w =
    set_stateRef
      (spawnTimers level dt (spawnGem level cw v1).1 (spawnObstacle level cw v2).1
         (settledState level cw ch dt ss (stateRef w)))
      (set_drawn k w).
Proof.
  unfold beforeCollisions.
  set (w0 := onState (updateMovement level cw ch dt) (onState (updateBgm level dt) w)).
  destruct (updateStars_world cw ch dt (stars (stateRef w0)) w0) as [k Hk].
  pose proof (length_updateStars cw ch dt (stars (stateRef w0)) w0) as Hlen.
  destruct (updateStars cw ch dt (stars (stateRef w0)) w0) as [ss w2].
  cbn [fst snd] in Hk, Hlen. subst w2.
  exists ss.
  assert (Hl : length ss = length (stars (stateRef w))).
  { rewrite Hlen. subst w0. world_normal.
    destruct (updateBgm_only_beat level dt (stateRef w)) as (t & n & ->).
    destruct (updateMovement_only_ship level cw ch dt
                (set_bgmStep n (set_bgmTimer t (stateRef w)))) as (x & y & ->).
    reflexivity. }
  clear Hlen. subst w0. world_normal.
  change (set_shockwaves _ _) with (settledState level cw ch dt ss (stateRef w)).
  set (S3 := settledState level cw ch dt ss (stateRef w)). clearbody S3.
  rewrite !gemSpawnTimer_set.
  assert (Fin : forall (b1 b2 : bool) g o,
            Qle_bool (gemSpawnTimer S3 - dt) 0 = b1 ->
            Qle_bool (obstacleSpawnTimer S3 - dt) 0 = b2 ->
            spawnTimers level dt g o S3 =
            (let s := set_gemSpawnTimer (gemSpawnTimer S3 - dt)%Q S3 in
             let s := if b1 then set_gemSpawnTimer (1500 / Level.speedMultiplier level)%Q
                                   (set_gems (gems s ++ [g]) s) else s in
             let s := set_obstacleSpawnTimer (obstacleSpawnTimer s - dt)%Q s in
             if b2 then set_obstacleSpawnTimer (2500 / Level.speedMultiplier level)%Q
                          (set_obstacles (obstacles s ++ [o]) s) else s)).
  { intros b1 b2 g o C1 C2. unfold spawnTimers. cbv zeta.
    rewrite !gemSpawnTimer_set, C1.
    destruct b1;
      rewrite !obstacleSpawnTimer_set, ?obstacleSpawnTimer_gems, ?obstacleSpawnTimer_gemTimer, C2;
      reflexivity. }
  destruct (Qle_bool (gemSpawnTimer S3 - dt) 0) eqn:C1.
  - rewrite spawnGem_at. cbv beta iota zeta. world_normal.
    rewrite !obstacleSpawnTimer_set, !obstacleSpawnTimer_gems, !obstacleSpawnTimer_gemTimer.
    destruct (Qle_bool (obstacleSpawnTimer S3 - dt) 0) eqn:C2.
    + rewrite spawnObstacle_at. cbv beta iota zeta. world_normal.
      exists (set_drawn k w), (set_drawn (5 + k) w), (5 + (5 + k))%nat.
      split; [exact Hl|]. split; [reflexivity|]. split; [reflexivity|].
      rewrite (Fin true true _ _ eq_refl eq_refl). cbv zeta.
      rewrite ?obstacleSpawnTimer_set, ?obstacleSpawnTimer_gems, ?obstacleSpawnTimer_gemTimer.
      reflexivity.
    + exists (set_drawn k w), w, (5 + k)%nat.
      split; [exact Hl|]. split; [reflexivity|]. split; [reflexivity|].
      rewrite (Fin true false _ _ eq_refl eq_refl). cbv zeta.
      rewrite ?obstacleSpawnTimer_set, ?obstacleSpawnTimer_gems, ?obstacleSpawnTimer_gemTimer.
      reflexivity.
  - world_normal.
    rewrite !obstacleSpawnTimer_set, !obstacleSpawnTimer_gemTimer.
    destruct (Qle_bool (obstacleSpawnTimer S3 - dt) 0) eqn:C2.
    + rewrite spawnObstacle_at. cbv beta iota zeta. world_normal.
      exists w, (set_drawn k w), (5 + k)%nat.
      split; [exact Hl|]. split; [reflexivity|]. split; [reflexivity|].
      rewrite (Fin false true _ _ eq_refl eq_refl). cbv zeta.
      rewrite ?obstacleSpawnTimer_set, ?obstacleSpawnTimer_gems, ?obstacleSpawnTimer_gemTimer.
      reflexivity.
    + exists w, w, k.
      split; [exact Hl|]. split; [reflexivity|]. split; [reflexivity|].
      rewrite (Fin false false _ _ eq_refl eq_refl). cbv zeta.
      rewrite ?obstacleSpawnTimer_set, ?obstacleSpawnTimer_gems, ?obstacleSpawnTimer_gemTimer.
      reflexivity.
Qed.

Lemma settledState_fields (level : Level.t) (cw ch dt : Q) (ss : list Star.t) (s : State) :
  let s' := settledState level cw ch dt ss s in
  (currentNumerator s' = currentNumerator s /\ collectedHistory s' = collectedHistory s /\
   powerUps s' = powerUps s /\ keys s' = keys s /\ lastTime s' = lastTime s) /\
  (gems s' = gems s /\ obstacles s' = obstacles s /\
   gemSpawnTimer s' = gemSpawnTimer s /\ obstacleSpawnTimer s' = obstacleSpawnTimer s) /\
  (shipX s' = shipX (updateMovement level cw ch dt (updateBgm level dt s)) /\
   shipY s' = shipY (updateMovement level cw ch dt (updateBgm level dt s))) /\
  (stars s' = ss /\ shockwaves s' = updateShockwaves dt (shockwaves s) /\
   bgmTimer s' = bgmTimer (updateBgm level dt s) /\
   flashTimer s' = (if Qgtb (flashTimer s) 0 then flashTimer s - dt else flashTimer s)%Q).
Proof.
  cbv zeta. unfold settledState.
  destruct (updateBgm_only_beat level dt s) as (t & n & Eb). rewrite !Eb.
  destruct (updateMovement_only_ship level cw ch dt (set_bgmStep n (set_bgmTimer t s)))
    as (x & y & Em).
  rewrite !Em. rewrite !updateFlash_only_flash. destruct s. repeat split.
Qed.

Lemma spawnTimers_fields (level : Level.t) (dt : Q) (g : Gem.t) (o : Obstacle.t) (s : State) :
  let s' := spawnTimers level dt g o s in
  (currentNumerator s' = currentNumerator s /\ collectedHistory s' = collectedHistory s /\
   powerUps s' = powerUps s /\ keys s' = keys s /\ lastTime s' = lastTime s) /\
  (shipX s' = shipX s /\ shipY s' = shipY s /\ stars s' = stars s /\
   shockwaves s' = shockwaves s /\ bgmTimer s' = bgmTimer s /\ flashTimer s' = flashTimer s) /\
  (gemSpawnTimer s' = (if Qle_bool (gemSpawnTimer s - dt) 0
                       then 1500 / Level.speedMultiplier level
                       else gemSpawnTimer s - dt)%Q /\
   gems s' = (if Qle_bool (gemSpawnTimer s - dt) 0 then gems s ++ [g] else gems s)) /\
  (obstacleSpawnTimer s' = (if Qle_bool (obstacleSpawnTimer s - dt) 0
                            then 2500 / Level.speedMultiplier level
                            else obstacleSpawnTimer s - dt)%Q /\
   obstacles s' = (if Qle_bool (obstacleSpawnTimer s - dt) 0
                   then obstacles s ++ [o] else obstacles s)).
Proof.
  cbv zeta. unfold spawnTimers. cbv zeta.
  rewrite !gemSpawnTimer_set.
  destruct (Qle_bool (gemSpawnTimer s - dt) 0);
    rewrite !obstacleSpawnTimer_set, ?obstacleSpawnTimer_gems, ?obstacleSpawnTimer_gemTimer;
    destruct (Qle_bool (obstacleSpawnTimer s - dt) 0);
    destruct s; repeat split.
Qed.

(** What one collection leaves alone. *)
Lemma collectGem_other_fields (level : Level.t) (n : Z) (w : World) :
  let w' := collectGem level n w in
  levelIdx w' = levelIdx w /\ canvas w' = canvas w /\ randoms w' = randoms w /\
  drawn w' = drawn w /\ innerWidth w' = innerWidth w /\ innerHeight w' = innerHeight w /\
  chargeProgress w' = chargeProgress w /\ chargeQuestion w' = chargeQuestion w /\
  sameShip (stateRef w) (stateRef w') /\
  powerUps (stateRef w') = powerUps (stateRef w) /\ keys (stateRef w') = keys (stateRef w) /\
  gems (stateRef w') = gems (stateRef w) /\ obstacles (stateRef w') = obstacles (stateRef w) /\
  stars (stateRef w') = stars (stateRef w) /\
  shockwaves (stateRef w') = shockwaves (stateRef w) /\
  gemSpawnTimer (stateRef w') = gemSpawnTimer (stateRef w) /\
  obstacleSpawnTimer (stateRef w') = obstacleSpawnTimer (stateRef w) /\
  bgmTimer (stateRef w') = bgmTimer (stateRef w) /\
  lastTime (stateRef w') = lastTime (stateRef w).
Proof.
  cbv zeta. unfold collectGem.
  set (w2 := onState clampNegative (onState (accumulate n) w)).
  assert (H2 : levelIdx w2 = levelIdx w /\ canvas w2 = canvas w /\ randoms w2 = randoms w /\
               drawn w2 = drawn w /\ innerWidth w2 = innerWidth w /\
               innerHeight w2 = innerHeight w /\
               chargeProgress w2 = chargeProgress w /\ chargeQuestion w2 = chargeQuestion w /\
               sameShip (stateRef w) (stateRef w2) /\
               powerUps (stateRef w2) = powerUps (stateRef w) /\
               keys (stateRef w2) = keys (stateRef w) /\
               gems (stateRef w2) = gems (stateRef w) /\
               obstacles (stateRef w2) = obstacles (stateRef w) /\
               stars (stateRef w2) = stars (stateRef w) /\
               shockwaves (stateRef w2) = shockwaves (stateRef w) /\
               gemSpawnTimer (stateRef w2) = gemSpawnTimer (stateRef w) /\
               obstacleSpawnTimer (stateRef w2) = obstacleSpawnTimer (stateRef w) /\
               bgmTimer (stateRef w2) = bgmTimer (stateRef w) /\
               lastTime (stateRef w2) = lastTime (stateRef w)).
  { subst w2. cbn [stateRef onState set_stateRef levelIdx canvas randoms drawn innerWidth
                   innerHeight chargeProgress chargeQuestion].
    unfold clampNegative. destruct (currentNumerator (accumulate n (stateRef w)) <? 0);
      repeat split. }
  clearbody w2.
  destruct (evaluate_cases level w2) as [(_ & _ & ->)|[(_ & _ & ->)|[(_ & ->)|(_ & ->)]]];
    exact H2.
Qed.

(** What the collision loops leave alone. *)
Lemma afterHits_other_fields (level : Level.t) (w w' : World) :
  afterHits level w w' ->
  levelIdx w' = levelIdx w /\ canvas w' = canvas w /\ randoms w' = randoms w /\
  drawn w' = drawn w /\
  sameShip (stateRef w) (stateRef w') /\
  powerUps (stateRef w') = powerUps (stateRef w) /\ keys (stateRef w') = keys (stateRef w) /\
  stars (stateRef w') = stars (stateRef w) /\
  shockwaves (stateRef w') = shockwaves (stateRef w) /\
  gemSpawnTimer (stateRef w') = gemSpawnTimer (stateRef w) /\
  obstacleSpawnTimer (stateRef w') = obstacleSpawnTimer (stateRef w) /\
  bgmTimer (stateRef w') = bgmTimer (stateRef w) /\
  lastTime (stateRef w') = lastTime (stateRef w).
Proof.
  induction 1 as [|w1 _ IH|w1 n _ IH|w1 os _ IH|w1 gs _ IH].
  - repeat split.
  - exact IH.
  - destruct (collectGem_other_fields level n w1)
      as (A1 & A2 & A3 & A4 & _ & _ & _ & _ & [A5 A5'] & A6 & A7 & _ & _ & A8 & A9 & A10 & A11 & A12 & A13).
    destruct IH as (B1 & B2 & B3 & B4 & [B5 B5'] & B6 & B7 & B8 & B9 & B10 & B11 & B12 & B13).
    unfold sameShip. repeat split; congruence.
  - exact IH.
  - exact IH.
Qed.

(** ** The ship and the field *)

Lemma Qltb_true (a b : Q) : Qltb a b = true <-> (a < b)%Q.
Proof. apply (Qgtb_true b a). Qed.

Lemma Qltb_false (a b : Q) : Qltb a b = false <-> (b <= a)%Q.
Proof. apply (Qgtb_false b a). Qed.

Ltac halves := unfold Qdiv in *; change (/ 2)%Q with (1 # 2)%Q in *.

(** The two clamps of one coordinate, the lower one first. *)
Lemma clamp_bounds (v lo hi : Q) :
  let v1 := if Qltb v lo then lo else v in
  let v2 := if Qgtb v1 hi then hi else v1 in
  (v2 <= hi)%Q /\ ((lo <= hi)%Q -> (lo <= v2)%Q) /\ ((hi < lo)%Q -> v2 = hi).
Proof.
  cbv zeta.
  destruct (Qltb v lo) eqn:E1; [apply Qltb_true in E1 | apply Qltb_false in E1];
    match goal with |- context [Qgtb ?a ?b] => destruct (Qgtb a b) eqn:E2 end;
    [apply Qgtb_true in E2 | apply Qgtb_false in E2
    |apply Qgtb_true in E2 | apply Qgtb_false in E2];
    repeat split; intros; try reflexivity; try lra; exfalso; lra.
Qed.

Lemma updateMovement_bounds (level : Level.t) (cw ch dt : Q) (s : State) :
  let s' := updateMovement level cw ch dt s in
  let pw := playerWidth level in
  ((shipX s' <= cw - pw / 2)%Q /\ (shipY s' <= ch - playerHeight / 2)%Q) /\
  ((pw <= cw)%Q -> (pw / 2 <= shipX s')%Q) /\
  ((100 + playerHeight <= ch)%Q -> (100 + playerHeight / 2 <= shipY s')%Q) /\
  ((cw < pw)%Q -> shipX s' = (cw - pw / 2)%Q).
Proof.
  cbv zeta. unfold updateMovement.
  match goal with
  | |- context [block ?l s] => rewrite <- (take_drop 4 l)
  end.
  cbn [take drop]. unfold block. rewrite fold_left_app.
  match goal with
  | |- context [fold_left ?f ?l s] => generalize (fold_left f l s)
  end.
  intros [x y cn g o st sw hi ks lt gt ot ft bt bs pu]. cbn [fold_left].
  pose proof (clamp_bounds x (playerWidth level / 2) (cw - playerWidth level / 2)) as Hx.
  pose proof (clamp_bounds y (100 + playerHeight / 2) (ch - playerHeight / 2)) as Hy.
  cbv zeta in Hx, Hy. cbn [shipX shipY set_shipX set_shipY].
  destruct (Qltb x (playerWidth level / 2)); cbn [shipX shipY set_shipX set_shipY] in *;
    match goal with
    | |- context [Qgtb ?a (cw - _)] => destruct (Qgtb a (cw - playerWidth level / 2))
    end; cbn [shipX shipY set_shipX set_shipY] in *;
    destruct (Qltb y (100 + playerHeight / 2)); cbn [shipX shipY set_shipX set_shipY] in *;
    match goal with
    | |- context [Qgtb ?a (ch - _)] => destruct (Qgtb a (ch - playerHeight / 2))
    end; cbn [shipX shipY set_shipX set_shipY] in *;
    destruct Hx as (Hx1 & Hx2 & Hx3); destruct Hy as (Hy1 & Hy2 & Hy3);
    (split; [split; assumption|]);
    (split; [intros; apply Hx2; halves; lra|]);
    (split; [intros; apply Hy2; halves; lra|]);
    intros; apply Hx3; halves; lra.
Qed.

(** After a frame the ship is where [updateMovement] put it: nothing
    later in [update] moves it. *)
Lemma update_ship (dt : Q) (w w' : World) (cw ch : Q) (level : Level.t) :
  update dt w = Some w' ->
  canvas w = Some (cw, ch) ->
  LEVELS !! levelIdx w = Some level ->
  sameShip (updateMovement level cw ch dt (updateBgm level dt (stateRef w))) (stateRef w').
Proof.
  intros H Hc Hl.
  destruct (update_anatomy dt w w' H) as [[Hn _]|(cw' & ch' & level' & Hc' & Hl' & Ha)];
    [congruence|].
  assert (cw' = cw /\ ch' = ch /\ level' = level) as (-> & -> & ->)
    by (repeat split; congruence).
  destruct (beforeCollisions_world level cw ch dt w) as (ss & v1 & v2 & k & _ & _ & _ & E).
  rewrite E in Ha.
  destruct (afterHits_other_fields level _ _ Ha) as (_ & _ & _ & _ & [Sx Sy] & _).
  rewrite stateRef_set_stateRef in Sx, Sy.
  destruct (spawnTimers_fields level dt (spawnGem level cw v1).1 (spawnObstacle level cw v2).1
              (settledState level cw ch dt ss (stateRef w)))
    as (_ & (Tx & Ty & _) & _).
  cbv zeta in Tx, Ty.
  destruct (settledState_fields level cw ch dt ss (stateRef w)) as (_ & _ & (Ux & Uy) & _).
  cbv zeta in Ux, Uy.
  split; congruence.
Qed.

(** X8. After a frame on a canvas that has room for the fleet (as wide
    as the fleet, and at least 170 high), the centre of the fleet lies
    within the playing field: at least half a fleet width from the left
    and right edges, at least 100 plus half a saucer from the top and half
    a saucer from the bottom. *)
Theorem ship_stays_in_the_field (dt : Q) (w w' : World) (cw ch : Q) (level : Level.t)
  (Hu : update dt w = Some w')
  (Hc : canvas w = Some (cw, ch))
  (Hl : LEVELS !! levelIdx w = Some level)
  (Hw : (playerWidth level <= cw)%Q)
  (Hh : (100 + playerHeight <= ch)%Q) :
  (playerWidth level / 2 <= shipX (stateRef w') <= cw - playerWidth level / 2)%Q /\
  (100 + playerHeight / 2 <= shipY (stateRef w') <= ch - playerHeight / 2)%Q.
Proof.
  destruct (update_ship dt w w' cw ch level Hu Hc Hl) as [Ex Ey].
  destruct (updateMovement_bounds level cw ch dt (updateBgm level dt (stateRef w)))
    as ((Bx & By) & Lx & Ly & _).
  rewrite Ex, Ey. auto.
Qed.

(** X9. On a canvas narrower than the fleet the two horizontal clamps
    contradict each other and the later one wins: after every frame the
    fleet is centred half a fleet width left of the right edge, whatever
    keys are held, so that part of it lies left of the canvas. *)
Theorem narrow_canvas_pins_the_ship (dt : Q) (w w' : World) (cw ch : Q) (level : Level.t)
  (Hu : update dt w = Some w')
  (Hc : canvas w = Some (cw, ch))
  (Hl : LEVELS !! levelIdx w = Some level)
  (Hw : (cw < playerWidth level)%Q) :
  shipX (stateRef w') = (cw - playerWidth level / 2)%Q /\
  (shipX (stateRef w') - playerWidth level / 2 < 0)%Q.
Proof.
  destruct (update_ship dt w w' cw ch level Hu Hc Hl) as [Ex _].
  destruct (updateMovement_bounds level cw ch dt (updateBgm level dt (stateRef w)))
    as (_ & _ & _ & Px).
  rewrite Ex, (Px Hw). split; [reflexivity|]. halves. lra.
Qed.

Lemma ship_stays_in_the_field_witness :
  exists w', update 16 (playingAt 1) = Some w' /\
             ((175 # 4) <= shipX (stateRef w') <= 800 - (175 # 4))%Q /\
             (135 <= shipY (stateRef w') <= 565)%Q.
Proof.
  destruct (update 16 (playingAt 1)) as [w'|] eqn:E; [|vm_compute in E; discriminate].
  exists w'. split; [reflexivity|].
  destruct (ship_stays_in_the_field 16 (playingAt 1) w' 800 600 (Level.mk 2 4 4 1 (9 # 10)) E)
    as [[X1 X2] [Y1 Y2]].
  - vm_compute. reflexivity.
  - vm_compute. reflexivity.
  - vm_compute. discriminate.
  - vm_compute. discriminate.
  - assert (P : (playerWidth (Level.mk 2 4 4 1 (9 # 10)) == (175 # 2))%Q) by (vm_compute; reflexivity).
    assert (R : (playerHeight == 70)%Q) by (vm_compute; reflexivity).
    rewrite P in X1, X2. rewrite R in Y1, Y2. halves. repeat split; lra.
Defined.

Lemma narrow_canvas_pins_the_ship_witness :
  exists w', update 16 (handleResize 50 600 (playingAt 1)) = Some w' /\
             (shipX (stateRef w') == 50 - (175 # 4))%Q.
Proof.
  destruct (update 16 (handleResize 50 600 (playingAt 1))) as [w'|] eqn:E;
    [|vm_compute in E; discriminate].
  exists w'. split; [reflexivity|].
  destruct (narrow_canvas_pins_the_ship 16 (handleResize 50 600 (playingAt 1)) w' 50 600
              (Level.mk 2 4 4 1 (9 # 10)) E) as [X _].
  - vm_compute. reflexivity.
  - vm_compute. reflexivity.
  - vm_compute. reflexivity.
  - rewrite X. vm_compute. reflexivity.
Defined.

(** ** What the collision loops leave in the field *)

Lemma overlapsShip_sameShip (level : Level.t) (x y r : Q) (s s' : State) :
  sameShip s s' -> overlapsShip level x y r s' = overlapsShip level x y r s.
Proof. intros [Hx Hy]. unfold overlapsShip. rewrite Hx, Hy. reflexivity. Qed.

Lemma sameShip_refl (s : State) : sameShip s s.
Proof. split; reflexivity. Qed.

Lemma sameShip_trans (s1 s2 s3 : State) : sameShip s1 s2 -> sameShip s2 s3 -> sameShip s1 s3.
Proof. intros [A B] [C D]. split; congruence. Qed.

Lemma clearOfShip_sameShip (level : Level.t) (ch : Q) (s s' : State) (x y r : Q) :
  sameShip s s' -> clearOfShip level ch s x y r -> clearOfShip level ch s' x y r.
Proof.
  intros H [A B]. split; [|exact B]. rewrite (overlapsShip_sameShip level x y r s s' H). exact A.
Qed.

Lemma updateObstacles_survivors (level : Level.t) (ch dt : Q) (l : list Obstacle.t) (s : State) :
  let r := updateObstacles level ch dt l s in
  Forall (obstacleClear level ch s) r.1 /\ (length r.1 <= length l)%nat /\
  sameShip s r.2 /\ gems r.2 = gems s.
Proof.
  cbv zeta. induction l as [|obs rest IH]; cbn [updateObstacles].
  - cbn [fst snd length]. split; [constructor|]. split; [lia|]. split; [apply sameShip_refl|reflexivity].
  - destruct (updateObstacles level ch dt rest s) as [os s1]. cbn [fst snd] in IH.
    destruct IH as (F & L & Sh & G).
    match goal with
    | |- context [overlapsShip level ?x ?y ?r s1] =>
        destruct (overlapsShip level x y r s1) eqn:Eo
    end.
    + cbn [fst snd length]. split; [exact F|]. split; [lia|].
      split; [|exact G]. destruct Sh. split; assumption.
    + match goal with
      | |- context [Qgtb ?a ?b] => destruct (Qgtb a b) eqn:Eq
      end; cbn [fst snd length].
      * split; [exact F|]. split; [lia|]. split; assumption.
      * split; [|split; [lia|split; assumption]].
        constructor; [|exact F].
        split; cbn [Obstacle.x Obstacle.y Obstacle.radius].
        -- rewrite <- (overlapsShip_sameShip level _ _ _ s s1 Sh). exact Eo.
        -- apply Qgtb_false. exact Eq.
Qed.

Lemma updateGems_survivors (level : Level.t) (ch dt : Q) (l : list Gem.t) (w : World) :
  let r := updateGems level ch dt l w in
  Forall (gemClear level ch (stateRef w)) r.1 /\ (length r.1 <= length l)%nat /\
  sameShip (stateRef w) (stateRef r.2) /\ obstacles (stateRef r.2) = obstacles (stateRef w).
Proof.
  cbv zeta. induction l as [|gem rest IH]; cbn [updateGems].
  - cbn [fst snd length]. split; [constructor|]. split; [lia|]. split; [apply sameShip_refl|reflexivity].
  - destruct (updateGems level ch dt rest w) as [gs w1]. cbn [fst snd] in IH.
    destruct IH as (F & L & Sh & O).
    match goal with
    | |- context [overlapsShip level ?x ?y ?r (stateRef w1)] =>
        destruct (overlapsShip level x y r (stateRef w1)) eqn:Eo
    end.
    + cbn [fst snd length]. split; [exact F|]. split; [lia|].
      destruct (collectGem_other_fields level (Gem.numerator gem) w1)
        as (_ & _ & _ & _ & _ & _ & _ & _ & Sh' & _ & _ & _ & O' & _).
      cbv zeta in Sh', O'. cbn [Gem.numerator].
      split; [eapply sameShip_trans; eassumption | congruence].
    + match goal with
      | |- context [Qgtb ?a ?b] => destruct (Qgtb a b) eqn:Eq
      end; cbn [fst snd length].
      * split; [exact F|]. split; [lia|]. split; assumption.
      * split; [|split; [lia|split; assumption]].
        constructor; [|exact F].
        split; cbn [Gem.x Gem.y Gem.radius].
        -- rewrite <- (overlapsShip_sameShip level _ _ _ (stateRef w) (stateRef w1) Sh). exact Eo.
        -- apply Qgtb_false. exact Eq.
Qed.

Lemma collisions_survivors (level : Level.t) (ch dt : Q) (w1 w' : World) :
  (let '(os, s) := updateObstacles level ch dt (obstacles (stateRef w1)) (stateRef w1) in
   let w := set_stateRef (set_obstacles os s) w1 in
   let '(gs, w) := updateGems level ch dt (gems (stateRef w)) w in
   Some (onState (set_gems gs) w)) = Some w' ->
  Forall (gemClear level ch (stateRef w')) (gems (stateRef w')) /\
  Forall (obstacleClear level ch (stateRef w')) (obstacles (stateRef w')) /\
  (length (gems (stateRef w')) <= length (gems (stateRef w1)))%nat /\
  (length (obstacles (stateRef w')) <= length (obstacles (stateRef w1)))%nat.
Proof.
  intros H.
  pose proof (updateObstacles_survivors level ch dt (obstacles (stateRef w1)) (stateRef w1)) as Ho.
  cbv zeta in Ho.
  destruct (updateObstacles level ch dt (obstacles (stateRef w1)) (stateRef w1)) as [os s].
  cbn [fst snd] in Ho. destruct Ho as (Fo & Lo & Sho & Go). cbv zeta in H.
  assert (S2 : sameShip (stateRef w1) (stateRef (set_stateRef (set_obstacles os s) w1)) /\
               gems (stateRef (set_stateRef (set_obstacles os s) w1)) = gems (stateRef w1) /\
               obstacles (stateRef (set_stateRef (set_obstacles os s) w1)) = os).
  { rewrite stateRef_set_stateRef. destruct Sho. destruct s. repeat split; assumption. }
  revert H S2. generalize (set_stateRef (set_obstacles os s) w1). intros w2 H (Sh2 & G2 & O2).
  pose proof (updateGems_survivors level ch dt (gems (stateRef w2)) w2) as Hg.
  cbv zeta in Hg.
  destruct (updateGems level ch dt (gems (stateRef w2)) w2) as [gs w3].
  cbn [fst snd] in Hg. destruct Hg as (Fg & Lg & Sh3 & O3).
  injection H as <-.
  assert (S4 : sameShip (stateRef w3) (stateRef (onState (set_gems gs) w3)) /\
               gems (stateRef (onState (set_gems gs) w3)) = gs /\
               obstacles (stateRef (onState (set_gems gs) w3)) = obstacles (stateRef w3)).
  { unfold onState. rewrite stateRef_set_stateRef. destruct (stateRef w3). repeat split. }
  destruct S4 as (Sh4 & G4 & O4). rewrite G4, O4, O3, O2.
  split; [|split; [|split; [rewrite <- G2; exact Lg | exact Lo]]].
  - eapply Forall_impl; [exact Fg|]. intros g Hgc.
    eapply clearOfShip_sameShip; [|exact Hgc]. eapply sameShip_trans; eassumption.
  - eapply Forall_impl; [exact Fo|]. intros o Hoc.
    eapply clearOfShip_sameShip; [|exact Hoc].
    eapply sameShip_trans; [exact Sh2|]. eapply sameShip_trans; eassumption.
Qed.

(** The entity lists as [beforeCollisions] leaves them: at most one new
    gem and one new obstacle, appended at the end. *)
Lemma beforeCollisions_lists (level : Level.t) (cw ch dt : Q) (w : World) :
  let s' := stateRef (beforeCollisions level cw ch dt w) in
  (exists new, gems s' = gems (stateRef w) ++ new /\ (length new <= 1)%nat) /\
  (exists new, obstacles s' = obstacles (stateRef w) ++ new /\ (length new <= 1)%nat).
Proof.
  cbv zeta.
  destruct (beforeCollisions_world level cw ch dt w) as (ss & v1 & v2 & k & _ & _ & _ & E).
  rewrite E, stateRef_set_stateRef.
  destruct (spawnTimers_fields level dt (spawnGem level cw v1).1 (spawnObstacle level cw v2).1
              (settledState level cw ch dt ss (stateRef w)))
    as (_ & _ & (_ & Tg) & (_ & To)).
  cbv zeta in Tg, To.
  destruct (settledState_fields level cw ch dt ss (stateRef w)) as (_ & (Ug & Uo & _) & _).
  cbv zeta in Ug, Uo.
  rewrite Tg, To, Ug, Uo. split.
  - destruct (Qle_bool _ 0).
    + eexists. split; [reflexivity|]. cbn [length]. lia.
    + exists []. rewrite app_nil_r. split; [reflexivity|]. cbn [length]. lia.
  - destruct (Qle_bool (obstacleSpawnTimer _ - dt) 0).
    + eexists. split; [reflexivity|]. cbn [length]. lia.
    + exists []. rewrite app_nil_r. split; [reflexivity|]. cbn [length]. lia.
Qed.

(** X10. After a frame nothing left in the field touches the fleet or has
    fallen more than 50 below the canvas: every gem and every obstacle that
    did either has been removed, the ones spawned in this frame included.
    Each of the two lists has grown by at most one entry. *)
Theorem frame_leaves_the_field_clear (dt : Q) (w w' : World) (cw ch : Q) (level : Level.t)
  (Hu : update dt w = Some w')
  (Hc : canvas w = Some (cw, ch))
  (Hl : LEVELS !! levelIdx w = Some level) :
  Forall (gemClear level ch (stateRef w')) (gems (stateRef w')) /\
  Forall (obstacleClear level ch (stateRef w')) (obstacles (stateRef w')) /\
  (length (gems (stateRef w')) <= length (gems (stateRef w)) + 1)%nat /\
  (length (obstacles (stateRef w')) <= length (obstacles (stateRef w)) + 1)%nat.
Proof.
  rewrite update_unfold, Hc, Hl in Hu. cbv zeta in Hu.
  destruct (collisions_survivors level ch dt _ w' Hu) as (Fg & Fo & Lg & Lo).
  destruct (beforeCollisions_lists level cw ch dt w) as [(ng & Eg & Ng) (no & Eo & No)].
  cbv zeta in Eg, Eo. rewrite Eg in Lg. rewrite Eo in Lo. rewrite length_app in Lg, Lo.
  split; [exact Fg|]. split; [exact Fo|]. split; lia.
Qed.

Lemma frame_leaves_the_field_clear_witness :
  let w := onState (set_gems [Gem.mk 0 400 500 3 2 32; Gem.mk 1 100 100 1 2 32])
             (playingAt 1) in
  exists w', update 16 w = Some w' /\
             Forall (gemClear (Level.mk 2 4 4 1 (9 # 10)) 600 (stateRef w')) (gems (stateRef w')) /\
             (length (gems (stateRef w')) <= 3)%nat.
Proof.
  intros w.
  destruct (update 16 w) as [w'|] eqn:E; [|vm_compute in E; discriminate].
  exists w'. split; [reflexivity|].
  destruct (frame_leaves_the_field_clear 16 w w' 800 600 (Level.mk 2 4 4 1 (9 # 10)) E)
    as (Fg & _ & Lg & _).
  - vm_compute. reflexivity.
  - vm_compute. reflexivity.
  - split; [exact Fg|]. exact Lg.
Defined.

(** ** The run stays within the target *)

Lemma sumsWithin_nil (t : Z) : 0 <= t -> sumsWithin t [].
Proof. intros H i. rewrite take_nil. cbn. lia. Qed.

Lemma sumsWithin_snoc (t : Z) (h : list Z) (n : Z) :
  sumsWithin t h -> 0 <= sum h + n <= t -> sumsWithin t (h ++ [n]).
Proof.
  intros H Hn i.
  destruct (Nat.le_gt_cases i (length h)) as [Hi|Hi].
  - rewrite take_app_le by exact Hi. apply H.
  - rewrite take_ge by (rewrite length_app; cbn [length]; lia).
    rewrite sum_snoc. exact Hn.
Qed.

Lemma runWithin_cleared (t : Z) (s : State) : 0 <= t -> cleared s -> runWithin t s.
Proof.
  intros Ht [Hc Hh]. split.
  - unfold consistent. rewrite Hc, Hh. reflexivity.
  - rewrite Hh. apply sumsWithin_nil, Ht.
Qed.

Lemma runWithin_collectGem (level : Level.t) (n : Z) (w : World) :
  0 <= Level.targetNumerator level ->
  runWithin (Level.targetNumerator level) (stateRef w) ->
  runWithin (Level.targetNumerator level) (stateRef (collectGem level n w)).
Proof.
  intros Ht [Hc Hs]. unfold collectGem.
  set (w2 := onState clampNegative (onState (accumulate n) w)).
  assert (H2 : consistent (stateRef w2) /\ 0 <= currentNumerator (stateRef w2) /\
               (currentNumerator (stateRef w2) <= Level.targetNumerator level ->
                sumsWithin (Level.targetNumerator level) (collectedHistory (stateRef w2)))).
  { subst w2. cbn [stateRef onState set_stateRef].
    pose proof (accumulate_consistent n (stateRef w) Hc) as Ha.
    destruct (clampNegative_core (accumulate n (stateRef w))) as [_ [[[C1 C2] _]|[-> C]]].
    - split; [unfold consistent; rewrite C1, C2; reflexivity|]. split; [lia|].
      intros _. rewrite C2. apply sumsWithin_nil, Ht.
    - split; [exact Ha|]. split; [exact C|]. intros Hle.
      unfold accumulate in *. cbn in *. apply sumsWithin_snoc; [exact Hs|].
      unfold consistent in Hc. rewrite <- Hc. lia. }
  clearbody w2. destruct H2 as (C2 & P2 & S2).
  destruct (evaluate_cases level w2) as [(E & _ & ->)|[(E & _ & ->)|[(E & ->)|(E & ->)]]];
    cbv zeta in E.
  - cbn [stateRef setGameState]. split; [exact C2 | apply S2; lia].
  - cbn. split; [exact C2 | apply S2; lia].
  - rewrite stateRef_set_stateRef. apply runWithin_cleared; [exact Ht|]. split; reflexivity.
  - split; [exact C2 | apply S2; lia].
Qed.

Lemma afterHits_runWithin (level : Level.t) (w w' : World) :
  afterHits level w w' ->
  0 <= Level.targetNumerator level ->
  runWithin (Level.targetNumerator level) (stateRef w) ->
  runWithin (Level.targetNumerator level) (stateRef w').
Proof.
  intros H Ht Hw. induction H as [|w1 _ IH|w1 n _ IH|w1 os _ IH|w1 gs _ IH].
  - exact Hw.
  - apply runWithin_cleared; [exact Ht|]. split; reflexivity.
  - apply runWithin_collectGem; assumption.
  - exact IH.
  - exact IH.
Qed.

Lemma beforeCollisions_run (level : Level.t) (cw ch dt : Q) (w : World) :
  let s' := stateRef (beforeCollisions level cw ch dt w) in
  currentNumerator s' = currentNumerator (stateRef w) /\
  collectedHistory s' = collectedHistory (stateRef w).
Proof.
  cbv zeta.
  destruct (beforeCollisions_world level cw ch dt w) as (ss & v1 & v2 & k & _ & _ & _ & E).
  rewrite E, stateRef_set_stateRef.
  destruct (spawnTimers_fields level dt (spawnGem level cw v1).1 (spawnObstacle level cw v2).1
              (settledState level cw ch dt ss (stateRef w)))
    as ((T1 & T2 & _) & _).
  cbv zeta in T1, T2.
  destruct (settledState_fields level cw ch dt ss (stateRef w)) as ((U1 & U2 & _) & _).
  cbv zeta in U1, U2.
  split; congruence.
Qed.

Lemma runWithin_same (t : Z) (s s' : State) :
  currentNumerator s' = currentNumerator s -> collectedHistory s' = collectedHistory s ->
  runWithin t s -> runWithin t s'.
Proof. intros Hc Hh [C S]. unfold runWithin, consistent in *. rewrite Hc, Hh. auto. Qed.

Lemma inRange_same (w w' : World) :
  levelIdx w' = levelIdx w ->
  currentNumerator (stateRef w') = currentNumerator (stateRef w) ->
  collectedHistory (stateRef w') = collectedHistory (stateRef w) ->
  inRange w -> inRange w'.
Proof.
  intros Hl Hc Hh H level Hlv. rewrite Hl in Hlv.
  exact (runWithin_same _ _ _ Hc Hh (H level Hlv)).
Qed.

Lemma inRange_cleared (w : World) : cleared (stateRef w) -> inRange w.
Proof.
  intros Hc level Hl. apply runWithin_cleared; [|exact Hc].
  apply LEVELS_target_pos in Hl. lia.
Qed.

Lemma update_inRange (dt : Q) (w w' : World) :
  update dt w = Some w' -> inRange w -> inRange w'.
Proof.
  intros H Hw.
  destruct (update_anatomy dt w w' H) as [[_ ->]|(cw & ch & level & Hc & Hl & Ha)];
    [exact Hw|].
  destruct (afterHits_other_fields level _ _ Ha) as (Li & _).
  destruct (beforeCollisions_world level cw ch dt w) as (ss & v1 & v2 & k & _ & _ & _ & E).
  assert (Lb : levelIdx (beforeCollisions level cw ch dt w) = levelIdx w)
    by (rewrite E; reflexivity).
  intros level' Hl'. rewrite Li, Lb, Hl in Hl'. injection Hl' as <-.
  apply (afterHits_runWithin level _ _ Ha).
  - apply LEVELS_target_pos in Hl. lia.
  - destruct (beforeCollisions_run level cw ch dt w) as [B1 B2]. cbv zeta in B1, B2.
    exact (runWithin_same _ _ _ B1 B2 (Hw level Hl)).
Qed.

Lemma step_inRange (e : Event) (w w' : World) :
  inRange w -> step e w = Some w' -> inRange w'.
Proof.
  intros Hw.
  destruct e as [time|key|key|iw ih|now|now|now| |text| |now]; cbn [step]; intros H.
  - unfold loop in H. case_bool_decide; [|simplify_eq; assumption].
    apply update_inRange in H; [exact H|].
    apply (inRange_same w); [reflexivity..|exact Hw].
  - simplify_eq.
    destruct (handleKeyDown_cases key w) as [(-> & Hg & Hpos & ->)|(_ & ->)];
      apply (inRange_same w); solve [reflexivity | exact Hw].
  - simplify_eq. apply (inRange_same w); solve [reflexivity | exact Hw].
  - simplify_eq. unfold handleResize. case_match;
      apply (inRange_same w); solve [reflexivity | exact Hw].
  - case_bool_decide; simplify_eq; [|assumption].
    apply inRange_cleared. split; reflexivity.
  - case_bool_decide; simplify_eq; [|assumption].
    apply inRange_cleared. split; reflexivity.
  - case_bool_decide; simplify_eq; [|assumption].
    apply inRange_cleared. split; reflexivity.
  - case_bool_decide; simplify_eq; [|assumption].
    unfold startChargeUp in H.
    destruct (makeChargeQuestion (levelIdx w) w) as [[q w1]|] eqn:E; [|discriminate].
    apply makeChargeQuestion_Some in E. simplify_eq.
    apply (inRange_same w); solve [reflexivity | exact Hw].
  - case_bool_decide; simplify_eq; [|assumption].
    apply (inRange_same w); solve [reflexivity | exact Hw].
  - case_bool_decide as Hs; simplify_eq; [|assumption].
    destruct (handleMathSubmit_cases w) as [(_ & ->)|[(_ & _ & ->)|(_ & _ & ->)]];
      apply (inRange_same w); solve [reflexivity | exact Hw].
  - case_bool_decide as Hs; simplify_eq; [|assumption].
    destruct (handleChargeSubmit_cases now w) as [(_ & E)|[(_ & _ & E)|(_ & _ & E)]];
      rewrite E in H; clear E.
    + simplify_eq. apply (inRange_same w); solve [reflexivity | exact Hw].
    + simplify_eq. apply inRange_cleared. split; reflexivity.
    + destruct (makeChargeQuestion _ _) as [[q w1]|] eqn:E; [|discriminate].
      apply makeChargeQuestion_Some in E. simplify_eq.
      apply (inRange_same w); solve [reflexivity | exact Hw].
Qed.

Lemma initial_inRange (iw ih : Q) (rs : nat -> Q) : inRange (initial iw ih rs).
Proof.
  unfold initial.
  match goal with
  | |- context [initStars 100 ?v] =>
      destruct (initStars_world 100 v) as [k Hk]; destruct (initStars 100 v) as [ss w']
  end.
  cbn in Hk. subst. apply inRange_cleared. split; reflexivity.
Qed.

Lemma reachable_inRange (w : World) : reachable w -> inRange w.
Proof.
  induction 1 as [iw ih rs|e w w' _ IH Hs].
  - apply initial_inRange.
  - exact (step_inRange e w w' IH Hs).
Qed.

(** X11. In every reachable world the numerator lies between 0 and the
    target of the level, and so does every running sum of the history:
    whatever the math challenge expects as an answer is a number from 0 to
    the target. *)
Theorem expected_answers_stay_within_target (w : World) (level : Level.t)
  (Hr : reachable w)
  (Hl : LEVELS !! levelIdx w = Some level) :
  0 <= currentNumerator (stateRef w) <= Level.targetNumerator level /\
  forall (s : nat) (v : Z),
    mathExpected (collectedHistory (stateRef w)) s = Some v ->
    0 <= v <= Level.targetNumerator level.
Proof.
  destruct (reachable_inRange w Hr level Hl) as [Hc Hs]. split.
  - unfold consistent in Hc. rewrite Hc.
    specialize (Hs (length (collectedHistory (stateRef w)))).
    rewrite take_ge in Hs by lia. exact Hs.
  - intros s v Hv. unfold mathExpected in Hv. cbv zeta in Hv.
    destruct (collectedHistory (stateRef w) !! s) as [g|] eqn:Eg; [|discriminate].
    cbn in Hv. injection Hv as <-.
    rewrite <- (sum_take_S _ _ _ Eg). apply Hs.
Qed.

Lemma expected_answers_stay_within_target_witness :
  exists w, run (ClickStartEngine 0 :: frames 20) (initial 800 170 (fun _ => (1 # 2)%Q)) = Some w /\
            collectedHistory (stateRef w) = [2] /\
            0 <= currentNumerator (stateRef w) <= 3.
Proof.
  destruct (run (ClickStartEngine 0 :: frames 20) (initial 800 170 (fun _ => (1 # 2)%Q)))
    as [w|] eqn:E; [|vm_compute in E; discriminate].
  exists w. split; [reflexivity|].
  pose proof E as E'. vm_compute in E'. injection E' as E'.
  split; [rewrite <- E'; reflexivity|].
  destruct (expected_answers_stay_within_target w (Level.mk 1 3 3 1 (8 # 10))) as [H _].
  - exact (reachable_run _ _ _ (reachable_initial _ _ _) E).
  - rewrite <- E'. reflexivity.
  - exact H.
Defined.

(** ** The fleet on the screen *)

Lemma lit_segments_from (c : Z) (n a : nat) :
  length (List.filter (fun b : bool => b) (map (fun i => Z.of_nat i <? c) (seq a n))) =
  Z.to_nat (Z.max 0 (Z.min (Z.of_nat n) (c - Z.of_nat a))).
Proof.
  revert a. induction n as [|n IH]; intros a.
  - cbn [seq map List.filter length]. lia.
  - cbn [seq map List.filter]. destruct (Z.ltb_spec (Z.of_nat a) c).
    + cbn [length]. rewrite IH. lia.
    + rewrite IH. lia.
Qed.

Lemma lit_segments (d c : Z) :
  0 <= c <= d ->
  Z.of_nat (length (List.filter (fun b : bool => b) (segments d c))) = c.
Proof. intros H. unfold segments. rewrite lit_segments_from. lia. Qed.

Lemma sum_shipNumerator (level : Level.t) (n : Z) (k : nat) :
  0 <= Level.denominator level ->
  sum (map (shipNumerator level n) (seq 0 k)) =
  Z.max 0 (Z.min (Z.of_nat k * Level.denominator level) n).
Proof.
  intros Hd. induction k as [|k IH].
  - cbn. lia.
  - rewrite seq_S, map_app, Nat.add_0_l. cbn [map]. rewrite sum_snoc, IH.
    unfold shipNumerator.
    assert (Hm : 0 <= Z.of_nat k * Level.denominator level) by nia.
    replace (Z.of_nat (S k) * Level.denominator level)
      with (Z.of_nat k * Level.denominator level + Level.denominator level) by lia.
    generalize dependent (Z.of_nat k * Level.denominator level). intros m _ Hm. lia.
Qed.

Lemma litCount_drawnFleet (level : Level.t) (s : State) :
  0 <= Level.denominator level ->
  litCount (drawnFleet level s) =
  Z.max 0 (Z.min (Z.of_nat (Z.to_nat (Level.numShips level)) * Level.denominator level)
             (currentNumerator s)).
Proof.
  intros Hd. unfold litCount, drawnFleet. rewrite map_map. cbn [snd].
  rewrite <- (sum_shipNumerator level (currentNumerator s) _ Hd). f_equal.
  apply map_ext. intros i. apply lit_segments. unfold shipNumerator. lia.
Qed.

(** X12. In every reachable world the fleet on the screen shows the
    numerator: over all saucers, the number of lit segments is the current
    numerator, and the saucers fill up from the left, one lighting up only
    when the one before it is full. *)
Theorem fleet_shows_the_numerator (w : World) (level : Level.t)
  (Hr : reachable w)
  (Hl : LEVELS !! levelIdx w = Some level) :
  litCount (drawnFleet level (stateRef w)) = currentNumerator (stateRef w) /\
  forall i : nat,
    0 < shipNumerator level (currentNumerator (stateRef w)) (S i) ->
    shipNumerator level (currentNumerator (stateRef w)) i = Level.denominator level.
Proof.
  destruct (LEVELS_denominator _ _ Hl) as (Hd & Ht & Hn & _).
  destruct (reachable_inRange w Hr level Hl) as [Hc Hs].
  assert (Hcur : 0 <= currentNumerator (stateRef w) <= Level.targetNumerator level).
  { unfold consistent in Hc. rewrite Hc.
    specialize (Hs (length (collectedHistory (stateRef w)))).
    rewrite take_ge in Hs by lia. exact Hs. }
  split.
  - rewrite litCount_drawnFleet by lia. rewrite Z2Nat.id by lia. lia.
  - intros i. unfold shipNumerator. nia.
Qed.

Lemma fleet_shows_the_numerator_witness :
  exists w, run (ClickStartEngine 0 :: frames 20) (initial 800 170 (fun _ => (1 # 2)%Q)) = Some w /\
            currentNumerator (stateRef w) = 2 /\
            litCount (drawnFleet (Level.mk 1 3 3 1 (8 # 10)) (stateRef w)) = 2.
Proof.
  destruct (run (ClickStartEngine 0 :: frames 20) (initial 800 170 (fun _ => (1 # 2)%Q)))
    as [w|] eqn:E; [|vm_compute in E; discriminate].
  exists w. split; [reflexivity|].
  pose proof E as E'. vm_compute in E'. injection E' as E'.
  assert (Hc : currentNumerator (stateRef w) = 2) by (rewrite <- E'; reflexivity).
  split; [exact Hc|].
  destruct (fleet_shows_the_numerator w (Level.mk 1 3 3 1 (8 # 10))) as [H _].
  - exact (reachable_run _ _ _ (reachable_initial _ _ _) E).
  - rewrite <- E'. reflexivity.
  - rewrite H. exact Hc.
Defined.

(** Where the circles of the saucers are, for a fleet whose centre is
    clamped. *)
Lemma drawnFleet_in_field (level : Level.t) (cw ch : Q) (s : State) :
  (playerWidth level / 2 <= shipX s <= cw - playerWidth level / 2)%Q ->
  (100 + playerHeight / 2 <= shipY s <= ch - playerHeight / 2)%Q ->
  Forall (fun p => circleInField cw ch p.1 (shipY s)) (drawnFleet level s).
Proof.
  intros Hx Hy. unfold drawnFleet. rewrite Forall_map. apply Forall_forall.
  intros i Hi. apply elem_of_seq in Hi. cbn [fst].
  assert (H0 : (0 <= inject_Z (Z.of_nat i))%Q) by (rewrite <- (Zle_Qle 0); lia).
  assert (H1 : (inject_Z (Z.of_nat i) + 1 <= inject_Z (Level.numShips level))%Q).
  { change 1%Q with (inject_Z 1). rewrite <- (inject_Z_plus (Z.of_nat i) 1), <- Zle_Qle. lia. }
  unfold circleInField, saucerMargin, shipXOffset, playerWidth, playerHeight, radius, ofZ in *.
  revert H0 H1 Hx Hy.
  generalize (inject_Z (Z.of_nat i)) (inject_Z (Level.numShips level)) (shipX s) (shipY s).
  intros qi qn x y H0 H1 Hx Hy. halves. repeat split; lra.
Qed.

(** X13. After a frame on a canvas with room for the fleet, the circle of
    radius 35 on which each saucer is built lies on the canvas and below the
    strip of height 100 at the top: the collision box, which is clamped,
    contains these circles. On the left and on the right 8.75 is left to
    spare, more than the outline of width 2 stroked along the circle needs.
    Above and below nothing is left to spare at the clamps, and the
    statement is about the circles only, not about their outline. *)
Theorem saucer_circles_lie_in_the_field (dt : Q) (w w' : World) (cw ch : Q) (level : Level.t)
  (Hu : update dt w = Some w')
  (Hc : canvas w = Some (cw, ch))
  (Hl : LEVELS !! levelIdx w = Some level)
  (Hw : (playerWidth level <= cw)%Q)
  (Hh : (100 + playerHeight <= ch)%Q) :
  (saucerMargin == 35 # 4)%Q /\
  Forall (fun p => circleInField cw ch p.1 (shipY (stateRef w'))) (drawnFleet level (stateRef w')).
Proof.
  split; [reflexivity|].
  destruct (update_ship dt w w' cw ch level Hu Hc Hl) as [Ex Ey].
  destruct (updateMovement_bounds level cw ch dt (updateBgm level dt (stateRef w)))
    as ((Bx & By) & Lx & Ly & _).
  apply drawnFleet_in_field; rewrite ?Ex, ?Ey; auto.
Qed.

Lemma saucer_circles_lie_in_the_field_witness :
  exists w', update 16 (playingAt 6) = Some w' /\
             Forall (fun p => circleInField 800 600 p.1 (shipY (stateRef w')))
               (drawnFleet (Level.mk 7 4 8 2 (14 # 10)) (stateRef w')) /\
             length (drawnFleet (Level.mk 7 4 8 2 (14 # 10)) (stateRef w')) = 2%nat.
Proof.
  destruct (update 16 (playingAt 6)) as [w'|] eqn:E; [|vm_compute in E; discriminate].
  exists w'. split; [reflexivity|]. split; [|reflexivity].
  apply (saucer_circles_lie_in_the_field 16 (playingAt 6) w' 800 600 (Level.mk 7 4 8 2 (14 # 10)) E).
  - vm_compute. reflexivity.
  - vm_compute. reflexivity.
  - vm_compute. discriminate.
  - vm_compute. discriminate.
Defined.

(** ** The fraction on the HUD *)




(** ** The key map *)






(** ** One gem never completes a level *)

Lemma spawnGem_valid (level : Level.t) (cw : Q) (w : World) :
  2 <= Level.denominator level -> unitDraws w -> validGem level (spawnGem level cw w).1.
Proof.
  intros Hd Hr. unfold validGem, spawnGem, Math_random.
  cbn [fst snd drawn set_drawn randoms Gem.numerator].
  destruct (Hr (S (drawn w))) as [H0 H1].
  destruct (scaled_draw_bounds (randoms w (S (drawn w))) (Level.denominator level - 1) H0 H1)
    as [Hs0 Hs1]; [lia|].
  pose proof (Math_floor_bounds _ _ Hs0 Hs1) as Hf.
  destruct (Qltb (randoms w (drawn w)) (3 # 10)); lia.
Qed.

Lemma updateGems_valid (level level' : Level.t) (ch dt : Q) (l : list Gem.t) (w : World) :
  Forall (validGem level') l -> Forall (validGem level') (updateGems level ch dt l w).1.
Proof.
  induction 1 as [|gem rest Hg _ IH]; cbn [updateGems]; [constructor|].
  destruct (updateGems level ch dt rest w) as [gs w1]. cbn [fst] in IH.
  destruct (overlapsShip _ _ _ _ _); [exact IH|].
  destruct (Qgtb _ _); [exact IH|]. cbn [fst].
  constructor; [exact Hg | exact IH].
Qed.

(** A collection of less than the target leaves the game state alone or
    opens the math challenge. *)
Lemma collectGem_below_target (level : Level.t) (n : Z) (w : World) :
  Z.abs n < Level.targetNumerator level ->
  consistent (stateRef w) ->
  gameState (collectGem level n w) = gameState w \/
  gameState (collectGem level n w) = math_challenge.
Proof.
  intros Hn Hc. unfold collectGem.
  set (w2 := onState clampNegative (onState (accumulate n) w)).
  assert (H2 : gameState w2 = gameState w /\
               (cleared (stateRef w2) \/
                currentNumerator (stateRef w2) = currentNumerator (stateRef w) + n /\
                collectedHistory (stateRef w2) = collectedHistory (stateRef w) ++ [n])).
  { subst w2. cbn [stateRef onState set_stateRef gameState]. split; [reflexivity|].
    destruct (clampNegative_core (accumulate n (stateRef w))) as [_ [[C _]|[-> _]]].
    - left. exact C.
    - right. split; reflexivity. }
  clearbody w2. destruct H2 as [G2 R2].
  destruct (evaluate_cases level w2) as [(E & L & _)|[(_ & _ & ->)|[(_ & ->)|(_ & ->)]]].
  - exfalso. cbv zeta in E. destruct R2 as [[C1 C2]|[C1 C2]].
    + lia.
    + rewrite C2, length_app in L. cbn [length] in L.
      destruct (collectedHistory (stateRef w)) as [|x h] eqn:Eh; [|cbn [length] in L; lia].
      unfold consistent in Hc. rewrite Eh in Hc. cbn in Hc. lia.
  - right. reflexivity.
  - left. exact G2.
  - left. exact G2.
Qed.

Lemma updateGems_below_target (level : Level.t) (ch dt : Q) (l : list Gem.t) (w : World) :
  Forall (fun g => Z.abs (Gem.numerator g) < Level.targetNumerator level) l ->
  consistent (stateRef w) ->
  consistent (stateRef (updateGems level ch dt l w).2) /\
  (gameState (updateGems level ch dt l w).2 = gameState w \/
   gameState (updateGems level ch dt l w).2 = math_challenge).
Proof.
  intros Hl Hc. induction Hl as [|gem rest Hg _ IH]; cbn [updateGems].
  - cbn [snd]. auto.
  - destruct (updateGems level ch dt rest w) as [gs w1]. cbn [snd] in IH.
    destruct IH as [C1 G1].
    destruct (overlapsShip _ _ _ _ _).
    + cbn [snd Gem.numerator]. split.
      * exact (steady_consistent _ _ (steady_collectGem level (Gem.numerator gem) w1) C1).
      * destruct (collectGem_below_target level (Gem.numerator gem) w1 Hg C1) as [E|E].
        -- rewrite E. exact G1.
        -- right. exact E.
    + destruct (Qgtb _ _); cbn [snd]; auto.
Qed.

Lemma validGem_below_target (i : nat) (level : Level.t) (g : Gem.t) :
  LEVELS !! i = Some level -> validGem level g ->
  Z.abs (Gem.numerator g) < Level.targetNumerator level.
Proof.
  intros Hl Hv. destruct (LEVELS_denominator i level Hl) as (Hd & Ht & Hn & _).
  unfold validGem in Hv. nia.
Qed.

Lemma collisions_below_target (level : Level.t) (ch dt : Q) (w1 w' : World) :
  (let '(os, s) := updateObstacles level ch dt (obstacles (stateRef w1)) (stateRef w1) in
   let w := set_stateRef (set_obstacles os s) w1 in
   let '(gs, w) := updateGems level ch dt (gems (stateRef w)) w in
   Some (onState (set_gems gs) w)) = Some w' ->
  forall level', Forall (validGem level') (gems (stateRef w1)) ->
  Forall (validGem level') (gems (stateRef w')) /\
  (Forall (fun g => Z.abs (Gem.numerator g) < Level.targetNumerator level) (gems (stateRef w1)) ->
   consistent (stateRef w1) ->
   gameState w' = gameState w1 \/ gameState w' = math_challenge).
Proof.
  intros H level' Hv.
  pose proof (updateObstacles_survivors level ch dt (obstacles (stateRef w1)) (stateRef w1)) as Ho.
  pose proof (updateObstacles_state level ch dt (obstacles (stateRef w1)) (stateRef w1)) as Hs.
  cbv zeta in Ho.
  destruct (updateObstacles level ch dt (obstacles (stateRef w1)) (stateRef w1)) as [os s].
  cbn [fst snd] in Ho, Hs. destruct Ho as (_ & _ & _ & Go). cbv zeta in H.
  assert (S2 : gems (stateRef (set_stateRef (set_obstacles os s) w1)) = gems (stateRef w1) /\
               gameState (set_stateRef (set_obstacles os s) w1) = gameState w1 /\
               (consistent (stateRef w1) ->
                consistent (stateRef (set_stateRef (set_obstacles os s) w1)))).
  { rewrite stateRef_set_stateRef. split; [destruct s; exact Go|]. split; [reflexivity|].
    intros Hc. destruct Hs as [-> | ->]; [exact Hc | reflexivity]. }
  revert H S2. generalize (set_stateRef (set_obstacles os s) w1). intros w2 H (G2 & St2 & C2).
  pose proof (updateGems_valid level level' ch dt (gems (stateRef w2)) w2) as Hg.
  pose proof (updateGems_below_target level ch dt (gems (stateRef w2)) w2) as Hb.
  destruct (updateGems level ch dt (gems (stateRef w2)) w2) as [gs w3].
  cbn [fst snd] in Hg, Hb. injection H as <-.
  assert (S4 : gems (stateRef (onState (set_gems gs) w3)) = gs /\
               gameState (onState (set_gems gs) w3) = gameState w3).
  { unfold onState. rewrite stateRef_set_stateRef. destruct (stateRef w3). split; reflexivity. }
  destruct S4 as [G4 St4]. rewrite G4, St4. split.
  - apply Hg. rewrite G2. exact Hv.
  - intros Hlt Hc. rewrite <- St2. apply Hb; [rewrite G2; exact Hlt | exact (C2 Hc)].
Qed.

(** The gems, the run and the game state as [beforeCollisions] leaves
    them. *)
Lemma beforeCollisions_gems (level : Level.t) (cw ch dt : Q) (w : World) :
  let w1 := beforeCollisions level cw ch dt w in
  gameState w1 = gameState w /\ levelIdx w1 = levelIdx w /\ randoms w1 = randoms w /\
  exists v, randoms v = randoms w /\
            (gems (stateRef w1) = gems (stateRef w) \/
             gems (stateRef w1) = gems (stateRef w) ++ [(spawnGem level cw v).1]).
Proof.
  cbv zeta.
  destruct (beforeCollisions_world level cw ch dt w) as (ss & v1 & v2 & k & _ & R1 & _ & E).
  rewrite E. split; [reflexivity|]. split; [reflexivity|]. split; [reflexivity|].
  exists v1. split; [exact R1|]. rewrite stateRef_set_stateRef.
  destruct (spawnTimers_fields level dt (spawnGem level cw v1).1 (spawnObstacle level cw v2).1
              (settledState level cw ch dt ss (stateRef w)))
    as (_ & _ & (_ & Tg) & _).
  cbv zeta in Tg.
  destruct (settledState_fields level cw ch dt ss (stateRef w)) as (_ & (Ug & _) & _).
  cbv zeta in Ug. rewrite Tg, Ug.
  destruct (Qle_bool _ 0); [right | left]; reflexivity.
Qed.

Lemma update_gems (dt : Q) (w w' : World) :
  update dt w = Some w' -> unitDraws w -> gemsValid w ->
  gemsValid w' /\
  (consistent (stateRef w) -> gameState w' = gameState w \/ gameState w' = math_challenge).
Proof.
  intros H Hr Hv. rewrite update_unfold in H.
  destruct (canvas w) as [[cw ch]|]; [|simplify_eq; auto].
  destruct (LEVELS !! levelIdx w) as [level|] eqn:Hl; [|discriminate].
  cbv zeta in H.
  destruct (beforeCollisions_gems level cw ch dt w) as (Gs & Li & _ & v & Rv & Hg).
  cbv zeta in Gs, Li, Hg.
  destruct (beforeCollisions_run level cw ch dt w) as [B1 B2]. cbv zeta in B1, B2.
  destruct (LEVELS_denominator _ _ Hl) as (Hd & _).
  assert (Hv1 : Forall (validGem level) (gems (stateRef (beforeCollisions level cw ch dt w)))).
  { destruct Hg as [-> | ->]; [exact (Hv level Hl)|].
    apply Forall_app. split; [exact (Hv level Hl)|].
    constructor; [|constructor]. apply spawnGem_valid; [lia|].
    intros n. rewrite Rv. apply Hr. }
  pose proof (collisions_afterHits level ch dt _ w' H) as Ha.
  destruct (afterHits_other_fields level _ _ Ha) as (Li' & _).
  destruct (collisions_below_target level ch dt _ w' H level Hv1) as [V' G'].
  split.
  - intros level' Hl'. rewrite Li', Li, Hl in Hl'. injection Hl' as <-. exact V'.
  - intros Hc. rewrite <- Gs. apply G'.
    + eapply Forall_impl; [exact Hv1|]. intros g. apply (validGem_below_target _ _ g Hl).
    + unfold consistent in *. rewrite B1, B2. exact Hc.
Qed.

Lemma gemsValid_same (w w' : World) :
  levelIdx w' = levelIdx w -> gems (stateRef w') = gems (stateRef w) ->
  gemsValid w -> gemsValid w'.
Proof. intros Hl Hg H level Hlv. rewrite Hl in Hlv. rewrite Hg. exact (H level Hlv). Qed.

Lemma gemsValid_empty (w : World) : gems (stateRef w) = [] -> gemsValid w.
Proof. intros Hg level _. rewrite Hg. constructor. Qed.

Lemma update_randoms (dt : Q) (w w' : World) :
  update dt w = Some w' -> randoms w' = randoms w.
Proof.
  intros H.
  destruct (update_anatomy dt w w' H) as [[_ ->]|(cw & ch & level & Hc & Hl & Ha)];
    [reflexivity|].
  destruct (afterHits_other_fields level _ _ Ha) as (_ & _ & R & _).
  destruct (beforeCollisions_gems level cw ch dt w) as (_ & _ & Rb & _). cbv zeta in Rb.
  congruence.
Qed.

Lemma step_randoms (e : Event) (w w' : World) :
  step e w = Some w' -> randoms w' = randoms w.
Proof.
  destruct e as [time|key|key|iw ih|now|now|now| |text| |now]; cbn [step]; intros H.
  - unfold loop in H. case_bool_decide; [|simplify_eq; reflexivity].
    apply update_randoms in H. exact H.
  - simplify_eq.
    destruct (handleKeyDown_cases key w) as [(-> & Hg & Hpos & ->)|(_ & ->)]; reflexivity.
  - simplify_eq. reflexivity.
  - simplify_eq. unfold handleResize. case_match; reflexivity.
  - case_bool_decide; simplify_eq; reflexivity.
  - case_bool_decide; simplify_eq; reflexivity.
  - case_bool_decide; simplify_eq; reflexivity.
  - case_bool_decide; simplify_eq; [|reflexivity].
    unfold startChargeUp in H.
    destruct (makeChargeQuestion (levelIdx w) w) as [[q w1]|] eqn:E; [|discriminate].
    apply makeChargeQuestion_Some in E. simplify_eq. reflexivity.
  - case_bool_decide; simplify_eq; reflexivity.
  - case_bool_decide as Hs; simplify_eq; [|reflexivity].
    destruct (handleMathSubmit_cases w) as [(_ & ->)|[(_ & _ & ->)|(_ & _ & ->)]];
      reflexivity.
  - case_bool_decide as Hs; simplify_eq; [|reflexivity].
    destruct (handleChargeSubmit_cases now w) as [(_ & E)|[(_ & _ & E)|(_ & _ & E)]];
      rewrite E in H; clear E.
    + simplify_eq. reflexivity.
    + simplify_eq. reflexivity.
    + destruct (makeChargeQuestion _ _) as [[q w1]|] eqn:E; [|discriminate].
      apply makeChargeQuestion_Some in E. simplify_eq. reflexivity.
Qed.

Lemma step_gemsValid (e : Event) (w w' : World) :
  unitDraws w -> gemsValid w -> step e w = Some w' -> gemsValid w'.
Proof.
  intros Hr Hw.
  destruct e as [time|key|key|iw ih|now|now|now| |text| |now]; cbn [step]; intros H.
  - unfold loop in H. case_bool_decide; [|simplify_eq; assumption].
    apply update_gems in H; [apply H|exact Hr|].
    apply (gemsValid_same w); [reflexivity..|exact Hw].
  - simplify_eq.
    destruct (handleKeyDown_cases key w) as [(-> & Hg & Hpos & ->)|(_ & ->)];
      apply (gemsValid_same w); solve [reflexivity | exact Hw].
  - simplify_eq. apply (gemsValid_same w); solve [reflexivity | exact Hw].
  - simplify_eq. unfold handleResize. case_match;
      apply (gemsValid_same w); solve [reflexivity | exact Hw].
  - case_bool_decide; simplify_eq; [|assumption]. apply gemsValid_empty. reflexivity.
  - case_bool_decide; simplify_eq; [|assumption]. apply gemsValid_empty. reflexivity.
  - case_bool_decide; simplify_eq; [|assumption]. apply gemsValid_empty. reflexivity.
  - case_bool_decide; simplify_eq; [|assumption].
    unfold startChargeUp in H.
    destruct (makeChargeQuestion (levelIdx w) w) as [[q w1]|] eqn:E; [|discriminate].
    apply makeChargeQuestion_Some in E. simplify_eq.
    apply (gemsValid_same w); solve [reflexivity | exact Hw].
  - case_bool_decide; simplify_eq; [|assumption].
    apply (gemsValid_same w); solve [reflexivity | exact Hw].
  - case_bool_decide as Hs; simplify_eq; [|assumption].
    destruct (handleMathSubmit_cases w) as [(_ & ->)|[(_ & _ & ->)|(_ & _ & ->)]];
      apply (gemsValid_same w); solve [reflexivity | exact Hw].
  - case_bool_decide as Hs; simplify_eq; [|assumption].
    destruct (handleChargeSubmit_cases now w) as [(_ & E)|[(_ & _ & E)|(_ & _ & E)]];
      rewrite E in H; clear E.
    + simplify_eq. apply (gemsValid_same w); solve [reflexivity | exact Hw].
    + simplify_eq. apply gemsValid_empty. reflexivity.
    + destruct (makeChargeQuestion _ _) as [[q w1]|] eqn:E; [|discriminate].
      apply makeChargeQuestion_Some in E. simplify_eq.
      apply (gemsValid_same w); solve [reflexivity | exact Hw].
Qed.

Lemma initial_gemsValid (iw ih : Q) (rs : nat -> Q) : gemsValid (initial iw ih rs).
Proof.
  unfold initial.
  match goal with
  | |- context [initStars 100 ?v] =>
      destruct (initStars_world 100 v) as [k Hk]; destruct (initStars 100 v) as [ss w']
  end.
  cbn in Hk. subst. apply gemsValid_empty. reflexivity.
Qed.

Lemma reachable_gemsValid (w : World) : reachable w -> unitDraws w -> gemsValid w.
Proof.
  induction 1 as [iw ih rs|e w w' _ IH Hs]; intros Hr.
  - apply initial_gemsValid.
  - assert (Hr' : unitDraws w) by (intros n; rewrite <- (step_randoms e w w' Hs); apply Hr).
    exact (step_gemsValid e w w' Hr' (IH Hr') Hs).
Qed.

(** X16. With random draws in [0, 1), as [Math.random] gives them, every
    gem in the field of a reachable world has a numerator of magnitude
    between 1 and denominator - 1, which is less than the target. One gem
    alone therefore never meets the target, and a frame never ends a level
    by itself: from [playing] it leads to [playing] or to the math
    challenge. The branch of the gem loop that sets [level_complete] or
    [game_complete] for a history of one entry is not taken in play. *)
Theorem frame_never_completes_a_level_directly (time : Q) (w w' : World)
  (Hr : reachable w)
  (Hd : unitDraws w)
  (Hs : step (Frame time) w = Some w') :
  gemsValid w' /\
  (gameState w = playing -> gameState w' = playing \/ gameState w' = math_challenge).
Proof.
  pose proof (reachable_gemsValid w Hr Hd) as Hv.
  split; [exact (step_gemsValid _ w w' Hd Hv Hs)|].
  intros Hp. cbn [step] in Hs. unfold loop in Hs.
  rewrite bool_decide_eq_true_2 in Hs by exact Hp.
  apply update_gems in Hs.
  - destruct Hs as [_ G]. rewrite <- Hp. apply G.
    exact (wf_consistent w (reachable_wellFormed w Hr)).
  - exact Hd.
  - apply (gemsValid_same w); [reflexivity..|exact Hv].
Qed.

Lemma frame_never_completes_a_level_directly_witness :
  exists w w',
    run (ClickStartEngine 0 :: frames 19) (initial 800 170 (fun _ => (1 # 2)%Q)) = Some w /\
    step (Frame 1000) w = Some w' /\
    collectedHistory (stateRef w') = [2] /\ gameState w' = playing.
Proof.
  destruct (run (ClickStartEngine 0 :: frames 19) (initial 800 170 (fun _ => (1 # 2)%Q)))
    as [w|] eqn:E; [|vm_compute in E; discriminate].
  pose proof E as E'. vm_compute in E'. injection E' as E'.
  destruct (step (Frame 1000) w) as [w'|] eqn:F;
    [|rewrite <- E' in F; vm_compute in F; discriminate].
  exists w, w'. split; [reflexivity|]. split; [exact F|].
  pose proof F as F'. rewrite <- E' in F'. vm_compute in F'. injection F' as F'.
  split; [rewrite <- F'; reflexivity|].
  destruct (frame_never_completes_a_level_directly 1000 w w') as [_ [G|G]].
  - exact (reachable_run _ _ _ (reachable_initial _ _ _) E).
  - intros n. rewrite <- E'. split; [vm_compute; discriminate | vm_compute; reflexivity].
  - exact F.
  - rewrite <- E'. reflexivity.
  - exact G.
  - rewrite <- F' in G. discriminate.
Defined.

(** ** The overlays and the catalog *)

Lemma wonAtLast_same (w w' : World) :
  levelIdx w' = levelIdx w -> gameState w' = gameState w -> wonAtLast w -> wonAtLast w'.
Proof. intros Hl Hg H. unfold wonAtLast. rewrite Hl, Hg. exact H. Qed.

Lemma wonAtLast_other (w : World) : gameState w <> game_complete -> wonAtLast w.
Proof. intros H G. contradiction. Qed.

Lemma wonAtLast_completed (w : World) :
  wonAtLast (setGameState (if (levelIdx w =? length LEVELS - 1)%nat
                           then game_complete else level_complete) w).
Proof.
  unfold wonAtLast. cbn [gameState levelIdx setGameState].
  destruct (Nat.eqb_spec (levelIdx w) (length LEVELS - 1)); [auto | discriminate].
Qed.

Lemma collectGem_wonAtLast (level : Level.t) (n : Z) (w : World) :
  wonAtLast w -> wonAtLast (collectGem level n w).
Proof.
  intros H. unfold collectGem.
  set (w2 := onState clampNegative (onState (accumulate n) w)).
  assert (H2 : wonAtLast w2) by exact H.
  clearbody w2.
  destruct (evaluate_cases level w2) as [(_ & _ & ->)|[(_ & _ & ->)|[(_ & ->)|(_ & ->)]]].
  - apply wonAtLast_completed.
  - apply wonAtLast_other. discriminate.
  - exact H2.
  - exact H2.
Qed.

Lemma afterHits_wonAtLast (level : Level.t) (w w' : World) :
  afterHits level w w' -> wonAtLast w -> wonAtLast w'.
Proof.
  intros H Hw. induction H as [|w1 _ IH|w1 n _ IH|w1 os _ IH|w1 gs _ IH].
  - exact Hw.
  - exact IH.
  - apply collectGem_wonAtLast, IH.
  - exact IH.
  - exact IH.
Qed.

Lemma update_wonAtLast (dt : Q) (w w' : World) :
  update dt w = Some w' -> wonAtLast w -> wonAtLast w'.
Proof.
  intros H Hw.
  destruct (update_anatomy dt w w' H) as [[_ ->]|(cw & ch & level & Hc & Hl & Ha)];
    [exact Hw|].
  apply (afterHits_wonAtLast level _ _ Ha).
  destruct (beforeCollisions_gems level cw ch dt w) as (G & L & _). cbv zeta in G, L.
  exact (wonAtLast_same _ _ L G Hw).
Qed.

Lemma step_wonAtLast (e : Event) (w w' : World) :
  wonAtLast w -> step e w = Some w' -> wonAtLast w'.
Proof.
  intros Hw.
  destruct e as [time|key|key|iw ih|now|now|now| |text| |now]; cbn [step]; intros H.
  - unfold loop in H. case_bool_decide; [|simplify_eq; assumption].
    apply update_wonAtLast in H; [exact H|].
    apply (wonAtLast_same w); [reflexivity..|exact Hw].
  - simplify_eq.
    destruct (handleKeyDown_cases key w) as [(-> & Hg & Hpos & ->)|(_ & ->)];
      apply (wonAtLast_same w); solve [reflexivity | exact Hw].
  - simplify_eq. apply (wonAtLast_same w); solve [reflexivity | exact Hw].
  - simplify_eq. unfold handleResize. case_match;
      apply (wonAtLast_same w); solve [reflexivity | exact Hw].
  - case_bool_decide; simplify_eq; [|assumption]. apply wonAtLast_other. discriminate.
  - case_bool_decide; simplify_eq; [|assumption]. apply wonAtLast_other. discriminate.
  - case_bool_decide; simplify_eq; [|assumption]. apply wonAtLast_other. discriminate.
  - case_bool_decide as Hs; simplify_eq; [|assumption].
    unfold startChargeUp in H.
    destruct (makeChargeQuestion (levelIdx w) w) as [[q w1]|] eqn:E; [|discriminate].
    apply makeChargeQuestion_Some in E. simplify_eq. apply wonAtLast_other. discriminate.
  - case_bool_decide; simplify_eq; [|assumption].
    apply (wonAtLast_same w); solve [reflexivity | exact Hw].
  - case_bool_decide as Hs; simplify_eq; [|assumption].
    destruct (handleMathSubmit_cases w) as [(_ & ->)|[(_ & _ & ->)|(_ & _ & ->)]].
    + apply (wonAtLast_same w); solve [reflexivity | exact Hw].
    + apply wonAtLast_completed.
    + apply (wonAtLast_same w); solve [reflexivity | exact Hw].
  - case_bool_decide as Hs; simplify_eq; [|assumption].
    destruct (handleChargeSubmit_cases now w) as [(_ & E)|[(_ & _ & E)|(_ & _ & E)]];
      rewrite E in H; clear E.
    + simplify_eq. apply (wonAtLast_same w); solve [reflexivity | exact Hw].
    + simplify_eq. apply wonAtLast_other. discriminate.
    + destruct (makeChargeQuestion _ _) as [[q w1]|] eqn:E; [|discriminate].
      apply makeChargeQuestion_Some in E. simplify_eq.
      apply (wonAtLast_same w); solve [reflexivity | exact Hw].
Qed.

Lemma initial_wonAtLast (iw ih : Q) (rs : nat -> Q) : wonAtLast (initial iw ih rs).
Proof.
  unfold initial.
  match goal with
  | |- context [initStars 100 ?v] =>
      destruct (initStars_world 100 v) as [k Hk]; destruct (initStars 100 v) as [ss w']
  end.
  cbn in Hk. subst. apply wonAtLast_other. discriminate.
Qed.

Lemma reachable_wonAtLast (w : World) : reachable w -> wonAtLast w.
Proof.
  induction 1 as [iw ih rs|e w w' _ IH Hs].
  - apply initial_wonAtLast.
  - exact (step_wonAtLast e w w' IH Hs).
Qed.

(** X17. The overlays agree with the catalog. In every reachable world the
    level played is one of the eleven; the victory screen is up only on the
    last of them; and the level-complete screen and the charge-up quiz are
    up only on a level that has a successor, so that Continue, and the third
    correct charge-up answer, lead to a level that exists. *)
Theorem overlays_agree_with_the_catalog (w : World) (Hr : reachable w) :
  (exists level, LEVELS !! levelIdx w = Some level /\ Level.id level = Z.of_nat (levelIdx w) + 1) /\
  (gameState w = game_complete -> levelIdx w = 10%nat) /\
  (gameState w = level_complete \/ gameState w = charge_up ->
   forall now, exists level,
     LEVELS !! levelIdx (nextLevel now w) = Some level /\
     Level.id level = Z.of_nat (levelIdx w) + 2).
Proof.
  pose proof (reachable_wellFormed w Hr) as [_ _ Hl Hn].
  split; [|split].
  - destruct (LEVELS_lookup _ Hl) as [level E]. exists level. split; [exact E|].
    apply (LEVELS_denominator _ _ E).
  - exact (reachable_wonAtLast w Hr).
  - intros Hg now. specialize (Hn Hg).
    assert (E : levelIdx (nextLevel now w) = (levelIdx w + 1)%nat) by reflexivity.
    rewrite E. destruct (LEVELS_lookup _ Hn) as [level El]. exists level.
    split; [exact El|]. destruct (LEVELS_denominator _ _ El) as (_ & _ & _ & Hi). lia.
Qed.

Lemma overlays_agree_with_the_catalog_witness :
  exists w, run (ClickStartEngine 0 :: frames 20) (initial 800 170 (fun _ => (1 # 2)%Q)) = Some w /\
            exists level, LEVELS !! levelIdx w = Some level /\ Level.id level = 1.
Proof.
  destruct (run (ClickStartEngine 0 :: frames 20) (initial 800 170 (fun _ => (1 # 2)%Q)))
    as [w|] eqn:E; [|vm_compute in E; discriminate].
  exists w. split; [reflexivity|].
  pose proof E as E'. vm_compute in E'. injection E' as E'.
  destruct (overlays_agree_with_the_catalog w) as [(level & Hl & Hi) _].
  - exact (reachable_run _ _ _ (reachable_initial _ _ _) E).
  - exists level. split; [exact Hl|]. rewrite Hi, <- E'. reflexivity.
Defined.

(** X18. The handlers never read a field of an undefined level. In every
    reachable world [LEVELS[levelIdx]] is defined, so that [update], whatever
    the time step, [startChargeUp] and [handleChargeSubmit] (the two read
    the level in [makeChargeQuestion]) run to their end. What [draw] does
    with the world that [update] leaves is not part of this statement. *)
Theorem level_is_defined_where_it_is_read (w : World) (Hr : reachable w) :
  (exists level, LEVELS !! levelIdx w = Some level) /\
  (forall dt, exists w', update dt w = Some w') /\
  (exists w', startChargeUp w = Some w') /\
  (forall now, exists w', handleChargeSubmit now w = Some w').
Proof.
  pose proof (reachable_wellFormed w Hr) as [_ _ Hl _].
  split; [exact (LEVELS_lookup _ Hl)|].
  split; [intros dt; exact (update_total dt w Hl)|].
  split.
  - unfold startChargeUp.
    destruct (makeChargeQuestion_world (levelIdx w) w Hl) as [q ->]. eauto.
  - intros now.
    destruct (handleChargeSubmit_cases now w) as [(_ & ->)|[(_ & _ & ->)|(_ & _ & ->)]];
      eauto.
    match goal with
    | |- context [makeChargeQuestion ?i ?v] =>
        destruct (makeChargeQuestion_world i v Hl) as [q ->]
    end.
    eauto.
Qed.

Lemma level_is_defined_where_it_is_read_witness :
  exists w,
    run (ClickStartEngine 0 :: KeyDown "w" :: frames 20) (initial 800 408 playDraws) = Some w /\
    (exists w', update 50 w = Some w') /\ (exists w', startChargeUp w = Some w').
Proof.
  destruct (reachable_run_total (ClickStartEngine 0 :: KeyDown "w" :: frames 20)
              (initial 800 408 playDraws) (reachable_initial _ _ _)) as (w & E & R).
  exists w. split; [exact E|].
  destruct (level_is_defined_where_it_is_read w R) as (_ & U & C & _).
  split; [exact (U 50%Q) | exact C].
Defined.

(** ** Obstacles and shockwaves *)



Lemma updateShockwaves_visible (dt : Q) (l : list Shockwave.t) :
  Forall (fun sw => (0 < Shockwave.alpha sw)%Q) (updateShockwaves dt l) /\
  (length (updateShockwaves dt l) <= length l)%nat.
Proof.
  induction l as [|sw rest [IH1 IH2]]; cbn [updateShockwaves length].
  - split; [constructor | lia].
  - cbv zeta.
    match goal with
    | |- context [Qle_bool ?a 0] => destruct (Qle_bool a 0) eqn:E
    end.
    + split; [exact IH1 | lia].
    + split; [|cbn [length]; lia].
      constructor; [|exact IH1]. cbn [Shockwave.alpha].
      apply Qnot_le_lt. intros H. apply Qle_bool_iff in H. congruence.
Qed.

(** X20. After a frame every shockwave still in the list is visible: its
    alpha is positive, the ones that faded to 0 or below in this frame
    having been spliced out, and the frame adds none. The shockwaves are
    taken to have a reach other than 0, as the Pulsar gives them in a window
    that is not empty, so that the division by the reach is a real one. *)
Theorem faded_shockwaves_are_removed (dt : Q) (w w' : World) (cw ch : Q)
  (Hu : update dt w = Some w')
  (Hc : canvas w = Some (cw, ch))
  (Hm : Forall (fun sw => ~ (Shockwave.maxRadius sw == 0)%Q) (shockwaves (stateRef w))) :
  Forall (fun sw => (0 < Shockwave.alpha sw)%Q) (shockwaves (stateRef w')) /\
  (length (shockwaves (stateRef w')) <= length (shockwaves (stateRef w)))%nat.
Proof.
  destruct (update_anatomy dt w w' Hu) as [[Hn _]|(cw' & ch' & level & _ & Hl & Ha)];
    [congruence|].
  destruct (afterHits_other_fields level _ _ Ha) as (_ & _ & _ & _ & _ & _ & _ & _ & S & _).
  destruct (beforeCollisions_world level cw' ch' dt w) as (ss & v1 & v2 & k & _ & _ & _ & E).
  rewrite E, stateRef_set_stateRef in S.
  destruct (spawnTimers_fields level dt (spawnGem level cw' v1).1 (spawnObstacle level cw' v2).1
              (settledState level cw' ch' dt ss (stateRef w)))
    as (_ & (_ & _ & _ & T & _) & _).
  cbv zeta in T.
  destruct (settledState_fields level cw' ch' dt ss (stateRef w)) as (_ & _ & _ & (_ & U & _)).
  cbv zeta in U.
  rewrite S, T, U. apply updateShockwaves_visible.
Qed.

Lemma faded_shockwaves_are_removed_witness :
  let w := handleKeyDown " " (onState (set_powerUps 1) (playingAt 1)) in
  length (shockwaves (stateRef w)) = 1%nat /\
  exists w', update 16 w = Some w' /\
             Forall (fun sw => (0 < Shockwave.alpha sw)%Q) (shockwaves (stateRef w')).
Proof.
  intros w. split; [reflexivity|].
  destruct (update 16 w) as [w'|] eqn:E; [|vm_compute in E; discriminate].
  exists w'. split; [reflexivity|].
  destruct (faded_shockwaves_are_removed 16 w w' 800 600 E) as [H _].
  - vm_compute. reflexivity.
  - let l := eval vm_compute in (shockwaves (stateRef w)) in
    assert (Es : shockwaves (stateRef w) = l) by (vm_compute; reflexivity).
    rewrite Es. constructor; [|constructor].
    cbn [Shockwave.maxRadius]. intros H. vm_compute in H. discriminate.
  - exact H.
Defined.
